(** * GAR converter: the conversion pipeline of [converter.py] and [db_utils.py]

    A shallow embedding of [GarConverter] (the three-stage conversion of the
    dotted-path hierarchy into localities, streets and buildings) together
    with the properties of its path decoding, retry loop, batch scheduling,
    stage processors, reconciliation pass and orchestrator.

    Strings are Rocq byte strings holding the UTF-8 encoding of the Python
    text; substring tests on well-formed UTF-8 coincide with the tests on
    code points.  Source and target databases are lists of typed rows.  Every
    round trip to a database consults a schedule of faults carried by the
    world, so that a statement quantified over worlds covers every pattern of
    database failures. *)

From Stdlib Require Import ZArith String Ascii List DecimalString Lia Permutation.
From stdpp Require Import base gmap strings list.

Open Scope string_scope.
Open Scope list_scope.

(* ================================================================== *)
(** * Python and SQL string primitives *)
(* ================================================================== *)

(** [s.split(sep)] for a one-character separator: never the empty list. *)
Fixpoint split (sep : ascii) (s : string) : list string :=
  match s with
  | EmptyString => [EmptyString]
  | String c s' =>
      if Ascii.eqb c sep then EmptyString :: split sep s'
      else match split sep s' with
           | h :: t => String c h :: t
           | [] => [String c EmptyString]
           end
  end.

(** [sep.join(l)]. *)
Fixpoint join (sep : string) (l : list string) : string :=
  match l with
  | [] => ""
  | x :: rest => match rest with [] => x | _ :: _ => x +:+ sep +:+ join sep rest end
  end.

(** [needle in hay] on strings. *)
Fixpoint contains (needle hay : string) : bool :=
  String.prefix needle hay ||
  match hay with
  | EmptyString => false
  | String _ hay' => contains needle hay'
  end.

(** [str(n)] for an integer. *)
Definition str (n : Z) : string := NilZero.string_of_int (Z.to_int n).

(** [l[:-1]]. *)
Definition but_last {A} (l : list A) : list A := take (length l - 1) l.

Fixpoint zeros (n : nat) : string :=
  match n with O => "" | S n' => String "0" (zeros n') end.

(** The format specification [:012d]: sign-aware zero padding to width 12. *)
Definition format_012d (n : Z) : string :=
  let digits := str (Z.abs n) in
  if (n <? 0)%Z
  then "-" +:+ zeros (11 - String.length digits) +:+ digits
  else zeros (12 - String.length digits) +:+ digits.

(** [x or ""] for a nullable text column. *)
Definition or_empty (x : option string) : string :=
  match x with
  | Some s => match s with EmptyString => "" | _ => s end
  | None => ""
  end.

(** [SUBSTRING_INDEX(s, delim, count)] with [count > 0]: everything to the
    left of the [count]-th delimiter, the whole string when there are fewer. *)
Fixpoint left_of_delim (d : ascii) (s : string) (count : nat) {struct s} : string :=
  match s with
  | EmptyString => EmptyString
  | String c s' =>
      match count with
      | O => EmptyString
      | S n =>
          if Ascii.eqb c d
          then match n with O => EmptyString | S _ => String c (left_of_delim d s' n) end
          else String c (left_of_delim d s' count)
      end
  end.

Fixpoint count_delim (d : ascii) (s : string) : nat :=
  match s with
  | EmptyString => O
  | String c s' => if Ascii.eqb c d then S (count_delim d s') else count_delim d s'
  end.

(** What follows the [skip]-th delimiter. *)
Fixpoint after_delim (d : ascii) (s : string) (skip : nat) {struct s} : string :=
  match skip with
  | O => s
  | S n =>
      match s with
      | EmptyString => EmptyString
      | String c s' => if Ascii.eqb c d then after_delim d s' n else after_delim d s' skip
      end
  end.

(** [SUBSTRING_INDEX(s, delim, -count)]: everything to the right of the
    [count]-th delimiter counted from the right, the whole string when there
    are fewer. *)
Definition right_of_delim (d : ascii) (s : string) (count : nat) : string :=
  let k := count_delim d s in
  if (k <? count)%nat then s else after_delim d s (k + 1 - count).

Definition SUBSTRING_INDEX (s : string) (delim : ascii) (count : Z) : string :=
  match count with
  | Z0 => EmptyString
  | Zpos p => left_of_delim delim s (Pos.to_nat p)
  | Zneg p => right_of_delim delim s (Pos.to_nat p)
  end.

(** [SUBSTRING_INDEX(SUBSTRING_INDEX(PATH, '.', n), '.', -1)]: the expression
    by which every stage reads the octet at position [n] of a path. *)
Definition path_octet (path : string) (n : Z) : string :=
  SUBSTRING_INDEX (SUBSTRING_INDEX path "." n) "." (-1).

(** [s LIKE pattern]: [%] matches any run of characters, [_] any single one,
    every other character itself (compared byte for byte). *)
Fixpoint LIKE_chars (pattern : list ascii) (s : string) {struct pattern} : bool :=
  match pattern with
  | [] => match s with EmptyString => true | String _ _ => false end
  | p :: pattern' =>
      if Ascii.eqb p "%" then
        (fix any_run (t : string) : bool :=
           LIKE_chars pattern' t ||
           match t with EmptyString => false | String _ t' => any_run t' end) s
      else match s with
           | EmptyString => false
           | String c s' => (Ascii.eqb p "_" || Ascii.eqb p c) && LIKE_chars pattern' s'
           end
  end.

Definition LIKE (s pattern : string) : bool :=
  LIKE_chars (list_ascii_of_string pattern) s.

(** [parent_path = ".".join(PATH.split(".")[:-1])]. *)
Definition parent_path_of (path : string) : string :=
  join "." (but_last (split "." path)).

(** [[l[i:i+n] for i in range(0, len(l), n)]]. *)
Fixpoint range_from (fuel start stop step : nat) : list nat :=
  match fuel with
  | O => []
  | S fuel' =>
      if (start <? stop)%nat then start :: range_from fuel' (start + step) stop step else []
  end.

Definition range (start stop step : nat) : list nat :=
  range_from (stop - start) start stop step.

Definition slice {A} (l : list A) (i j : nat) : list A := take (j - i) (drop i l).

Definition chunks {A} (batch_size : nat) (l : list A) : list (list A) :=
  map (fun i => slice l i (i + batch_size)) (range 0 (length l) batch_size).

(* ================================================================== *)
(** * Data model *)
(* ================================================================== *)

(** ** Source schema: the tables the converter reads *)

Record mh_row := {
  mh_OBJECTID : Z;
  mh_PATH : string;
  mh_ISACTIVE : Z
}.

Record ao_row := {
  ao_OBJECTID : Z;
  ao_OBJECTGUID : string;
  ao_NAME : string;
  ao_TYPENAME : string;
  ao_ISACTUAL : Z;
  ao_ISACTIVE : Z
}.

(** House numbers and the house type are nullable. *)
Record house_row := {
  h_OBJECTID : Z;
  h_OBJECTGUID : string;
  h_HOUSENUM : option string;
  h_HOUSETYPE : option Z;
  h_ADDNUM1 : option string;
  h_ADDNUM2 : option string;
  h_ISACTUAL : Z;
  h_ISACTIVE : Z
}.

Record Source := {
  mun_hierarchy : list mh_row;
  addr_obj : list ao_row;
  houses : list house_row
}.

(** ** Target schema ([create_target_schema]) *)

Record locality_row := {
  l_id : Z;
  l_objectid : Z;
  l_objectguid : string;
  l_name : string;
  l_typename : string;
  l_path_octets : string
}.

Record street_row := {
  s_id : Z;
  s_locality_id : Z;
  s_objectid : Z;
  s_objectguid : string;
  s_name : string;
  s_typename : string;
  s_path_octets : string
}.

Record building_row := {
  b_id : Z;
  b_street_id : Z;
  b_objectid : Z;
  b_objectguid : string;
  b_house_num : option string;
  b_add_num1 : option string;
  b_add_num2 : option string;
  b_housetype : option Z;
  b_addtype1 : option Z;
  b_addtype2 : option Z;
  b_path_octets : string
}.

(** A table with an [AUTO_INCREMENT] primary key. *)
Record table (R : Type) := {
  rows : list R;
  next_id : Z
}.
Arguments rows {R} _.
Arguments next_id {R} _.

Record Target := {
  localities : table locality_row;
  streets : table street_row;
  buildings : table building_row
}.

(** ** Bound parameters of the three [INSERT] statements *)

Record locality_values := {
  lv_objectid : Z;
  lv_objectguid : string;
  lv_name : string;
  lv_typename : string;
  lv_path_octets : string
}.

Record street_values := {
  sv_objectid : Z;
  sv_objectguid : string;
  sv_name : string;
  sv_typename : string;
  sv_path_octets : string;
  sv_locality_id : Z
}.

Record building_values := {
  bv_objectid : Z;
  bv_objectguid : string;
  bv_house_num : string;
  bv_add_num1 : string;
  bv_add_num2 : string;
  bv_housetype : option Z;
  bv_path_octets : string;
  bv_street_id : Z
}.

(** [INSERT ... ON DUPLICATE KEY UPDATE] against a table whose only unique
    key besides the generated [id] is [objectid]: a row with the same
    [objectid] is updated in place, otherwise a row is appended under a
    fresh [id]. *)
Definition upsert {R} (key : R -> Z) (k : Z) (fresh : Z -> R) (update : R -> R)
    (t : table R) : table R :=
  if existsb (fun r => (key r =? k)%Z) (rows t)
  then {| rows := map (fun r => if (key r =? k)%Z then update r else r) (rows t);
          next_id := next_id t |}
  else {| rows := rows t ++ [fresh (next_id t)];
          next_id := (next_id t + 1)%Z |}.

Definition upsert_locality (v : locality_values) : table locality_row -> table locality_row :=
  upsert l_objectid (lv_objectid v)
    (fun i => {| l_id := i; l_objectid := lv_objectid v; l_objectguid := lv_objectguid v;
                 l_name := lv_name v; l_typename := lv_typename v;
                 l_path_octets := lv_path_octets v |})
    (fun r => {| l_id := l_id r; l_objectid := l_objectid r; l_objectguid := lv_objectguid v;
                 l_name := lv_name v; l_typename := lv_typename v;
                 l_path_octets := lv_path_octets v |}).

Definition upsert_street (v : street_values) : table street_row -> table street_row :=
  upsert s_objectid (sv_objectid v)
    (fun i => {| s_id := i; s_locality_id := sv_locality_id v; s_objectid := sv_objectid v;
                 s_objectguid := sv_objectguid v; s_name := sv_name v;
                 s_typename := sv_typename v; s_path_octets := sv_path_octets v |})
    (fun r => {| s_id := s_id r; s_locality_id := sv_locality_id v; s_objectid := s_objectid r;
                 s_objectguid := sv_objectguid v; s_name := sv_name v;
                 s_typename := sv_typename v; s_path_octets := sv_path_octets v |}).

Definition upsert_building (v : building_values) : table building_row -> table building_row :=
  upsert b_objectid (bv_objectid v)
    (fun i => {| b_id := i; b_street_id := bv_street_id v; b_objectid := bv_objectid v;
                 b_objectguid := bv_objectguid v; b_house_num := Some (bv_house_num v);
                 b_add_num1 := Some (bv_add_num1 v); b_add_num2 := Some (bv_add_num2 v);
                 b_housetype := bv_housetype v; b_addtype1 := None; b_addtype2 := None;
                 b_path_octets := bv_path_octets v |})
    (fun r => {| b_id := b_id r; b_street_id := bv_street_id v; b_objectid := b_objectid r;
                 b_objectguid := bv_objectguid v; b_house_num := Some (bv_house_num v);
                 b_add_num1 := Some (bv_add_num1 v); b_add_num2 := Some (bv_add_num2 v);
                 b_housetype := bv_housetype v; b_addtype1 := b_addtype1 r;
                 b_addtype2 := b_addtype2 r; b_path_octets := bv_path_octets v |}).

(** The three [INSERT ... ON DUPLICATE KEY UPDATE] statements, as functions
    of the target. *)
Definition insert_locality (v : locality_values) (t : Target) : Target :=
  {| localities := upsert_locality v (localities t);
     streets := streets t;
     buildings := buildings t |}.

Definition insert_street (v : street_values) (t : Target) : Target :=
  {| localities := localities t;
     streets := upsert_street v (streets t);
     buildings := buildings t |}.

Definition insert_building (v : building_values) (t : Target) : Target :=
  {| localities := localities t;
     streets := streets t;
     buildings := upsert_building v (buildings t) |}.

(** The same statement executed with a list of parameter sets. *)
Definition insert_buildings (vs : list building_values) (t : Target) : Target :=
  foldl (fun t' v => insert_building v t') t vs.

(* ================================================================== *)
(** * Effects *)
(* ================================================================== *)

(** The exceptions the pipeline distinguishes: [execute_query] catches
    [SQLAlchemyError] only; every handler of the converter catches
    [Exception]. *)
Inductive exn : Type :=
| SQLAlchemyError (msg : string)
| AttributeError (msg : string)
| OtherError (msg : string).

Definition exn_msg (e : exn) : string :=
  match e with
  | SQLAlchemyError m => m
  | AttributeError m => m
  | OtherError m => m
  end.

Inductive outcome (A : Type) : Type :=
| Return (a : A)
| Raise (e : exn).
Arguments Return {A} a.
Arguments Raise {A} e.

(** What the next round trip to a database does. *)
Inductive fault : Type :=
| Succeeds
| Fails (e : exn).

Inductive event : Type :=
| Print (msg : string)
| Sleep (seconds : Z).

(** The databases, the names of the indexes present on the source, the
    faults still to come (the empty schedule: no more faults) and what has
    been printed and slept so far, most recent first. *)
Record World := {
  source : Source;
  source_indexes : list string;
  target : Target;
  faults : list fault;
  log : list event
}.

Definition set_target (t : Target) (w : World) : World :=
  {| source := source w; source_indexes := source_indexes w; target := t;
     faults := faults w; log := log w |}.

Definition set_faults (fs : list fault) (w : World) : World :=
  {| source := source w; source_indexes := source_indexes w; target := target w;
     faults := fs; log := log w |}.

Definition add_log (ev : event) (w : World) : World :=
  {| source := source w; source_indexes := source_indexes w; target := target w;
     faults := faults w; log := ev :: log w |}.

Definition add_index (name : string) (w : World) : World :=
  {| source := source w; source_indexes := name :: source_indexes w; target := target w;
     faults := faults w; log := log w |}.

(** Computations over the world and the local variables [L] of the running
    function that outlive its [try] block; they return or raise. *)
Definition ST (L A : Type) : Type := L * World -> outcome A * (L * World).

(** A method of the converter: no such locals. *)
Definition M (A : Type) : Type := ST unit A.

Definition ret {L A} (a : A) : ST L A := fun s => (Return a, s).

Definition bind {L A B} (m : ST L A) (k : A -> ST L B) : ST L B :=
  fun s => match m s with
           | (Return a, s') => k a s'
           | (Raise e, s') => (Raise e, s')
           end.

Definition raise {L A} (e : exn) : ST L A := fun s => (Raise e, s).

(** [try: m except Exception as e: handler(e)]. *)
Definition try_except {L A} (m : ST L A) (handler : exn -> ST L A) : ST L A :=
  fun s => match m s with
           | (Return a, s') => (Return a, s')
           | (Raise e, s') => handler e s'
           end.

Declare Scope st_scope.
Delimit Scope st_scope with st.
Notation "x <- m ;; k" := (bind m (fun x => k))
  (at level 100, m at next level, right associativity) : st_scope.
Notation "m ;;; k" := (bind m (fun _ => k))
  (at level 100, right associativity) : st_scope.
Open Scope st_scope.

Definition run {A} (m : M A) (w : World) : outcome A * World :=
  match m (tt, w) with (r, (_, w')) => (r, w') end.

(** A block that owns a fresh local variable initialised to [init]. *)
Definition with_local {L L' A} (init : L) (m : ST L A) : ST L' A :=
  fun s => match m (init, snd s) with (r, (_, w')) => (r, (fst s, w')) end.

Definition get_local {L} : ST L L := fun s => (Return (fst s), s).

Definition set_local {L} (l : L) : ST L unit := fun s => (Return tt, (l, snd s)).

Definition emit {L} (ev : event) : ST L unit :=
  fun s => (Return tt, (fst s, add_log ev (snd s))).

Definition print {L} (msg : string) : ST L unit := emit (Print msg).

Definition get_world {L} : ST L World := fun s => (Return (snd s), s).

Definition put_world {L} (w : World) : ST L unit := fun s => (Return tt, (fst s, w)).

(** One round trip to a database: it succeeds or raises as the schedule of
    faults says. *)
Definition db_call {L} : ST L unit :=
  fun s => match faults (snd s) with
           | [] => (Return tt, s)
           | Succeeds :: fs => (Return tt, (fst s, set_faults fs (snd s)))
           | Fails e :: fs => (Raise e, (fst s, set_faults fs (snd s)))
           end.

Fixpoint for_each {L A} (l : list A) (body : A -> ST L unit) : ST L unit :=
  match l with
  | [] => ret tt
  | x :: rest => body x ;;; for_each rest body
  end.

Fixpoint fold_each {L A B} (l : list A) (acc : B) (body : B -> A -> ST L B) : ST L B :=
  match l with
  | [] => ret acc
  | x :: rest => acc' <- body acc x ;; fold_each rest acc' body
  end.

(** [with self.target_engine.begin() as connection: body]: commit when the
    block ends, roll the target back when it raises. *)
Definition begin {L A} (body : ST L A) : ST L A :=
  fun s =>
    let before := target (snd s) in
    match db_call s with
    | (Raise e, s1) => (Raise e, s1)
    | (Return _, s1) =>
        match body s1 with
        | (Raise e, s2) => (Raise e, (fst s2, set_target before (snd s2)))
        | (Return a, s2) =>
            match db_call s2 with
            | (Raise e, s3) => (Raise e, (fst s3, set_target before (snd s3)))
            | (Return _, s3) => (Return a, s3)
            end
        end
    end.

(** [connection.execute(text(statement), params)] inside a transaction. *)
Definition connection_execute {L} (effect : Target -> Target) : ST L unit :=
  db_call ;;;
  w <- get_world ;;
  put_world (set_target (effect (target w)) w).

(** ** [db_utils.execute_query] and [GarConverter.execute_with_retry] *)

(** What a statement computes from, and does to, the databases. *)
Definition query (A : Type) : Type := World -> A * World.

Definition source_query {A} (f : Source -> A) : query A := fun w => (f (source w), w).

Definition target_query {A} (f : Target -> A) : query A := fun w => (f (target w), w).

(** [execute_query]: the result, or [None] after printing a
    [SQLAlchemyError]; any other exception propagates. *)
Definition execute_query {L A} (q : query A) : ST L (option A) :=
  try_except
    (db_call ;;;
     w <- get_world ;;
     put_world (snd (q w)) ;;;
     ret (Some (fst (q w))))
    (fun e => match e with
              | SQLAlchemyError m =>
                  print ("Ошибка выполнения запроса: " +:+ m) ;;; ret None
              | _ => raise e
              end).

(** The [while retries < max_retries] loop of [execute_with_retry], started
    with [retries] failures behind it; [fuel] bounds the iterations left. *)
Fixpoint retry_loop {L A} (q : query A) (max_retries retries fuel : nat) : ST L (option A) :=
  match fuel with
  | O => ret None
  | S fuel' =>
      if (retries <? max_retries)%nat then
        try_except (execute_query q)
          (fun e =>
             let retries := S retries in
             print ("Ошибка при выполнении запроса (попытка " +:+ str (Z.of_nat retries)
                    +:+ "/" +:+ str (Z.of_nat max_retries) +:+ "): " +:+ exn_msg e) ;;;
             if (max_retries <=? retries)%nat then raise e
             else emit (Sleep 1) ;;; retry_loop q max_retries retries fuel')
      else ret None
  end.

Definition execute_with_retry_n {L A} (max_retries : nat) (q : query A) : ST L (option A) :=
  retry_loop q max_retries 0 max_retries.

(** Every call site leaves [max_retries] at its default, 3. *)
Definition execute_with_retry {L A} (q : query A) : ST L (option A) :=
  execute_with_retry_n 3 q.

(* ================================================================== *)
(** * The converter *)
(* ================================================================== *)

(** What the interpreter and the database engine decide: how MySQL compares
    an [INT] column with a quoted literal of an [IN] list, [str.lower], the
    order in which a [set] is iterated and the order in which
    [as_completed] yields the futures. *)
Record Runtime := {
  sql_eq_num : Z -> string -> bool;
  str_lower : string -> string;
  set_iter : list string -> list string;
  as_completed : list (outcome (list string)) -> list (outcome (list string))
}.

(** Iteration visits every element once, in some order. *)
Definition fair (rt : Runtime) : Prop :=
  (forall l, set_iter rt l ≡ₚ l) /\ (forall l, as_completed rt l ≡ₚ l).

Record GarConverter := {
  base_path : string;
  max_workers : nat;
  locality_batch_size : nat;
  street_batch_size : nat;
  building_batch_size : nat
}.

(** [GarConverter.__init__], given the value of the environment variable
    [BASE_PATH] when it is set. *)
Definition GarConverter_init (BASE_PATH : option string) (max_workers : nat) : GarConverter :=
  {| base_path := default "381755.95238215" BASE_PATH;
     max_workers := max_workers;
     locality_batch_size := 10;
     street_batch_size := 100;
     building_batch_size := 500 |}.

(** ** The statements *)

Definition py_in (x : string) (l : list string) : bool := existsb (String.eqb x) l.

(** [addr_obj ao JOIN mun_hierarchy mh ON ao.OBJECTID = mh.OBJECTID]. *)
Definition ao_join_mh (src : Source) : list (ao_row * mh_row) :=
  flat_map (fun ao =>
              map (pair ao)
                (List.filter (fun mh => (ao_OBJECTID ao =? mh_OBJECTID mh)%Z)
                   (mun_hierarchy src)))
    (addr_obj src).

(** [houses h STRAIGHT_JOIN mun_hierarchy mh
     ON h.OBJECTID = mh.OBJECTID AND mh.ISACTIVE = 1]. *)
Definition houses_join_mh (src : Source) : list (house_row * mh_row) :=
  flat_map (fun h =>
              map (pair h)
                (List.filter (fun mh => (h_OBJECTID h =? mh_OBJECTID mh)%Z
                                        && (mh_ISACTIVE mh =? 1)%Z)
                   (mun_hierarchy src)))
    (houses src).

(** Active hierarchy rows whose path matches [pattern]. *)
Definition active_paths (pattern : string) (src : Source) : list mh_row :=
  List.filter (fun mh => LIKE (mh_PATH mh) pattern && (mh_ISACTIVE mh =? 1)%Z)
    (mun_hierarchy src).

(** [SELECT OBJECTID, PATH FROM mun_hierarchy
     WHERE PATH LIKE '{base_path}.%' AND ISACTIVE = 1]. *)
Definition objects_query (base : string) (src : Source) : list (Z * string) :=
  map (fun mh => (mh_OBJECTID mh, mh_PATH mh)) (active_paths (base +:+ ".%") src).

(** [SELECT ao.NAME ... WHERE mh.PATH = '{path}'
     AND ao.ISACTUAL = 1 AND ao.ISACTIVE = 1 LIMIT 1]. *)
Definition name_at_path_query (path : string) (src : Source) : list string :=
  take 1 (map (fun p => ao_NAME (fst p))
            (List.filter (fun p => String.eqb (mh_PATH (snd p)) path
                                   && (ao_ISACTUAL (fst p) =? 1)%Z
                                   && (ao_ISACTIVE (fst p) =? 1)%Z)
               (ao_join_mh src))).

(** [SELECT DISTINCT SUBSTRING_INDEX(SUBSTRING_INDEX(PATH, '.', 3), '.', -1)
     FROM mun_hierarchy WHERE PATH LIKE '{base_path}.%' AND ISACTIVE = 1]. *)
Definition locality_ids_query (base : string) (src : Source) : list string :=
  remove_dups (map (fun mh => path_octet (mh_PATH mh) 3) (active_paths (base +:+ ".%") src)).

(** A row of the per-batch join of [addr_obj] with [mun_hierarchy]. *)
Record named_row := {
  OBJECTID : Z;
  OBJECTGUID : string;
  NAME : string;
  TYPENAME : string;
  PATH : string
}.

(** A row of the per-batch join of [houses] with [mun_hierarchy]. *)
Record house_record := {
  hr_OBJECTID : Z;
  hr_OBJECTGUID : string;
  hr_HOUSENUM : option string;
  hr_HOUSETYPE : option Z;
  hr_ADDNUM1 : option string;
  hr_ADDNUM2 : option string;
  hr_PATH : string
}.

(** A row of the building stage's scan of the hierarchy. *)
Record building_path_row := {
  bp_PATH : string;
  bp_OBJECTID : Z;
  bp_street_id : string;
  bp_building_id : string
}.

(** [SELECT DISTINCT <octet 3> as locality_id, <octet 4> as street_id
     FROM mun_hierarchy WHERE PATH LIKE '{base_path}.%.%.%' AND ISACTIVE = 1]. *)
Definition street_pairs_query (base : string) (src : Source) : list (string * string) :=
  remove_dups (map (fun mh => (path_octet (mh_PATH mh) 3, path_octet (mh_PATH mh) 4))
                 (active_paths (base +:+ ".%.%.%") src)).

(** [SELECT mh.PATH, mh.OBJECTID, <octet 4> as street_id, <octet 5> as building_id
     FROM mun_hierarchy mh WHERE mh.PATH LIKE '{base_path}.%.%.%' AND mh.ISACTIVE = 1]. *)
Definition building_paths_query (base : string) (src : Source) : list building_path_row :=
  map (fun mh => {| bp_PATH := mh_PATH mh; bp_OBJECTID := mh_OBJECTID mh;
                    bp_street_id := path_octet (mh_PATH mh) 4;
                    bp_building_id := path_octet (mh_PATH mh) 5 |})
    (active_paths (base +:+ ".%.%.%") src).

(** [SELECT mh.OBJECTID, mh.PATH FROM mun_hierarchy mh
     WHERE mh.OBJECTID IN ({id_list}) AND mh.ISACTIVE = 1]. *)
Definition mh_by_ids_query (rt : Runtime) (batch : list string) (src : Source) : list (Z * string) :=
  map (fun mh => (mh_OBJECTID mh, mh_PATH mh))
    (List.filter (fun mh => existsb (sql_eq_num rt (mh_OBJECTID mh)) batch
                            && (mh_ISACTIVE mh =? 1)%Z)
       (mun_hierarchy src)).

(** [SELECT ... FROM addr_obj ao WHERE ao.OBJECTID = {objectid}]. *)
Definition ao_by_objectid_query (objectid : Z) (src : Source) : list ao_row :=
  List.filter (fun ao => (ao_OBJECTID ao =? objectid)%Z) (addr_obj src).

(** [SELECT ao.NAME, ao.TYPENAME FROM addr_obj ao JOIN mun_hierarchy mh
     ON ao.OBJECTID = mh.OBJECTID WHERE mh.PATH = '{parent_path}' LIMIT 1]. *)
Definition parent_query (parent_path : string) (src : Source) : list (string * string) :=
  take 1 (map (fun p => (ao_NAME (fst p), ao_TYPENAME (fst p)))
            (List.filter (fun p => String.eqb (mh_PATH (snd p)) parent_path)
               (ao_join_mh src))).

(** The shared text of the per-batch statements of the locality and street
    stages: [SELECT ao.OBJECTID, ao.OBJECTGUID, ao.NAME, ao.TYPENAME, mh.PATH
     FROM addr_obj ao JOIN mun_hierarchy mh ON ao.OBJECTID = mh.OBJECTID
     WHERE ao.OBJECTID IN ({id_list}) AND ao.ISACTUAL = 1 AND ao.ISACTIVE = 1]. *)
Definition addr_obj_batch_query (rt : Runtime) (batch : list string) (src : Source)
    : list named_row :=
  map (fun p => {| OBJECTID := ao_OBJECTID (fst p); OBJECTGUID := ao_OBJECTGUID (fst p);
                   NAME := ao_NAME (fst p); TYPENAME := ao_TYPENAME (fst p);
                   PATH := mh_PATH (snd p) |})
    (List.filter (fun p => existsb (sql_eq_num rt (ao_OBJECTID (fst p))) batch
                           && (ao_ISACTUAL (fst p) =? 1)%Z
                           && (ao_ISACTIVE (fst p) =? 1)%Z)
       (ao_join_mh src)).

(** [SELECT h.OBJECTID, h.OBJECTGUID, h.HOUSENUM, h.HOUSETYPE, h.ADDNUM1,
     h.ADDNUM2, mh.PATH FROM houses h STRAIGHT_JOIN mun_hierarchy mh ...
     WHERE h.OBJECTID IN ({id_list}) AND h.ISACTUAL = 1 AND h.ISACTIVE = 1]. *)
Definition houses_batch_query (rt : Runtime) (batch : list string) (src : Source)
    : list house_record :=
  map (fun p => {| hr_OBJECTID := h_OBJECTID (fst p); hr_OBJECTGUID := h_OBJECTGUID (fst p);
                   hr_HOUSENUM := h_HOUSENUM (fst p); hr_HOUSETYPE := h_HOUSETYPE (fst p);
                   hr_ADDNUM1 := h_ADDNUM1 (fst p); hr_ADDNUM2 := h_ADDNUM2 (fst p);
                   hr_PATH := mh_PATH (snd p) |})
    (List.filter (fun p => existsb (sql_eq_num rt (h_OBJECTID (fst p))) batch
                           && (h_ISACTUAL (fst p) =? 1)%Z
                           && (h_ISACTIVE (fst p) =? 1)%Z)
       (houses_join_mh src)).

(** [SELECT COUNT( * ) as cnt FROM information_schema.statistics
     WHERE ... AND index_name = '{name}']. *)
Definition index_count_query (name : string) : query nat :=
  fun w => (length (List.filter (String.eqb name) (source_indexes w)), w).

(** [CREATE INDEX {name} ON ...]. *)
Definition create_index (name : string) : query unit :=
  fun w => (tt, add_index name w).

(** ** Dictionaries built in memory *)

(** [{str(row.objectid): row.id for row in rows}]. *)
Definition id_map {R} (objectid id : R -> Z) (table_rows : list R) : gmap string Z :=
  foldl (fun m r => <[str (objectid r) := id r]> m) ∅ table_rows.

(** [if k not in d: d[k] = set()] followed by [d[k].add(v)], on a dictionary
    kept in insertion order whose values are sets. *)
Fixpoint add_to_group (k v : string) (d : list (string * list string))
    : list (string * list string) :=
  match d with
  | [] => [(k, [v])]
  | (k', vs) :: d' =>
      if String.eqb k' k
      then (k', if py_in v vs then vs else vs ++ [v]) :: d'
      else (k', vs) :: add_to_group k v d'
  end.

(** The loop that flattens the groups whose parent is in the map loaded from
    the target: [all_streets] with [all_locality_ids], and [all_buildings]
    with [all_street_ids]. *)
Definition add_children (target_parent_id : Z) (acc : list string * gmap string Z)
    (children : list string) : list string * gmap string Z :=
  foldl (fun acc' child_id =>
           (fst acc' ++ [child_id], <[child_id := target_parent_id]> (snd acc')))
    acc children.

Definition flatten_groups (rt : Runtime) (parents : gmap string Z)
    (groups : list (string * list string)) : list string * gmap string Z :=
  foldl (fun acc group =>
           match parents !! fst group with
           | None => acc
           | Some target_parent_id =>
               add_children target_parent_id acc (set_iter rt (snd group))
           end)
    ([], ∅) groups.

(** [locality_streets], grouped from the rows of the street-pairs statement. *)
Definition group_streets (pairs : list (string * string)) : list (string * list string) :=
  foldl (fun d row => add_to_group (fst row) (snd row) d) [] pairs.

(** [street_buildings]: only rows whose street is in the map are grouped. *)
Definition group_buildings (streets_map : gmap string Z) (scan : list building_path_row)
    : list (string * list string) :=
  foldl (fun d row =>
           match streets_map !! bp_street_id row with
           | Some _ => add_to_group (bp_street_id row) (bp_building_id row) d
           | None => d
           end) [] scan.

(** The type name given to a locality synthesised from its parent's record. *)
Definition synthesized_typename (rt : Runtime) (parent_record : option (string * string))
    : string :=
  match parent_record with
  | None => "неизвестно"
  | Some parent =>
      if contains "город" (str_lower rt (snd parent)) then "микрорайон"
      else if contains "район" (str_lower rt (snd parent)) then "поселок"
      else "населенный пункт"
  end.

(** [[id for id in ids if id not in processed_ids]]. *)
Definition missing_of (ids processed_ids : list string) : list string :=
  List.filter (fun id => negb (py_in id processed_ids)) ids.

(** The dictionaries appended to [building_records] and the ids appended to
    [processed_ids] by the preparation loop of [_process_building_batch]. *)
Definition building_record (street_ids : gmap string Z) (building : house_record)
    : option building_values :=
  match street_ids !! str (hr_OBJECTID building) with
  | Some street_id =>
      Some {| bv_objectid := hr_OBJECTID building;
              bv_objectguid := hr_OBJECTGUID building;
              bv_house_num := or_empty (hr_HOUSENUM building);
              bv_add_num1 := or_empty (hr_ADDNUM1 building);
              bv_add_num2 := or_empty (hr_ADDNUM2 building);
              bv_housetype := hr_HOUSETYPE building;
              bv_path_octets := hr_PATH building;
              bv_street_id := street_id |}
  | None => None
  end.

(** The parameters bound by the locality and street workers for a row. *)
Definition locality_params (locality : named_row) : locality_values :=
  {| lv_objectid := OBJECTID locality;
     lv_objectguid := OBJECTGUID locality;
     lv_name := NAME locality;
     lv_typename := TYPENAME locality;
     lv_path_octets := PATH locality |}.

Definition street_params (street : named_row) (locality_id : Z) : street_values :=
  {| sv_objectid := OBJECTID street;
     sv_objectguid := OBJECTGUID street;
     sv_name := NAME street;
     sv_typename := TYPENAME street;
     sv_path_octets := PATH street;
     sv_locality_id := locality_id |}.

(** ** The thread pool *)

(** [executor.submit(worker, batch, ..., batch_idx, len(batches))] for every
    batch: a worker's exception is kept in its future.  Workers are run one
    after the other in the order of submission: one of the interleavings of
    the pool, with every transaction atomic. *)
Definition future_of {L A} (m : ST L A) : ST L (outcome A) :=
  fun s => match m s with (r, s') => (Return r, s') end.

Fixpoint submit_all {A} (worker : A -> nat -> M (list string)) (batch_idx : nat)
    (batches : list A) : M (list (outcome (list string))) :=
  match batches with
  | [] => ret []
  | batch :: rest =>
      future <- future_of (worker batch batch_idx) ;;
      futures <- submit_all worker (S batch_idx) rest ;;
      ret (future :: futures)
  end.

(** The loop over [as_completed(futures)]: [processed_ids.extend] for a
    result, a printed message for an exception. *)
Fixpoint gather (what : string) (completed : list (outcome (list string)))
    (processed_ids : list string) : M (list string) :=
  match completed with
  | [] => ret processed_ids
  | Return batch_processed_ids :: rest =>
      gather what rest (processed_ids ++ batch_processed_ids)
  | Raise e :: rest =>
      print ("Ошибка при обработке группы " +:+ what +:+ ": " +:+ exn_msg e) ;;;
      gather what rest processed_ids
  end.

Section Converter.

Context (rt : Runtime) (self : GarConverter).

Definition fetchall {A} (result : option (list A)) : list A :=
  match result with Some r => r | None => [] end.

(** [result.fetchone() if result else None]. *)
Definition fetchone {A} (result : option (list A)) : option A :=
  match result with Some r => head r | None => None end.

(** *** Stage workers *)

Definition _process_locality_batch (batch : list string) (batch_idx total_batches : nat)
    : M (list string) :=
  with_local ([] : list string)
    (try_except
       (result <- execute_with_retry (source_query (addr_obj_batch_query rt batch)) ;;
        let localities_found := fetchall result in
        begin
          (for_each localities_found (fun locality =>
             connection_execute (insert_locality (locality_params locality)) ;;;
             processed_ids <- get_local ;;
             set_local (processed_ids ++ [str (OBJECTID locality)]))))
       (fun e =>
          print ("Ошибка при обработке группы населенных пунктов "
                 +:+ str (Z.of_nat (batch_idx + 1)) +:+ ": " +:+ exn_msg e)) ;;;
     get_local).

Definition _process_street_batch (batch : list string) (locality_ids : gmap string Z)
    (batch_idx total_batches : nat) : M (list string) :=
  with_local ([] : list string)
    (try_except
       (result <- execute_with_retry (source_query (addr_obj_batch_query rt batch)) ;;
        let streets_found := fetchall result in
        begin
          (for_each streets_found (fun street =>
             let street_id := str (OBJECTID street) in
             match locality_ids !! street_id with
             | Some locality_id =>
                 connection_execute (insert_street (street_params street locality_id)) ;;;
                 processed_ids <- get_local ;;
                 set_local (processed_ids ++ [street_id])
             | None => ret tt
             end)))
       (fun e =>
          print ("Ошибка при обработке группы улиц "
                 +:+ str (Z.of_nat (batch_idx + 1)) +:+ ": " +:+ exn_msg e)) ;;;
     get_local).

Definition _process_building_batch (batch : list string) (street_ids : gmap string Z)
    (batch_idx total_batches : nat) : M (list string) :=
  with_local ([] : list string)
    (try_except
       (result <- execute_with_retry (source_query (houses_batch_query rt batch)) ;;
        let buildings_found := fetchall result in
        building_records <-
          fold_each buildings_found [] (fun building_records building =>
            match building_record street_ids building with
            | Some record =>
                processed_ids <- get_local ;;
                set_local (processed_ids ++ [str (hr_OBJECTID building)]) ;;;
                ret (building_records ++ [record])
            | None => ret building_records
            end) ;;
        match building_records with
        | [] => ret tt
        | _ :: _ =>
            begin
              (connection_execute (fun t => t) ;;;
               for_each (chunks 1000 building_records) (fun batch_to_insert =>
                 connection_execute (insert_buildings batch_to_insert)) ;;;
               connection_execute (fun t => t))
        end)
       (fun e =>
          print ("Ошибка при обработке группы зданий "
                 +:+ str (Z.of_nat (batch_idx + 1)) +:+ ": " +:+ exn_msg e)) ;;;
     get_local).

(** *** Reconciliation of localities *)

(** The body of the loop over the hierarchy records of one batch: the
    dictionaries it appends to [localities_to_insert]. *)
Definition reconcile_record (mh_record : Z * string) : M (list locality_values) :=
  ao_result <- execute_with_retry (source_query (ao_by_objectid_query (fst mh_record))) ;;
  match fetchall ao_result with
  | (_ :: _) as ao_records =>
      ret (map (fun ao_record =>
                  {| lv_objectid := ao_OBJECTID ao_record;
                     lv_objectguid := ao_OBJECTGUID ao_record;
                     lv_name := ao_NAME ao_record;
                     lv_typename := ao_TYPENAME ao_record;
                     lv_path_octets := snd mh_record |}) ao_records)
  | [] =>
      let parent_path := parent_path_of (snd mh_record) in
      parent_result <- execute_with_retry (source_query (parent_query parent_path)) ;;
      let parent_record := fetchone parent_result in
      let typename := synthesized_typename rt parent_record in
      name_result <- execute_with_retry
                       (source_query (fun src => take 1 (ao_by_objectid_query (fst mh_record) src))) ;;
      let name := match fetchone name_result with
                  | Some name_record => ao_NAME name_record
                  | None => "Объект " +:+ str (fst mh_record)
                  end in
      guid_result <- execute_with_retry
                       (source_query (fun src => take 1 (ao_by_objectid_query (fst mh_record) src))) ;;
      let objectguid := match fetchone guid_result with
                        | Some guid_record => ao_OBJECTGUID guid_record
                        | None => "00000000-0000-0000-0000-" +:+ format_012d (fst mh_record)
                        end in
      ret [ {| lv_objectid := fst mh_record;
               lv_objectguid := objectguid;
               lv_name := name;
               lv_typename := typename;
               lv_path_octets := snd mh_record |} ]
  end.

Definition _process_missing_localities (missing_ids : list string) : M nat :=
  let batches := chunks (locality_batch_size self) missing_ids in
  fold_each (imap pair batches) 0 (fun total_processed indexed_batch =>
    try_except
      (mh_result <- execute_with_retry
                      (source_query (mh_by_ids_query rt (snd indexed_batch))) ;;
       let mh_records := fetchall mh_result in
       localities_to_insert <-
         fold_each mh_records [] (fun localities_to_insert mh_record =>
           found <- reconcile_record mh_record ;;
           ret (localities_to_insert ++ found)) ;;
       match localities_to_insert with
       | [] => ret total_processed
       | _ :: _ =>
           begin
             (for_each localities_to_insert (fun locality =>
                connection_execute (insert_locality locality))) ;;;
           ret (total_processed + length localities_to_insert)
       end)
      (fun e =>
         print ("Ошибка при обработке пропущенных населенных пунктов в группе "
                +:+ str (Z.of_nat (fst indexed_batch + 1)) +:+ ": " +:+ exn_msg e) ;;;
         ret total_processed)).

(** *** Stages *)

Definition process_localities_parallel : M nat :=
  result <- execute_with_retry (source_query (locality_ids_query (base_path self))) ;;
  match result with
  | None => print "Не удалось получить список населенных пунктов" ;;; ret 0
  | Some locality_ids =>
      let batches := chunks (locality_batch_size self) locality_ids in
      futures <- submit_all (fun batch batch_idx =>
                   _process_locality_batch batch batch_idx (length batches)) 0 batches ;;
      processed_ids <- gather "населенных пунктов" (as_completed rt futures) [] ;;
      let missing_ids := missing_of locality_ids processed_ids in
      match missing_ids with
      | _ :: _ =>
          additional_processed <- _process_missing_localities missing_ids ;;
          ret (length processed_ids + additional_processed)
      | [] => ret (length processed_ids)
      end
  end.

Definition process_streets_parallel : M nat :=
  result <- execute_with_retry (target_query (fun t => rows (localities t))) ;;
  match result with
  | None => print "Не удалось получить список населенных пунктов" ;;; ret 0
  | Some found =>
      let localities_map := id_map l_objectid l_id found in
      if decide (localities_map = ∅)
      then print "Не найдено населенных пунктов в целевой БД" ;;; ret 0
      else
        result <- execute_with_retry (source_query (street_pairs_query (base_path self))) ;;
        match result with
        | None => print "Не удалось получить список улиц" ;;; ret 0
        | Some pairs =>
            let locality_streets := group_streets pairs in
            let all_streets := fst (flatten_groups rt localities_map locality_streets) in
            let all_locality_ids := snd (flatten_groups rt localities_map locality_streets) in
            let batches := chunks (street_batch_size self) all_streets in
            futures <- submit_all (fun batch batch_idx =>
                         _process_street_batch batch all_locality_ids batch_idx
                           (length batches)) 0 batches ;;
            processed_ids <- gather "улиц" (as_completed rt futures) [] ;;
            let missing_ids := missing_of all_streets processed_ids in
            match missing_ids with
            | _ :: _ =>
                print ("Не удалось обработать " +:+ str (Z.of_nat (length missing_ids))
                       +:+ " улиц")
            | [] => ret tt
            end ;;;
            ret (length processed_ids)
        end
  end.

(** The check-and-create step for one of the two source indexes. *)
Definition ensure_index (name : string) : M unit :=
  result <- execute_with_retry (index_count_query name) ;;
  match result with
  | Some O =>
      execute_with_retry (create_index name) ;;;
      print ("Создан индекс " +:+ name)
  | _ => ret tt
  end.

Definition process_buildings_parallel : M nat :=
  result <- execute_with_retry (target_query (fun t => rows (streets t))) ;;
  match result with
  | None => raise (AttributeError "'NoneType' object has no attribute 'fetchall'")
  | Some found =>
      let streets_map := id_map s_objectid s_id found in
      if decide (streets_map = ∅)
      then print "Не найдено улиц в целевой БД" ;;; ret 0
      else
        try_except
          (ensure_index "idx_mun_hierarchy_path" ;;;
           ensure_index "idx_houses_objectid" ;;;
           print "Проверка индексов завершена")
          (fun e =>
             print ("Предупреждение: не удалось создать временные индексы: " +:+ exn_msg e)) ;;;
        result <- execute_with_retry (source_query (building_paths_query (base_path self))) ;;
        match result with
        | None => print "Не удалось получить список зданий" ;;; ret 0
        | Some scan =>
            let street_buildings := group_buildings streets_map scan in
            let all_buildings := fst (flatten_groups rt streets_map street_buildings) in
            let all_street_ids := snd (flatten_groups rt streets_map street_buildings) in
            match all_buildings with
            | [] => print "Не найдено зданий для обработки" ;;; ret 0
            | _ :: _ =>
                let batches := chunks (building_batch_size self) all_buildings in
                futures <- submit_all (fun batch batch_idx =>
                             _process_building_batch batch all_street_ids batch_idx
                               (length batches)) 0 batches ;;
                processed_ids <- gather "зданий" (as_completed rt futures) [] ;;
                let missing_ids := missing_of all_buildings processed_ids in
                match missing_ids with
                | _ :: _ =>
                    print ("Не удалось обработать " +:+ str (Z.of_nat (length missing_ids))
                           +:+ " зданий")
                | [] => ret tt
                end ;;;
                ret (length processed_ids)
            end
        end
  end.

(** *** The orchestrator *)

(** The line printed when the three stages have run. *)
Definition completion_report (localities_count streets_count buildings_count : nat) : string :=
  "Конвертация завершена. Обработано: " +:+ str (Z.of_nat localities_count)
  +:+ " населенных пунктов, " +:+ str (Z.of_nat streets_count)
  +:+ " улиц, " +:+ str (Z.of_nat buildings_count) +:+ " зданий".

(** The two lookups of the names of the region and of the district, used
    only in the message that announces the conversion. *)
Definition region_and_district : M (string * string) :=
  region_result <- execute_with_retry
                     (source_query (name_at_path_query
                                      (default "" (head (split "." (base_path self)))))) ;;
  let region_name := default "Неизвестный регион" (fetchone region_result) in
  district_result <- execute_with_retry
                       (source_query (name_at_path_query (base_path self))) ;;
  let district_name := default "Неизвестный район" (fetchone district_result) in
  ret (region_name, district_name).

Definition run_conversion : M bool :=
  try_except
    (result <- execute_with_retry (source_query (objects_query (base_path self))) ;;
     match result with
     | None => print "Не удалось получить объекты для конвертации" ;;; ret false
     | Some [] =>
         print ("Не найдено объектов для конвертации по пути " +:+ base_path self) ;;;
         ret false
     | Some (_ :: _) =>
         region_and_district ;;;
         localities_count <- process_localities_parallel ;;
         match localities_count with
         | O => print "Не удалось обработать населенные пункты" ;;; ret false
         | S _ =>
             streets_count <- process_streets_parallel ;;
             match streets_count with
             | O => print "Не удалось обработать улицы" ;;; ret false
             | S _ =>
                 buildings_count <- process_buildings_parallel ;;
                 print (completion_report localities_count streets_count buildings_count) ;;;
                 ret true
             end
         end
     end)
    (fun e => print ("Ошибка при конвертации данных: " +:+ exn_msg e) ;;; ret false).

End Converter.

(* ================================================================== *)
(** * Predicates used in the statements *)
(* ================================================================== *)

(** A base path without [LIKE] wildcards. *)
Definition wildcard_free (s : string) : Prop :=
  Forall (fun c => c <> "%"%char /\ c <> "_"%char) (list_ascii_of_string s).

(** The results held by the futures that completed without an exception. *)
Definition successes {A} (futures : list (outcome A)) : list A :=
  omap (fun f => match f with Return r => Some r | Raise _ => None end) futures.


(** The pauses recorded in a log, most recent first. *)
Definition sleeps (evs : list event) : list Z :=
  omap (fun ev => match ev with Sleep n => Some n | Print _ => None end) evs.

(** An exception that [execute_query] lets through. *)
Definition propagates (e : exn) : Prop := forall m, e <> SQLAlchemyError m.

(** The next round trip does not raise an exception that [execute_query]
    lets through. *)
Definition next_attempt_returns (fs : list fault) : Prop :=
  forall e fs', fs = Fails e :: fs' -> ~ propagates e.

(** ** Specifications of computations

    [triple ff S0 P m Q E]: started on the source [S0] with locals and
    target satisfying [P], the computation [m] leaves the source as it is
    and either returns [a] with locals and target satisfying [Q a] or
    raises with locals and target satisfying [E].  With [ff = true] the
    statement is about the runs without faults: the schedule of faults is
    empty, stays empty, and nothing is raised. *)
Definition triple (ff : bool) (S0 : Source) {L A}
    (P : L -> Target -> Prop) (m : ST L A)
    (Q : A -> L -> Target -> Prop) (E : L -> Target -> Prop) : Prop :=
  forall l w, source w = S0 -> (ff = true -> faults w = []) -> P l (target w) ->
    match m (l, w) with
    | (Return a, s') =>
        source (snd s') = S0 /\ (ff = true -> faults (snd s') = []) /\
        Q a (fst s') (target (snd s'))
    | (Raise e, s') =>
        source (snd s') = S0 /\ ff = false /\ E (fst s') (target (snd s'))
    end.

(** A statement reads the databases without changing them, and its result
    satisfies [R]. *)
Definition query_spec {A} (q : query A) (R : A -> Source -> Target -> Prop) : Prop :=
  forall w, source (snd (q w)) = source w /\ target (snd (q w)) = target w /\
            faults (snd (q w)) = faults w /\ R (fst (q w)) (source w) (target w).

(** The [objectid] column of each table of the target. *)
Definition locality_keys (t : Target) : list Z := map l_objectid (rows (localities t)).
Definition street_keys (t : Target) : list Z := map s_objectid (rows (streets t)).
Definition building_keys (t : Target) : list Z := map b_objectid (rows (buildings t)).

(** The unique key on [objectid] holds in the three tables. *)
Definition unique_objectids (t : Target) : Prop :=
  NoDup (locality_keys t) /\ NoDup (street_keys t) /\ NoDup (building_keys t).

(** A statement executed once per parameter set, in order. *)
Definition executed {V} (statement : V -> Target -> Target) (vs : list V) (t : Target) : Target :=
  foldl (fun t' v => statement v t') t vs.

(** ** What a run without faults writes

    The parameter sets that each worker and each stage binds, in the order
    in which it executes them, as functions of the source and of the target
    the stage starts from. *)

Definition locality_batch_writes (rt : Runtime) (batch : list string) (src : Source)
    : list locality_values :=
  map locality_params (addr_obj_batch_query rt batch src).

Definition street_batch_writes (rt : Runtime) (locality_ids : gmap string Z)
    (batch : list string) (src : Source) : list street_values :=
  omap (fun street => street_params street <$> locality_ids !! str (OBJECTID street))
    (addr_obj_batch_query rt batch src).

Definition building_batch_writes (rt : Runtime) (street_ids : gmap string Z)
    (batch : list string) (src : Source) : list building_values :=
  omap (building_record street_ids) (houses_batch_query rt batch src).

(** The rows that reconciliation binds for one hierarchy record. *)
Definition reconciled (rt : Runtime) (src : Source) (mh_record : Z * string)
    : list locality_values :=
  match ao_by_objectid_query (fst mh_record) src with
  | (_ :: _) as ao_records =>
      map (fun ao_record =>
             {| lv_objectid := ao_OBJECTID ao_record;
                lv_objectguid := ao_OBJECTGUID ao_record;
                lv_name := ao_NAME ao_record;
                lv_typename := ao_TYPENAME ao_record;
                lv_path_octets := snd mh_record |}) ao_records
  | [] =>
      [ {| lv_objectid := fst mh_record;
           lv_objectguid := "00000000-0000-0000-0000-" +:+ format_012d (fst mh_record);
           lv_name := "Объект " +:+ str (fst mh_record);
           lv_typename :=
             synthesized_typename rt (head (parent_query (parent_path_of (snd mh_record)) src));
           lv_path_octets := snd mh_record |} ]
  end.

Definition reconciliation_writes (rt : Runtime) (self : GarConverter) (src : Source)
    (missing_ids : list string) : list locality_values :=
  concat (map (fun batch => concat (map (reconciled rt src) (mh_by_ids_query rt batch src)))
            (chunks (locality_batch_size self) missing_ids)).

Definition locality_first_pass (rt : Runtime) (self : GarConverter) (src : Source)
    : list locality_values :=
  concat (map (fun batch => locality_batch_writes rt batch src)
            (chunks (locality_batch_size self) (locality_ids_query (base_path self) src))).

Definition locality_stage_writes (rt : Runtime) (self : GarConverter) (src : Source)
    : list locality_values :=
  let first_pass := locality_first_pass rt self src in
  let processed_ids := map (fun v => str (lv_objectid v)) first_pass in
  let missing_ids := missing_of (locality_ids_query (base_path self) src) processed_ids in
  first_pass ++ reconciliation_writes rt self src missing_ids.

Definition street_stage_writes (rt : Runtime) (self : GarConverter) (src : Source)
    (t : Target) : list street_values :=
  let localities_map := id_map l_objectid l_id (rows (localities t)) in
  let locality_streets := group_streets (street_pairs_query (base_path self) src) in
  let all_streets := fst (flatten_groups rt localities_map locality_streets) in
  let all_locality_ids := snd (flatten_groups rt localities_map locality_streets) in
  concat (map (fun batch => street_batch_writes rt all_locality_ids batch src)
            (chunks (street_batch_size self) all_streets)).

Definition building_stage_writes (rt : Runtime) (self : GarConverter) (src : Source)
    (t : Target) : list building_values :=
  let streets_map := id_map s_objectid s_id (rows (streets t)) in
  let street_buildings := group_buildings streets_map (building_paths_query (base_path self) src) in
  let all_buildings := fst (flatten_groups rt streets_map street_buildings) in
  let all_street_ids := snd (flatten_groups rt streets_map street_buildings) in
  concat (map (fun batch => building_batch_writes rt all_street_ids batch src)
            (chunks (building_batch_size self) all_buildings)).

(** The three stages in sequence, each skipped when the one before it wrote
    nothing. *)
Definition conversion_writes (rt : Runtime) (self : GarConverter) (src : Source) (t : Target)
    : list locality_values * list street_values * list building_values :=
  match objects_query (base_path self) src with
  | [] => ([], [], [])
  | _ :: _ =>
      match locality_stage_writes rt self src with
      | [] => ([], [], [])
      | (_ :: _) as wl =>
          let t1 := executed insert_locality wl t in
          match street_stage_writes rt self src t1 with
          | [] => (wl, [], [])
          | (_ :: _) as ws =>
              (wl, ws, building_stage_writes rt self src (executed insert_street ws t1))
          end
      end
  end.

(** Batch sizes for which the chunking loop is defined. *)
Definition positive_batches (self : GarConverter) : Prop :=
  (0 < locality_batch_size self)%nat /\ (0 < street_batch_size self)%nat /\
  (0 < building_batch_size self)%nat.

(** [s] is in the set stored under [l] in a grouping dictionary. *)
Definition in_group (l s : string) (d : list (string * list string)) : Prop :=
  exists g, g ∈ d /\ fst g = l /\ s ∈ snd g.

(** A street id of the hierarchy scan whose locality is in the target. *)
Definition street_in_scope (self : GarConverter) (src : Source) (locality_objectids : list Z)
    (street_id : string) : Prop :=
  exists locality_id,
    (locality_id, street_id) ∈ street_pairs_query (base_path self) src /\
    locality_id ∈ map str locality_objectids.

(** A building id of the hierarchy scan whose street is in the target. *)
Definition building_in_scope (self : GarConverter) (src : Source) (street_objectids : list Z)
    (building_id : string) : Prop :=
  exists row,
    row ∈ building_paths_query (base_path self) src /\
    bp_building_id row = building_id /\
    bp_street_id row ∈ map str street_objectids.

(** The [objectid]s that the street stage, respectively the building stage,
    writes in a run without faults. *)
Definition street_key_written (rt : Runtime) (self : GarConverter) (src : Source)
    (locality_objectids : list Z) (k : Z) : Prop :=
  (exists id r, street_in_scope self src locality_objectids id /\
                r ∈ addr_obj_batch_query rt [id] src /\ OBJECTID r = k) /\
  street_in_scope self src locality_objectids (str k).

Definition building_key_written (rt : Runtime) (self : GarConverter) (src : Source)
    (street_objectids : list Z) (k : Z) : Prop :=
  (exists id r, building_in_scope self src street_objectids id /\
                r ∈ houses_batch_query rt [id] src /\ hr_OBJECTID r = k) /\
  building_in_scope self src street_objectids (str k).

(** The target after the writes of the three stages. *)
Definition converted (wl : list locality_values) (ws : list street_values)
    (wb : list building_values) (t : Target) : Target :=
  executed insert_building wb (executed insert_street ws (executed insert_locality wl t)).



(** A target row that carries the parameters of an [INSERT]. *)
Definition building_row_of (v : building_values) (row : building_row) : Prop :=
  b_objectid row = bv_objectid v /\ b_objectguid row = bv_objectguid v /\
  b_house_num row = Some (bv_house_num v) /\ b_add_num1 row = Some (bv_add_num1 v) /\
  b_add_num2 row = Some (bv_add_num2 v) /\ b_housetype row = bv_housetype v /\
  b_path_octets row = bv_path_octets v /\ b_street_id row = bv_street_id v.

Definition street_row_of (v : street_values) (row : street_row) : Prop :=
  s_objectid row = sv_objectid v /\ s_objectguid row = sv_objectguid v /\
  s_name row = sv_name v /\ s_typename row = sv_typename v /\
  s_path_octets row = sv_path_octets v /\ s_locality_id row = sv_locality_id v.

(** What a worker leaves behind: it executed its statement for all the
    parameter sets of its batch or, after a failure, for none; in a run
    without faults it executed all of them and reports their ids. *)
Definition worker_post (ff : bool) {V} (statement : V -> Target -> Target) (key : V -> Z)
    (W : list V) (t0 : Target) : list string -> unit -> Target -> Prop :=
  fun processed_ids _ t =>
    exists written,
      t = executed statement written t0 /\ (written = [] \/ written = W) /\
      (ff = true -> written = W /\ processed_ids = map (fun v => str (key v)) W).

(* ================================================================== *)
(** * A reference runtime and sample data *)
(* ================================================================== *)

(** [str.lower] on the UTF-8 encoding, for the Latin and Russian letters. *)
Fixpoint lower_utf8 (s : string) : string :=
  match s with
  | EmptyString => EmptyString
  | String c rest =>
      let n := nat_of_ascii c in
      if (65 <=? n)%nat && (n <=? 90)%nat
      then String (ascii_of_nat (n + 32)) (lower_utf8 rest)
      else if (n =? 208)%nat then
        match rest with
        | EmptyString => String c EmptyString
        | String c2 rest2 =>
            let m := nat_of_ascii c2 in
            if (144 <=? m)%nat && (m <=? 159)%nat
            then String c (String (ascii_of_nat (m + 32)) (lower_utf8 rest2))
            else if (160 <=? m)%nat && (m <=? 175)%nat
            then String (ascii_of_nat 209) (String (ascii_of_nat (m - 32)) (lower_utf8 rest2))
            else if (m =? 129)%nat
            then String (ascii_of_nat 209) (String (ascii_of_nat 145) (lower_utf8 rest2))
            else String c (String c2 (lower_utf8 rest2))
        end
      else String c (lower_utf8 rest)
  end.

(** Literals compared with an [INT] column as their decimal value, sets
    iterated in insertion order, futures completing in submission order. *)
Definition reference_runtime : Runtime :=
  {| sql_eq_num := fun n literal => String.eqb (str n) literal;
     str_lower := lower_utf8;
     set_iter := fun l => l;
     as_completed := fun futures => futures |}.

Module Sample.

Definition hierarchy_row (objectid : Z) (path : string) : mh_row :=
  {| mh_OBJECTID := objectid; mh_PATH := path; mh_ISACTIVE := 1 |}.

Definition object_row (objectid : Z) (name typename : string) : ao_row :=
  {| ao_OBJECTID := objectid; ao_OBJECTGUID := "guid-" +:+ str objectid;
     ao_NAME := name; ao_TYPENAME := typename; ao_ISACTUAL := 1; ao_ISACTIVE := 1 |}.

Definition house (objectid : Z) (housenum : option string) : house_row :=
  {| h_OBJECTID := objectid; h_OBJECTGUID := "guid-" +:+ str objectid;
     h_HOUSENUM := housenum; h_HOUSETYPE := None; h_ADDNUM1 := None;
     h_ADDNUM2 := Some "2"; h_ISACTUAL := 1; h_ISACTIVE := 1 |}.

(** Two localities with one street each and three buildings under the
    base path [1.2]. *)
Definition gar : Source :=
  {| mun_hierarchy :=
       [ hierarchy_row 1 "1"; hierarchy_row 2 "1.2";
         hierarchy_row 10 "1.2.10"; hierarchy_row 20 "1.2.10.20";
         hierarchy_row 30 "1.2.10.20.30"; hierarchy_row 31 "1.2.10.20.31";
         hierarchy_row 11 "1.2.11"; hierarchy_row 21 "1.2.11.21";
         hierarchy_row 32 "1.2.11.21.32" ];
     addr_obj :=
       [ object_row 1 "Приморский" "край"; object_row 2 "Артемовский" "г.о.";
         object_row 10 "Артем" "г"; object_row 11 "Заводской" "п";
         object_row 20 "Кирова" "ул"; object_row 21 "Лазо" "ул" ];
     houses := [ house 30 (Some "1"); house 31 None; house 32 (Some "7") ] |}.

(** The same hierarchy, without the records of the houses. *)
Definition gar_without_houses : Source :=
  {| mun_hierarchy := mun_hierarchy gar; addr_obj := addr_obj gar; houses := [] |}.


(** A hierarchy record without address object, under a parent without one. *)
Definition gar_orphan : Source :=
  {| mun_hierarchy := [ hierarchy_row 2 "1.2"; hierarchy_row 50 "1.2.50" ];
     addr_obj := [ object_row 1 "Приморский" "край" ];
     houses := [] |}.

(** A hierarchy record without address object, under a city. *)
Definition gar_orphan_city : Source :=
  {| mun_hierarchy := [ hierarchy_row 2 "1.2"; hierarchy_row 40 "1.2.40" ];
     addr_obj := [ object_row 2 "Артем" "Город" ];
     houses := [] |}.

Definition empty_target : Target :=
  {| localities := {| rows := []; next_id := 1 |};
     streets := {| rows := []; next_id := 1 |};
     buildings := {| rows := []; next_id := 1 |} |}.

Definition world (src : Source) (schedule : list fault) : World :=
  {| source := src; source_indexes := []; target := empty_target;
     faults := schedule; log := [] |}.

Definition converter : GarConverter := GarConverter_init (Some "1.2") 8.

(** A target that holds the locality 10 and nothing else. *)
Definition target_with_locality : Target :=
  {| localities :=
       {| rows := [ {| l_id := 1; l_objectid := 10; l_objectguid := "guid-10";
                       l_name := "Артем"; l_typename := "г";
                       l_path_octets := "1.2.10" |} ];
          next_id := 2 |};
     streets := {| rows := []; next_id := 1 |};
     buildings := {| rows := []; next_id := 1 |} |}.

End Sample.


(* ================================================================== *)
(** * The runner: schema, clean-up and [run_converter.main] *)
(* ================================================================== *)

(** ** Statements sent through [execute_query] by the runner

    The target of the model holds its three tables, so that
    [CREATE TABLE IF NOT EXISTS] finds each of them and leaves it as it
    is; whether a statement fails is decided by the schedule of faults. *)
Definition create_table_if_not_exists (table_name : string) : query unit :=
  fun w => (tt, w).

(** [SET FOREIGN_KEY_CHECKS = 0 | 1]: a setting of the session, no table
    changes. *)
Definition set_foreign_key_checks (value : Z) : query unit :=
  fun w => (tt, w).

(** A table after [TRUNCATE TABLE]: no rows, [AUTO_INCREMENT] back at 1. *)
Definition truncated {R} : table R := {| rows := []; next_id := 1 |}.

Definition truncate_buildings : query unit :=
  fun w => (tt, set_target {| localities := localities (target w);
                              streets := streets (target w);
                              buildings := truncated |} w).

Definition truncate_streets : query unit :=
  fun w => (tt, set_target {| localities := localities (target w);
                              streets := truncated;
                              buildings := buildings (target w) |} w).

Definition truncate_localities : query unit :=
  fun w => (tt, set_target {| localities := truncated;
                              streets := streets (target w);
                              buildings := buildings (target w) |} w).

(** ** [GarConverter.create_target_schema], [clear_target_db],
    [fill_dictionaries] *)

Definition create_target_schema : M bool :=
  try_except
    (execute_query (create_table_if_not_exists "localities") ;;;
     execute_query (create_table_if_not_exists "streets") ;;;
     execute_query (create_table_if_not_exists "buildings") ;;;
     print "Схема успешно создана в целевой БД" ;;;
     ret true)
    (fun e => print ("Ошибка при создании схемы: " +:+ exn_msg e) ;;; ret false).

Definition clear_target_db : M bool :=
  try_except
    (execute_query (set_foreign_key_checks 0) ;;;
     execute_query truncate_buildings ;;;
     execute_query truncate_streets ;;;
     execute_query truncate_localities ;;;
     execute_query (set_foreign_key_checks 1) ;;;
     print "Таблицы в целевой БД успешно очищены" ;;;
     ret true)
    (fun e => print ("Ошибка при очистке таблиц: " +:+ exn_msg e) ;;; ret false).




(** The target with its three tables truncated. *)
Definition cleared_target : Target :=
  {| localities := truncated; streets := truncated; buildings := truncated |}.

(* ================================================================== *)
(** * The progress line *)
(* ================================================================== *)







(* ================================================================== *)
(** * Further predicates used in the statements *)
(* ================================================================== *)

(** The two foreign keys of the target schema: every street refers to the
    [id] of a locality row and every building to the [id] of a street
    row. *)
Definition references_valid (t : Target) : Prop :=
  (forall street, street ∈ rows (streets t) ->
     s_locality_id street ∈ map l_id (rows (localities t))) /\
  (forall building, building ∈ rows (buildings t) ->
     b_street_id building ∈ map s_id (rows (streets t))).

(** A schedule of faults without an exception that [execute_query] lets
    through: every failure in it is a [SQLAlchemyError]. *)
Definition only_sql_errors (fs : list fault) : Prop :=
  Forall (fun f => match f with
                   | Succeeds => True
                   | Fails e => exists m, e = SQLAlchemyError m
                   end) fs.

(** A row of a table of the target with its generated [id] and its
    [objectid]. *)
Definition locality_identity (r : locality_row) : Z * Z := (l_id r, l_objectid r).
Definition street_identity (r : street_row) : Z * Z := (s_id r, s_objectid r).
Definition building_identity (r : building_row) : Z * Z := (b_id r, b_objectid r).

(** A locality row that carries the parameters of an [INSERT]. *)
Definition locality_row_of (v : locality_values) (row : locality_row) : Prop :=
  l_objectid row = lv_objectid v /\ l_objectguid row = lv_objectguid v /\
  l_name row = lv_name v /\ l_typename row = lv_typename v /\
  l_path_octets row = lv_path_octets v.

(** Among the first [n] round trips of a schedule, one raises an exception
    that [execute_query] lets through. *)
Fixpoint raises_within (n : nat) (fs : list fault) : bool :=
  match n, fs with
  | S n', Succeeds :: fs' => raises_within n' fs'
  | S n', Fails (SQLAlchemyError _) :: fs' => raises_within n' fs'
  | S n', Fails _ :: _ => true
  | _, _ => false
  end.

(** What the worker of a batch leaves behind, [W] being the parameter sets
    that the batch binds: it returns a list, the source is as it was, and
    the target has the statement executed for all of [W] or for none of
    it; without faults, for all of it, and the ids returned are theirs. *)
Definition atomic_batch {V} (statement : V -> Target -> Target) (key : V -> Z)
    (W : list V) (w : World) (r : outcome (list string) * World) : Prop :=
  (exists ids, fst r = Return ids) /\
  source (snd r) = source w /\
  (target (snd r) = target w \/ target (snd r) = executed statement W (target w)) /\
  (faults w = [] ->
   target (snd r) = executed statement W (target w) /\
   fst r = Return (map (fun v => str (key v)) W)).


(** Two worlds with the same tables and the same indexes. *)
Definition same_tables (w w' : World) : Prop :=
  source w' = source w /\ source_indexes w' = source_indexes w /\ target w' = target w.

(** A count that covers the writes: the target is [t0] with the statement
    executed for some parameter sets, no more of them than [n]. *)
Definition covers {V} (statement : V -> Target -> Target) (t0 : Target) (n : nat)
    (t : Target) : Prop :=
  exists written, t = executed statement written t0 /\ (length written <= n)%nat.


(* ================================================================== *)
(** * Path decoding *)
(* ================================================================== *)

Lemma split_not_nil d s : split d s <> [].
Proof. destruct s as [|c s]; simpl; [done|]. destruct (Ascii.eqb c d); [done|]. destruct (split d s); done. Qed.

Lemma split_length_count d s : length (split d s) = S (count_delim d s).
Proof.
  induction s as [|c s IH]; simpl; [done|].
  destruct (Ascii.eqb c d); simpl; [by rewrite IH|].
  destruct (split d s) eqn:E; simpl in *; [done|]. done.
Qed.

Lemma join_cons d x l : l <> [] -> join d (x :: l) = x +:+ d +:+ join d l.
Proof. destruct l; [done|]. done. Qed.

Lemma join_split d s : join (String d "") (split d s) = s.
Proof.
  induction s as [|c s IH]; simpl; [done|].
  destruct (Ascii.eqb_spec c d) as [->|Hne].
  - pose proof (split_not_nil d s). destruct (split d s) eqn:E; [done|].
    simpl in *. by rewrite IH.
  - pose proof (split_not_nil d s). destruct (split d s) as [|h t] eqn:E; [done|].
    destruct t; simpl in *; by rewrite <- IH.
Qed.

Lemma left_of_delim_split d s n :
  left_of_delim d s (S n) = join (String d "") (take (S n) (split d s)).
Proof.
  revert n. induction s as [|c s IH]; intros n; simpl; [by destruct n|].
  destruct (Ascii.eqb_spec c d) as [->|Hne].
  - destruct n as [|n]; simpl; [done|].
    rewrite IH. pose proof (split_not_nil d s).
    destruct (split d s) eqn:E; [done|]. simpl. done.
  - rewrite IH. pose proof (split_not_nil d s).
    destruct (split d s) as [|h t] eqn:E; [done|]. simpl.
    destruct (take n t); simpl; done.
Qed.

Lemma after_delim_split d s j :
  (j <= count_delim d s)%nat ->
  after_delim d s j = join (String d "") (drop j (split d s)).
Proof.
  revert j. induction s as [|c s IH]; intros j Hj.
  - simpl in Hj. assert (j = 0%nat) as -> by lia. done.
  - destruct j as [|j].
    { rewrite drop_0, join_split. done. }
    simpl in *. destruct (Ascii.eqb_spec c d) as [->|Hne].
    + rewrite IH by lia. done.
    + rewrite IH by lia.
      pose proof (split_not_nil d s). destruct (split d s) as [|h t] eqn:E; [done|].
      done.
Qed.

(** No element produced by [split] contains the separator. *)
Lemma split_no_delim d s : Forall (fun x => count_delim d x = 0%nat) (split d s).
Proof.
  induction s as [|c s IH]; simpl; [by repeat constructor|].
  destruct (Ascii.eqb_spec c d) as [->|Hne].
  - constructor; [done|done].
  - pose proof (split_not_nil d s). destruct (split d s) as [|h t] eqn:E; [done|].
    inversion IH; subst. constructor; [|done]. simpl.
    destruct (Ascii.eqb_spec c d); [done|]. done.
Qed.

Lemma split_app_delim d x s :
  count_delim d x = 0%nat -> split d (x +:+ String d s) = x :: split d s.
Proof.
  induction x as [|c x IH]; simpl; intros H.
  - by rewrite Ascii.eqb_refl.
  - destruct (Ascii.eqb_spec c d); [done|]. by rewrite IH.
Qed.

Lemma split_no_delim_id d x : count_delim d x = 0%nat -> split d x = [x].
Proof.
  induction x as [|c x IH]; simpl; intros H; [done|].
  destruct (Ascii.eqb_spec c d); [done|]. by rewrite IH.
Qed.

Lemma split_join d l :
  l <> [] -> Forall (fun x => count_delim d x = 0%nat) l ->
  split d (join (String d "") l) = l.
Proof.
  induction l as [|x l IH]; [done|]. intros _ Hall.
  inversion Hall as [|? ? Hx Hl]; subst.
  destruct l as [|y l].
  - simpl. by apply split_no_delim_id.
  - rewrite join_cons by done.
    change (String d "" +:+ ?z) with (String d z).
    rewrite split_app_delim by done. f_equal. by apply IH.
Qed.

Lemma right_of_delim_1 d s :
  Some (right_of_delim d s 1) = last (split d s).
Proof.
  unfold right_of_delim.
  destruct (Nat.ltb_spec (count_delim d s) 1).
  - assert (count_delim d s = 0%nat) by lia.
    rewrite split_no_delim_id by done. done.
  - replace (count_delim d s + 1 - 1)%nat with (count_delim d s) by lia.
    rewrite after_delim_split by lia.
    pose proof (split_length_count d s) as Hlen.
    pose proof (split_no_delim d s) as Hall.
    destruct (split d s) as [|x l] eqn:E using rev_ind; [done|].
    rewrite length_app in Hlen. simpl in Hlen.
    replace (count_delim d s) with (length l) by lia.
    rewrite drop_app_length. rewrite last_snoc. done.
Qed.

Lemma path_octet_last_take path n :
  (1 <= n)%nat ->
  Some (path_octet path (Z.of_nat n)) = last (take n (split "." path)).
Proof.
  intros Hn. unfold path_octet.
  destruct n as [|n]; [lia|].
  change (Z.of_nat (S n)) with (Zpos (Pos.of_succ_nat n)).
  unfold SUBSTRING_INDEX at 2. rewrite SuccNat2Pos.id_succ.
  rewrite left_of_delim_split.
  change (SUBSTRING_INDEX ?s "." (-1)) with (right_of_delim "." s 1).
  rewrite right_of_delim_1.
  rewrite split_join; [done| |].
  - pose proof (split_not_nil "." path). by destruct (split "." path).
  - apply Forall_take, split_no_delim.
Qed.

Lemma split_app d x s :
  split d (x +:+ String d s) = split d x ++ split d s.
Proof.
  induction x as [|c x IH]; simpl.
  - by rewrite Ascii.eqb_refl.
  - destruct (Ascii.eqb_spec c d); [by rewrite IH|].
    rewrite IH. pose proof (split_not_nil d x). by destruct (split d x).
Qed.

Lemma LIKE_any s : LIKE_chars ["%"%char] s = true.
Proof. induction s as [|c s IH]; [done|]. simpl in *. exact IH. Qed.

Lemma LIKE_chars_literal p pattern c s :
  p <> "%"%char ->
  LIKE_chars (p :: pattern) (String c s)
  = (Ascii.eqb p "_" || Ascii.eqb p c) && LIKE_chars pattern s.
Proof. intros Hp. simpl. by destruct (Ascii.eqb_spec p "%"). Qed.

Lemma LIKE_prefix base tail path :
  wildcard_free base ->
  LIKE_chars (list_ascii_of_string base ++ tail) path = true <->
  exists rest, path = base +:+ rest /\ LIKE_chars tail rest = true.
Proof.
  unfold wildcard_free. revert path.
  induction base as [|c base IH]; intros path Hwf; simpl in *.
  - split; [intros H; by exists path|]. by intros (rest & -> & H).
  - inversion Hwf as [|? ? [Hc1 Hc2] Hwf']; subst.
    destruct (Ascii.eqb_spec c "%"); [done|].
    destruct (Ascii.eqb_spec c "_"); [done|].
    destruct path as [|c' path]; simpl.
    + split; [done|]. by intros (rest & ? & _).
    + destruct (Ascii.eqb_spec c c') as [->|Hne]; simpl.
      * rewrite IH by done. split.
        -- intros (rest & -> & H). by exists rest.
        -- intros (rest & [= ->] & H). by exists rest.
      * split; [done|]. intros (rest & [= ? _] & _). done.
Qed.

Lemma LIKE_under base path :
  wildcard_free base ->
  LIKE path (base +:+ ".%") = true <-> exists rest, path = base +:+ "." +:+ rest.
Proof.
  intros Hwf. unfold LIKE.
  assert (list_ascii_of_string (base +:+ ".%")
          = list_ascii_of_string base ++ ["."%char; "%"%char]) as ->.
  { clear. induction base as [|c b IH]; simpl; [done|]. by rewrite IH. }
  rewrite LIKE_prefix by done. split.
  - intros (rest & -> & H). destruct rest as [|c rest]; [done|].
    rewrite LIKE_chars_literal in H by done.
    apply andb_true_iff in H as [H _].
    change (Ascii.eqb "." "_") with false in H.
    rewrite orb_false_l in H.
    apply Ascii.eqb_eq in H as <-. by exists rest.
  - intros (rest & ->). exists ("." +:+ rest). split; [done|].
    change ("." +:+ rest) with (String "." rest).
    rewrite LIKE_chars_literal by done. apply LIKE_any.
Qed.

(** C9 (as amended). Every path selected by the filter [LIKE 'basePath.%']
    of a wildcard-free base path is the base path, a dot and a remainder,
    and has as many octets beyond the base path as its octet count exceeds
    that of the base path; the octet expression of the stages yields the
    [n]-th octet of the dot-split path for [n] from 1 to the octet count;
    and for [n] beyond the octet count it yields the last octet: nothing
    fails. *)
Theorem path_decoding (base path : string) (n : nat) :
  (wildcard_free base -> LIKE path (base +:+ ".%") = true ->
   exists rest, path = base +:+ "." +:+ rest /\
     length (split "." path) = (length (split "." base) + length (split "." rest))%nat) /\
  ((1 <= n <= length (split "." path))%nat ->
   split "." path !! (n - 1)%nat = Some (path_octet path (Z.of_nat n))) /\
  ((length (split "." path) < n)%nat ->
   last (split "." path) = Some (path_octet path (Z.of_nat n))).
Proof.
  split; [|split].
  - intros Hwf Hlike. apply LIKE_under in Hlike as [rest ->]; [|done].
    exists rest. split; [done|].
    change ("." +:+ rest) with (String "." rest).
    by rewrite split_app, length_app.
  - intros Hn. rewrite path_octet_last_take by lia.
    rewrite last_lookup, length_take, lookup_take_lt by lia.
    f_equal. lia.
  - intros Hn. rewrite path_octet_last_take by lia.
    by rewrite take_ge by lia.
Qed.

Lemma path_decoding_witness :
  path_octet "1.2.3.4.5" 3 = "3" /\
  length (split "." "1.2.3.4.5") = (length (split "." "1.2") + 3)%nat.
Proof.
  destruct (path_decoding "1.2" "1.2.3.4.5" 3) as (Hdepth & Hoctet & _).
  split.
  - assert (1 <= 3 <= length (split "." "1.2.3.4.5"))%nat as Hn by (simpl; lia).
    specialize (Hoctet Hn). apply (inj Some).
    change (Some (path_octet "1.2.3.4.5" (Z.of_nat 3)) = Some "3").
    rewrite <- Hoctet. reflexivity.
  - destruct Hdepth as (rest & Hpath & Hlen); [|reflexivity|].
    + repeat constructor; discriminate.
    + rewrite Hlen. injection Hpath as Hrest.
      change ("" +:+ rest) with rest in Hrest. subst rest. reflexivity.
Defined.

(** The claim as stated fails: asked for the third octet of a path of two
    octets, the octet expression returns the second octet. *)
Lemma path_octet_beyond_length :
  (length (split "." "1.2") < 3)%nat /\ path_octet "1.2" 3 = "2".
Proof. split; [simpl; lia|reflexivity]. Qed.


(* ================================================================== *)
(** * Batch scheduling *)
(* ================================================================== *)

Lemma range_from_chunks {A} (l : list A) (batch_size fuel start : nat) :
  (0 < batch_size)%nat -> (length l - start <= fuel)%nat ->
  concat (map (fun i => slice l i (i + batch_size))
            (range_from fuel start (length l) batch_size)) = drop start l.
Proof.
  intros Hpos. revert start.
  induction fuel as [|fuel IH]; intros start Hfuel; simpl.
  - by rewrite drop_ge by lia.
  - destruct (Nat.ltb_spec start (length l)); simpl.
    + rewrite IH by lia. unfold slice.
      replace (start + batch_size - start)%nat with batch_size by lia.
      rewrite <- drop_drop. apply take_drop.
    + by rewrite drop_ge by lia.
Qed.


Lemma chunks_concat {A} (batch_size : nat) (l : list A) :
  (0 < batch_size)%nat -> concat (chunks batch_size l) = l.
Proof.
  intros Hpos. unfold chunks, range.
  rewrite range_from_chunks by lia. apply drop_0.
Qed.


Lemma py_in_elem_of (x : string) (l : list string) : py_in x l = true <-> x ∈ l.
Proof.
  unfold py_in. rewrite existsb_exists. split.
  - intros (y & Hy & Heq). apply String.eqb_eq in Heq as ->. by apply list_elem_of_In.
  - intros H. exists x. split; [by apply list_elem_of_In|apply String.eqb_refl].
Qed.



(** ** The pool and the collection loop *)




Lemma elem_of_concat {A} (x : A) (ls : list (list A)) :
  x ∈ concat ls <-> exists l, l ∈ ls /\ x ∈ l.
Proof.
  induction ls as [|l ls IH]; simpl.
  - split; [by intros ?%elem_of_nil|]. by intros (l & ?%elem_of_nil & _).
  - rewrite elem_of_app, IH. split.
    + intros [H|(l' & H1 & H2)]; [exists l|exists l']; split; try done; by constructor.
    + intros (l' & [->|H1]%elem_of_cons & H2); [by left|]. right. by exists l'.
Qed.

Lemma concat_Permutation {A} (ls ls' : list (list A)) :
  ls ≡ₚ ls' -> concat ls ≡ₚ concat ls'.
Proof.
  induction 1; simpl.
  - done.
  - by f_equiv.
  - rewrite !app_assoc. f_equiv. apply Permutation_app_comm.
  - by etrans.
Qed.


Lemma successes_Permutation {A} (l l' : list (outcome A)) :
  l ≡ₚ l' -> successes l ≡ₚ successes l'.
Proof. intros H. unfold successes. by apply omap_Permutation. Qed.

Lemma reference_runtime_fair : fair reference_runtime.
Proof. split; intros l; reflexivity. Qed.

Lemma init_positive_batches BASE_PATH max_workers :
  positive_batches (GarConverter_init BASE_PATH max_workers).
Proof. unfold positive_batches. simpl. lia. Qed.




(* ================================================================== *)
(** * Queries and retries *)
(* ================================================================== *)

Lemma execute_query_no_fault {L A} (q : query A) (l : L) (w : World) :
  faults w = [] ->
  execute_query q (l, w) = (Return (Some (fst (q w))), (l, snd (q w))).
Proof. intros H. unfold execute_query, try_except, bind, db_call. simpl. by rewrite H. Qed.

Lemma execute_query_succeeds {L A} (q : query A) (l : L) (w : World) fs :
  faults w = Succeeds :: fs ->
  execute_query q (l, w)
  = (Return (Some (fst (q (set_faults fs w)))), (l, snd (q (set_faults fs w)))).
Proof. intros H. unfold execute_query, try_except, bind, db_call. simpl. by rewrite H. Qed.

Lemma execute_query_sql_error {L A} (q : query A) (l : L) (w : World) m fs :
  faults w = Fails (SQLAlchemyError m) :: fs ->
  execute_query q (l, w)
  = (Return None,
     (l, add_log (Print ("Ошибка выполнения запроса: " +:+ m)) (set_faults fs w))).
Proof. intros H. unfold execute_query, try_except, bind, db_call. simpl. by rewrite H. Qed.


Lemma sleeps_cons_print m evs : sleeps (Print m :: evs) = sleeps evs.
Proof. done. Qed.

Lemma sleeps_cons_sleep n evs : sleeps (Sleep n :: evs) = n :: sleeps evs.
Proof. done. Qed.


Lemma execute_query_returns {L A} (q : query A) (l : L) (w : World) :
  next_attempt_returns (faults w) ->
  exists r w', execute_query q (l, w) = (Return r, (l, w')).
Proof.
  intros Hnext. destruct (faults w) as [|[|e] fs] eqn:Hf.
  - eexists _, _. by apply execute_query_no_fault.
  - eexists _, _. by apply execute_query_succeeds.
  - destruct e as [m|m|m].
    + eexists _, _. by apply execute_query_sql_error.
    + destruct (Hnext _ _ eq_refl). by intros ?.
    + destruct (Hnext _ _ eq_refl). by intros ?.
Qed.


Lemma execute_with_retry_sql_error {L A} (q : query A) (l : L) (w : World) m fs :
  faults w = Fails (SQLAlchemyError m) :: fs ->
  execute_with_retry q (l, w)
  = (Return None,
     (l, add_log (Print ("Ошибка выполнения запроса: " +:+ m)) (set_faults fs w))).
Proof.
  intros H. unfold execute_with_retry, execute_with_retry_n. simpl.
  unfold try_except. by rewrite (execute_query_sql_error q l w m fs).
Qed.

Lemma execute_with_retry_no_fault {L A} (q : query A) (l : L) (w : World) :
  faults w = [] ->
  execute_with_retry q (l, w) = (Return (Some (fst (q w))), (l, snd (q w))).
Proof.
  intros H. unfold execute_with_retry, execute_with_retry_n. simpl.
  unfold try_except. by rewrite execute_query_no_fault.
Qed.




(* ================================================================== *)
(** * Rules for specifications *)
(* ================================================================== *)

Section Rules.

Context (ff : bool) (S0 : Source).

Lemma triple_conseq {L A} (P P' : L -> Target -> Prop) (m : ST L A)
    (Q Q' : A -> L -> Target -> Prop) (E E' : L -> Target -> Prop) :
  triple ff S0 P' m Q' E' ->
  (forall l t, P l t -> P' l t) ->
  (forall a l t, Q' a l t -> Q a l t) ->
  (forall l t, E' l t -> E l t) ->
  triple ff S0 P m Q E.
Proof.
  intros H HP HQ HE l w Hs Hf Hp. specialize (H l w Hs Hf (HP _ _ Hp)).
  destruct (m (l, w)) as [[a|e] s'].
  - destruct H as (? & ? & ?). auto.
  - destruct H as (? & ? & ?). auto.
Qed.

Ltac ff_false Hf :=
  match goal with
  | |- ?b = false =>
      destruct (decide (b = true)) as [Hff|Hff];
      [specialize (Hf Hff); congruence|by apply not_true_is_false]
  end.

Lemma triple_ret {L A} (P : L -> Target -> Prop) (a : A) Q E :
  (forall l t, P l t -> Q a l t) -> triple ff S0 P (ret a) Q E.
Proof. intros H l w Hs Hf Hp. simpl. auto. Qed.

Lemma triple_bind {L A B} (P : L -> Target -> Prop) (m : ST L A) (k : A -> ST L B)
    (R : A -> L -> Target -> Prop) Q E :
  triple ff S0 P m R E ->
  (forall a, triple ff S0 (R a) (k a) Q E) ->
  triple ff S0 P (bind m k) Q E.
Proof.
  intros Hm Hk l w Hs Hf Hp. unfold bind. specialize (Hm l w Hs Hf Hp).
  destruct (m (l, w)) as [[a|e] [l' w']]; simpl in *; [|done].
  destruct Hm as (Hs' & Hf' & Hr). exact (Hk a l' w' Hs' Hf' Hr).
Qed.

Lemma triple_raise {L A} (P : L -> Target -> Prop) (e : exn) (Q : A -> L -> Target -> Prop) E :
  ff = false -> (forall l t, P l t -> E l t) -> triple ff S0 P (raise e) Q E.
Proof. intros Hff H l w Hs Hf Hp. simpl. auto. Qed.

Lemma triple_try {L A} (P : L -> Target -> Prop) (m : ST L A) (h : exn -> ST L A)
    Q (E' E : L -> Target -> Prop) :
  triple ff S0 P m Q E' ->
  (forall e, ff = false -> triple ff S0 E' (h e) Q E) ->
  triple ff S0 P (try_except m h) Q E.
Proof.
  intros Hm Hh l w Hs Hf Hp. unfold try_except. specialize (Hm l w Hs Hf Hp).
  destruct (m (l, w)) as [[a|e] [l' w']]; simpl in *; [done|].
  destruct Hm as (Hs' & Hff & He). apply (Hh e Hff l' w' Hs'); [|done].
  intros ?; congruence.
Qed.

Lemma triple_false {L A} (m : ST L A) Q E :
  triple ff S0 (fun _ _ => False) m Q E.
Proof. intros l w _ _ []. Qed.

Lemma triple_pure {L A} (P : L -> Target -> Prop) (phi : Prop) (m : ST L A) Q E :
  (phi -> triple ff S0 P m Q E) ->
  triple ff S0 (fun l t => phi /\ P l t) m Q E.
Proof. intros H l w Hs Hf [Hphi Hp]. by apply H. Qed.

Lemma triple_pure_r {L A} (P : L -> Target -> Prop) (phi : Prop) (m : ST L A) Q E :
  (phi -> triple ff S0 P m Q E) ->
  triple ff S0 (fun l t => P l t /\ phi) m Q E.
Proof. intros H l w Hs Hf [Hp Hphi]. by apply H. Qed.

Lemma triple_exists {L A X} (P : X -> L -> Target -> Prop) (m : ST L A) Q E :
  (forall x, triple ff S0 (P x) m Q E) ->
  triple ff S0 (fun l t => exists x, P x l t) m Q E.
Proof. intros H l w Hs Hf [x Hp]. by apply (H x). Qed.

Lemma triple_emit {L} (P : L -> Target -> Prop) ev E :
  triple ff S0 P (emit ev) (fun _ => P) E.
Proof. intros l w Hs Hf Hp. simpl. auto. Qed.

Lemma triple_print {L} (P : L -> Target -> Prop) msg E :
  triple ff S0 P (print msg) (fun _ => P) E.
Proof. apply triple_emit. Qed.

Lemma triple_get_local {L} (P : L -> Target -> Prop) E :
  triple ff S0 P get_local (fun a l t => a = l /\ P l t) E.
Proof. intros l w Hs Hf Hp. simpl. auto. Qed.

Lemma triple_set_local {L} (P : L -> Target -> Prop) (l' : L) Q E :
  (forall l t, P l t -> Q tt l' t) -> triple ff S0 P (set_local l') Q E.
Proof. intros H l w Hs Hf Hp. simpl. eauto. Qed.

Lemma triple_db_call {L} (P : L -> Target -> Prop) :
  triple ff S0 P db_call (fun _ => P) P.
Proof.
  intros l w Hs Hf Hp. unfold db_call. simpl.
  destruct (faults w) as [|[|e] fs] eqn:Hfs; simpl.
  - auto.
  - split; [done|]. split; [|done]. intros Hff. specialize (Hf Hff). congruence.
  - split; [done|]. split; [|done]. ff_false Hf.
Qed.

Lemma triple_connection_execute {L} (P : L -> Target -> Prop) (effect : Target -> Target) :
  triple ff S0 P (connection_execute effect)
    (fun _ l t => exists t0, P l t0 /\ t = effect t0) P.
Proof.
  unfold connection_execute.
  eapply triple_bind; [apply triple_db_call|]. intros ?.
  intros l w Hs Hf Hp. simpl. split; [done|]. split; [done|]. eauto.
Qed.

Lemma triple_execute_query {L A} (P : L -> Target -> Prop) (q : query A) R :
  query_spec q R ->
  triple ff S0 P (execute_query q)
    (fun r l t => P l t /\ ((exists a, r = Some a /\ R a S0 t) \/ (ff = false /\ r = None))) P.
Proof.
  intros Hq l w Hs Hf Hp. unfold execute_query, try_except, bind, db_call. simpl.
  destruct (faults w) as [|[|e] fs] eqn:Hfs; simpl.
  - destruct (Hq w) as (H1 & H2 & H3 & H4).
    rewrite H1, H2, H3, Hfs. split; [done|]. split; [done|]. split; [done|].
    left. eexists. split; [done|]. by rewrite <- Hs.
  - assert (ff = false) as Hff by (ff_false Hf).
    destruct (Hq (set_faults fs w)) as (H1 & H2 & H3 & H4).
    rewrite H1, H2. simpl. split; [done|]. split; [intros ?; congruence|].
    split; [done|]. left. eexists. split; [done|]. by rewrite <- Hs.
  - assert (ff = false) as Hff by (ff_false Hf).
    destruct e; simpl; (split; [done|]); (split; [done || (intros ?; congruence)|]); auto.
Qed.

Lemma triple_retry_loop {L A} (P : L -> Target -> Prop) (q : query A) R
    (max_retries retries fuel : nat) :
  query_spec q R -> (retries < max_retries)%nat -> (0 < fuel)%nat ->
  triple ff S0 P (retry_loop q max_retries retries fuel)
    (fun r l t => P l t /\ ((exists a, r = Some a /\ R a S0 t) \/ (ff = false /\ r = None))) P.
Proof.
  intros Hq. revert retries. induction fuel as [|fuel IH]; intros retries Hr Hfuel; [lia|].
  simpl. destruct (Nat.ltb_spec retries max_retries); [|lia].
  eapply triple_try; [by apply triple_execute_query|].
  intros e Hff. eapply triple_bind; [apply triple_print|]. intros ?.
  destruct (Nat.leb_spec max_retries (S retries)).
  - by apply triple_raise.
  - eapply triple_bind; [apply triple_emit|]. intros ?.
    destruct fuel as [|fuel'].
    + simpl. apply triple_ret. intros l t Hp. split; [done|]. by right.
    + apply IH; lia.
Qed.

Lemma triple_execute_with_retry {L A} (P : L -> Target -> Prop) (q : query A) R :
  query_spec q R ->
  triple ff S0 P (execute_with_retry q)
    (fun r l t => P l t /\ ((exists a, r = Some a /\ R a S0 t) \/ (ff = false /\ r = None))) P.
Proof. intros Hq. apply triple_retry_loop; [done|lia|lia]. Qed.

Lemma triple_for_each {L A} (I : list A -> L -> Target -> Prop) (l : list A)
    (body : A -> ST L unit) E :
  (forall done x todo, l = done ++ x :: todo ->
     triple ff S0 (I done) (body x) (fun _ => I (done ++ [x])) E) ->
  triple ff S0 (I []) (for_each l body) (fun _ => I l) E.
Proof.
  intros H.
  assert (forall todo done, l = done ++ todo ->
            triple ff S0 (I done) (for_each todo body) (fun _ => I l) E) as Hgen.
  { induction todo as [|x todo IH]; intros done Heq; simpl.
    - rewrite app_nil_r in Heq. subst. by apply triple_ret.
    - eapply triple_bind; [by eapply H|]. intros ?.
      apply IH. by rewrite <- app_assoc. }
  by apply (Hgen l []).
Qed.

Lemma triple_fold_each {L A B} (I : list A -> B -> L -> Target -> Prop) (l : list A)
    (init : B) (body : B -> A -> ST L B) E :
  (forall done x todo acc, l = done ++ x :: todo ->
     triple ff S0 (I done acc) (body acc x) (fun acc' => I (done ++ [x]) acc') E) ->
  triple ff S0 (I [] init) (fold_each l init body) (fun acc => I l acc) E.
Proof.
  intros H.
  assert (forall todo done acc, l = done ++ todo ->
            triple ff S0 (I done acc) (fold_each todo acc body) (fun acc' => I l acc') E) as Hgen.
  { induction todo as [|x todo IH]; intros done acc Heq; simpl.
    - rewrite app_nil_r in Heq. subst. by apply triple_ret.
    - eapply triple_bind; [by eapply H|]. intros acc'.
      apply IH. by rewrite <- app_assoc. }
  by apply (Hgen l [] init).
Qed.

Lemma triple_begin {L A} (P : L -> Target -> Prop) (body : ST L A) Q E :
  (forall t0, triple ff S0 (fun l t => P l t /\ t = t0) body
                (fun a l t => Q a l t /\ E l t0) (fun l _ => E l t0)) ->
  (forall l t, P l t -> E l t) ->
  triple ff S0 P (begin body) Q E.
Proof.
  intros Hbody HPE l w Hs Hf Hp. unfold begin.
  pose proof (triple_db_call (fun l' t' => l' = l /\ t' = target w) l w Hs Hf (conj eq_refl eq_refl)) as H1.
  destruct (db_call (l, w)) as [[[]|e] [l1 w1]]; simpl in *.
  - destruct H1 as (Hs1 & Hf1 & -> & Ht1).
    assert (P l (target w1)) as Hp1 by (by rewrite Ht1).
    specialize (Hbody (target w) l w1 Hs1 Hf1 (conj Hp1 Ht1)).
    destruct (body (l, w1)) as [[a|e] [l2 w2]]; simpl in *.
    + destruct Hbody as (Hs2 & Hf2 & Hq & He).
      pose proof (triple_db_call (fun l' t' => l' = l2 /\ t' = target w2) l2 w2 Hs2 Hf2
                    (conj eq_refl eq_refl)) as H3.
      destruct (db_call (l2, w2)) as [[[]|e] [l3 w3]]; simpl in *.
      * destruct H3 as (Hs3 & Hf3 & -> & ->). done.
      * destruct H3 as (Hs3 & Hff & -> & Ht3). done.
    + destruct Hbody as (Hs2 & Hff & He). done.
  - destruct H1 as (Hs1 & Hff & -> & ->). split; [done|]. split; [done|]. by apply HPE.
Qed.

Lemma triple_with_local {L L' A} (init : L) (P : L -> Target -> Prop) (m : ST L A) Q E :
  triple ff S0 P m Q E ->
  triple ff S0 (L:=L') (fun _ t => P init t) (with_local init m)
    (fun a _ t => exists l, Q a l t) (fun _ t => exists l, E l t).
Proof.
  intros H l' w Hs Hf Hp. unfold with_local. simpl.
  specialize (H init w Hs Hf Hp).
  destruct (m (init, w)) as [[a|e] [l w']]; simpl in *.
  - destruct H as (? & ? & ?). eauto.
  - destruct H as (? & ? & ?). eauto.
Qed.

(** ** Derived forms

    The rules ending in [_sp] give the strongest postcondition of a step
    that is followed by others; those ending in [_wp] close a sequence
    against a given postcondition. *)

Lemma triple_weaken_exn {L A} (P : L -> Target -> Prop) (m : ST L A) Q (E E' : L -> Target -> Prop) :
  triple ff S0 P m Q E' -> (forall l t, E' l t -> E l t) -> triple ff S0 P m Q E.
Proof. intros H HE. eapply triple_conseq; [exact H|auto|auto|auto]. Qed.

Lemma triple_post {L A} (P : L -> Target -> Prop) (m : ST L A) (Q Q' : A -> L -> Target -> Prop) E :
  triple ff S0 P m Q' E -> (forall a l t, Q' a l t -> Q a l t) -> triple ff S0 P m Q E.
Proof. intros H HQ. eapply triple_conseq; [exact H|auto|auto|auto]. Qed.

Lemma triple_pre {L A} (P P' : L -> Target -> Prop) (m : ST L A) Q E :
  triple ff S0 P' m Q E -> (forall l t, P l t -> P' l t) -> triple ff S0 P m Q E.
Proof. intros H HP. eapply triple_conseq; [exact H|auto|auto|auto]. Qed.

Lemma triple_print_wp {L} (P : L -> Target -> Prop) msg Q E :
  (forall l t, P l t -> Q tt l t) -> triple ff S0 P (print msg) Q E.
Proof. intros H. eapply triple_post; [apply triple_print|]. by intros []. Qed.

Lemma triple_get_local_wp {L} (P : L -> Target -> Prop) Q E :
  (forall l t, P l t -> Q l l t) -> triple ff S0 P get_local Q E.
Proof. intros H. eapply triple_post; [apply triple_get_local|]. intros a l t [-> Hp]. auto. Qed.

Lemma triple_db_call_sp {L} (P : L -> Target -> Prop) E :
  (forall l t, P l t -> E l t) -> triple ff S0 P db_call (fun _ => P) E.
Proof. intros H. eapply triple_weaken_exn; [apply triple_db_call|done]. Qed.

Lemma triple_connection_execute_sp {L} (P : L -> Target -> Prop) effect E :
  (forall l t, P l t -> E l t) ->
  triple ff S0 P (connection_execute effect)
    (fun _ l t => exists t0, P l t0 /\ t = effect t0) E.
Proof. intros H. eapply triple_weaken_exn; [apply triple_connection_execute|done]. Qed.

Lemma triple_connection_execute_wp {L} (P : L -> Target -> Prop) effect Q E :
  (forall l t, P l t -> Q tt l (effect t)) -> (forall l t, P l t -> E l t) ->
  triple ff S0 P (connection_execute effect) Q E.
Proof.
  intros HQ HE. eapply triple_post; [by apply triple_connection_execute_sp|].
  intros [] l t (t0 & Hp & ->). auto.
Qed.

Lemma triple_source_query_sp {L A} (P : L -> Target -> Prop) (f : Source -> A) E :
  (forall l t, P l t -> E l t) ->
  triple ff S0 P (execute_with_retry (source_query f))
    (fun r l t => (r = Some (f S0) \/ (ff = false /\ r = None)) /\ P l t) E.
Proof.
  intros HE. eapply triple_conseq.
  - apply (triple_execute_with_retry P (source_query f) (fun a S _ => a = f S)).
    intros w. done.
  - done.
  - intros r l t [Hp [(a & -> & ->)|H]]; auto.
  - done.
Qed.

Lemma triple_target_query_sp {L A} (P : L -> Target -> Prop) (f : Target -> A) E :
  (forall l t, P l t -> E l t) ->
  triple ff S0 P (execute_with_retry (target_query f))
    (fun r l t => (r = Some (f t) \/ (ff = false /\ r = None)) /\ P l t) E.
Proof.
  intros HE. eapply triple_conseq.
  - apply (triple_execute_with_retry P (target_query f) (fun a _ t => a = f t)).
    intros w. done.
  - done.
  - intros r l t [Hp [(a & -> & ->)|H]]; auto.
  - done.
Qed.

Lemma triple_for_each_wp {L A} (I : list A -> L -> Target -> Prop) (xs : list A)
    (body : A -> ST L unit) (P : L -> Target -> Prop) Q E :
  (forall l t, P l t -> I [] l t) ->
  (forall done x todo, xs = done ++ x :: todo ->
     triple ff S0 (I done) (body x) (fun _ => I (done ++ [x])) E) ->
  (forall l t, I xs l t -> Q tt l t) ->
  triple ff S0 P (for_each xs body) Q E.
Proof.
  intros HP Hbody HQ.
  eapply triple_pre; [eapply triple_post; [by apply (triple_for_each I)|]|done].
  by intros [].
Qed.

Lemma triple_fold_each_wp {L A B} (I : list A -> B -> L -> Target -> Prop) (xs : list A)
    (init : B) (body : B -> A -> ST L B) (P : L -> Target -> Prop) Q E :
  (forall l t, P l t -> I [] init l t) ->
  (forall done x todo acc, xs = done ++ x :: todo ->
     triple ff S0 (I done acc) (body acc x) (fun acc' => I (done ++ [x]) acc') E) ->
  (forall acc l t, I xs acc l t -> Q acc l t) ->
  triple ff S0 P (fold_each xs init body) Q E.
Proof.
  intros HP Hbody HQ.
  eapply triple_pre; [eapply triple_post; [by apply (triple_fold_each I)|]|done].
  done.
Qed.

(** Case analysis on the mode in which a specification is read. *)
Lemma triple_mode {L A} (P : L -> Target -> Prop) (m : ST L A) Q E :
  (ff = true -> triple ff S0 P m Q E) ->
  (ff = false -> triple ff S0 P m Q E) ->
  triple ff S0 P m Q E.
Proof.
  intros Ht Hf. destruct (decide (ff = true)) as [H|H]; [auto|].
  apply Hf. by apply not_true_is_false.
Qed.

End Rules.


(* ================================================================== *)
(** * Upserts *)
(* ================================================================== *)

Section Upsert.

Context {R : Type} (key : R -> Z) (k : Z) (fresh : Z -> R) (update : R -> R).
Hypothesis key_fresh : forall i, key (fresh i) = k.
Hypothesis key_update : forall r, key (update r) = key r.

Lemma existsb_key (l : list R) :
  existsb (fun r => (key r =? k)%Z) l = true <-> k ∈ map key l.
Proof.
  rewrite existsb_exists, list_elem_of_fmap. split.
  - intros (r & Hin & Heq). apply Z.eqb_eq in Heq. exists r. split; [done|].
    by apply list_elem_of_In.
  - intros (r & Heq & Hin). exists r. split; [by apply list_elem_of_In|].
    apply Z.eqb_eq. done.
Qed.

Lemma upsert_keys (t : table R) :
  map key (rows (upsert key k fresh update t))
  = if decide (k ∈ map key (rows t)) then map key (rows t) else map key (rows t) ++ [k].
Proof.
  unfold upsert. destruct (existsb _ (rows t)) eqn:E.
  - apply existsb_key in E. rewrite decide_True by done. simpl.
    rewrite map_map. apply map_ext. intros r. destruct (key r =? k)%Z; [apply key_update|done].
  - rewrite decide_False.
    + simpl. rewrite map_app. simpl. by rewrite key_fresh.
    + intros Hin. apply existsb_key in Hin. congruence.
Qed.

Lemma upsert_rows (t : table R) (r : R) :
  r ∈ rows (upsert key k fresh update t) ->
  r ∈ rows t \/ r = fresh (next_id t) \/ exists r0, r0 ∈ rows t /\ key r0 = k /\ r = update r0.
Proof.
  unfold upsert. destruct (existsb _ (rows t)); simpl.
  - intros Hin. apply list_elem_of_fmap in Hin as (r0 & -> & Hin).
    destruct (Z.eqb_spec (key r0) k); [|by left]. right. right. by exists r0.
  - intros [Hin|Hin%list_elem_of_singleton]%elem_of_app; [by left|]. right. by left.
Qed.

End Upsert.

Lemma insert_locality_keys v t :
  locality_keys (insert_locality v t)
  = (if decide (lv_objectid v ∈ locality_keys t) then locality_keys t
     else locality_keys t ++ [lv_objectid v]) /\
  street_keys (insert_locality v t) = street_keys t /\
  building_keys (insert_locality v t) = building_keys t.
Proof.
  split; [|done]. unfold locality_keys, insert_locality, upsert_locality. simpl.
  by apply upsert_keys.
Qed.

Lemma insert_street_keys v t :
  street_keys (insert_street v t)
  = (if decide (sv_objectid v ∈ street_keys t) then street_keys t
     else street_keys t ++ [sv_objectid v]) /\
  locality_keys (insert_street v t) = locality_keys t /\
  building_keys (insert_street v t) = building_keys t.
Proof.
  split; [|done]. unfold street_keys, insert_street, upsert_street. simpl.
  by apply upsert_keys.
Qed.

Lemma insert_building_keys v t :
  building_keys (insert_building v t)
  = (if decide (bv_objectid v ∈ building_keys t) then building_keys t
     else building_keys t ++ [bv_objectid v]) /\
  locality_keys (insert_building v t) = locality_keys t /\
  street_keys (insert_building v t) = street_keys t.
Proof.
  split; [|done]. unfold building_keys, insert_building, upsert_building. simpl.
  by apply upsert_keys.
Qed.

(** ** Sequences of executions of one statement *)

Section Executed.

Context {V : Type} (statement : V -> Target -> Target).

Lemma executed_nil t : executed statement [] t = t.
Proof. done. Qed.

Lemma executed_app vs vs' t :
  executed statement (vs ++ vs') t = executed statement vs' (executed statement vs t).
Proof. unfold executed. apply foldl_app. Qed.

Lemma executed_snoc vs v t :
  executed statement (vs ++ [v]) t = statement v (executed statement vs t).
Proof. by rewrite executed_app. Qed.

(** A table column that the statement extends by the key of its
    parameters when the key is new, and leaves alone otherwise. *)
Context (col : Target -> list Z) (key : V -> Z).
Hypothesis statement_col : forall v t,
  col (statement v t) = if decide (key v ∈ col t) then col t else col t ++ [key v].

Lemma executed_NoDup vs t : NoDup (col t) -> NoDup (col (executed statement vs t)).
Proof.
  revert t. induction vs as [|v vs IH]; intros t Hnd; [done|]. simpl.
  apply IH. rewrite statement_col. case_decide; [done|].
  apply NoDup_app. split; [done|]. split; [|apply NoDup_singleton].
  intros x Hx ->%list_elem_of_singleton. done.
Qed.

Lemma executed_col vs t x :
  x ∈ col (executed statement vs t) <-> x ∈ col t \/ x ∈ map key vs.
Proof.
  revert t. induction vs as [|v vs IH]; intros t; simpl.
  - split; [by left|]. intros [?|H]; [done|]. by apply elem_of_nil in H.
  - rewrite IH, statement_col, elem_of_cons. case_decide.
    + split; [intros [?|?]; auto|]. intros [?|[->|?]]; auto.
    + rewrite elem_of_app, list_elem_of_singleton. tauto.
Qed.

Lemma executed_col_known vs t :
  Forall (fun v => key v ∈ col t) vs -> col (executed statement vs t) = col t.
Proof.
  revert t. induction vs as [|v vs IH]; intros t Hall; [done|]. simpl.
  inversion Hall as [|? ? Hv Hvs]; subst.
  assert (col (statement v t) = col t) as Heq.
  { rewrite statement_col. by rewrite decide_True. }
  rewrite IH; [done|]. by rewrite Heq.
Qed.

(** A column the statement never touches. *)
Context (other : Target -> list Z).
Hypothesis statement_other : forall v t, other (statement v t) = other t.

Lemma executed_other vs t : other (executed statement vs t) = other t.
Proof.
  revert t. induction vs as [|v vs IH]; intros t; [done|]. simpl.
  by rewrite IH, statement_other.
Qed.

End Executed.


(* ================================================================== *)
(** * Specifications of the workers *)
(* ================================================================== *)

Section Workers.

Context (ff : bool) (S0 : Source) (rt : Runtime).

(** What [fetchall] yields, given what the statement selects: the selection,
    or nothing after a database error. *)
Lemma fetchall_cases {A} (result : option (list A)) (selected : list A) :
  result = Some selected \/ (ff = false /\ result = None) ->
  fetchall result = selected \/ (ff = false /\ fetchall result = []).
Proof. intros [->|[? ->]]; auto. Qed.

Lemma locality_batch_spec (batch : list string) (batch_idx total_batches : nat) (t0 : Target) :
  triple ff S0 (fun _ t => t = t0)
    (_process_locality_batch rt batch batch_idx total_batches)
    (worker_post ff insert_locality lv_objectid (locality_batch_writes rt batch S0) t0)
    (fun _ _ => False).
Proof.
  unfold _process_locality_batch, worker_post.
  eapply triple_conseq;
    [apply (triple_with_local ff S0 ([] : list string)
              (fun l t => l = [] /\ t = t0) _
              (fun processed_ids l t =>
                 exists written,
                   t = executed insert_locality written t0 /\
                   (written = [] \/ written = locality_batch_writes rt batch S0) /\
                   (ff = true ->
                    written = locality_batch_writes rt batch S0 /\
                    processed_ids = map (fun v => str (lv_objectid v))
                                      (locality_batch_writes rt batch S0)))
              (fun _ _ => False))
    | by intros | by intros ? ? ? [? ?] | by intros ? ? [? ?] ].
  eapply triple_bind with
    (R := fun _ l t =>
            exists written,
              t = executed insert_locality written t0 /\
              (written = [] \/ written = locality_batch_writes rt batch S0) /\
              (ff = true ->
               written = locality_batch_writes rt batch S0 /\
               l = map (fun v => str (lv_objectid v)) (locality_batch_writes rt batch S0)));
    [|intros ?; by apply triple_get_local_wp].
  eapply triple_try with (E' := fun _ t => t = t0).
  2: { intros e Hff. apply triple_print_wp.
       intros l t ->. exists []. split; [done|]. split; [by left|].
       intros ?; congruence. }
  eapply triple_bind; [by apply triple_source_query_sp; intros ? ? [_ ->]|].
  intros result. apply triple_pure. intros Hres%fetchall_cases.
  apply triple_begin; [|by intros l t [_ ->]].
  intros t1.
  apply triple_pre with (P' := fun l t => t1 = t0 /\ (l = [] /\ t = t0));
    [|by intros l t [[-> ->] ->]].
  apply triple_pure. intros ->.
  apply (triple_for_each_wp ff S0
           (fun done l t => l = map (fun r => str (OBJECTID r)) done /\
                            t = executed insert_locality (map locality_params done) t0)).
  - by intros l t [-> ->].
  - intros done x todo Heq.
    eapply triple_bind; [by apply triple_connection_execute_sp|]. intros ?.
    eapply triple_bind; [apply triple_get_local|]. intros processed_ids.
    apply triple_set_local.
    intros l t (-> & t' & [-> ->] & ->). split.
    + by rewrite map_app.
    + rewrite map_app. simpl. by rewrite executed_snoc.
  - intros l t [-> ->]. split; [|done].
    exists (map locality_params (fetchall result)). split; [done|].
    unfold locality_batch_writes. split.
    + destruct Hres as [->|[_ ->]]; [by right|by left].
    + intros Hff. destruct Hres as [->|[? _]]; [|congruence].
      split; [done|]. by rewrite map_map.
Qed.

Lemma street_batch_spec (batch : list string) (locality_ids : gmap string Z)
    (batch_idx total_batches : nat) (t0 : Target) :
  triple ff S0 (fun _ t => t = t0)
    (_process_street_batch rt batch locality_ids batch_idx total_batches)
    (worker_post ff insert_street sv_objectid (street_batch_writes rt locality_ids batch S0) t0)
    (fun _ _ => False).
Proof.
  unfold _process_street_batch, worker_post.
  set (W := street_batch_writes rt locality_ids batch S0).
  set (writes := fun rows : list named_row =>
         omap (fun street => street_params street <$> locality_ids !! str (OBJECTID street)) rows).
  eapply triple_conseq;
    [apply (triple_with_local ff S0 ([] : list string)
              (fun l t => l = [] /\ t = t0) _
              (fun processed_ids l t =>
                 exists written,
                   t = executed insert_street written t0 /\
                   (written = [] \/ written = W) /\
                   (ff = true ->
                    written = W /\ processed_ids = map (fun v => str (sv_objectid v)) W))
              (fun _ _ => False))
    | by intros | by intros ? ? ? [? ?] | by intros ? ? [? ?] ].
  eapply triple_bind with
    (R := fun _ l t =>
            exists written,
              t = executed insert_street written t0 /\
              (written = [] \/ written = W) /\
              (ff = true -> written = W /\ l = map (fun v => str (sv_objectid v)) W));
    [|intros ?; by apply triple_get_local_wp].
  eapply triple_try with (E' := fun _ t => t = t0).
  2: { intros e Hff. apply triple_print_wp.
       intros l t ->. exists []. split; [done|]. split; [by left|].
       intros ?; congruence. }
  eapply triple_bind; [by apply triple_source_query_sp; intros ? ? [_ ->]|].
  intros result. apply triple_pure. intros Hres%fetchall_cases.
  apply triple_begin; [|by intros l t [_ ->]].
  intros t1.
  apply triple_pre with (P' := fun l t => t1 = t0 /\ (l = [] /\ t = t0));
    [|by intros l t [[-> ->] ->]].
  apply triple_pure. intros ->.
  apply (triple_for_each_wp ff S0
           (fun done l t => l = map (fun v => str (sv_objectid v)) (writes done) /\
                            t = executed insert_street (writes done) t0)).
  - by intros l t [-> ->].
  - intros done x todo Heq.
    assert (writes (done ++ [x])
            = writes done ++ match locality_ids !! str (OBJECTID x) with
                             | Some locality_id => [street_params x locality_id]
                             | None => []
                             end) as Hw.
    { unfold writes. rewrite omap_app. simpl.
      by destruct (locality_ids !! str (OBJECTID x)). }
    rewrite Hw. destruct (locality_ids !! str (OBJECTID x)) as [locality_id|].
    + eapply triple_bind; [by apply triple_connection_execute_sp|]. intros ?.
      eapply triple_bind; [apply triple_get_local|]. intros processed_ids.
      apply triple_set_local.
      intros l t (-> & t' & [-> ->] & ->). split.
      * by rewrite map_app.
      * by rewrite executed_snoc.
    + apply triple_ret. intros l t [-> ->]. by rewrite app_nil_r.
  - intros l t [-> ->]. split; [|done].
    exists (writes (fetchall result)). split; [done|].
    unfold W, street_batch_writes. split.
    + destruct Hres as [->|[_ ->]]; [by right|by left].
    + intros Hff. destruct Hres as [->|[? _]]; [|congruence]. done.
Qed.

Lemma insert_buildings_executed vs t :
  insert_buildings vs t = executed insert_building vs t.
Proof. done. Qed.

Lemma building_batch_spec (batch : list string) (street_ids : gmap string Z)
    (batch_idx total_batches : nat) (t0 : Target) :
  triple ff S0 (fun _ t => t = t0)
    (_process_building_batch rt batch street_ids batch_idx total_batches)
    (worker_post ff insert_building bv_objectid (building_batch_writes rt street_ids batch S0) t0)
    (fun _ _ => False).
Proof.
  unfold _process_building_batch, worker_post.
  set (W := building_batch_writes rt street_ids batch S0).
  eapply triple_conseq;
    [apply (triple_with_local ff S0 ([] : list string)
              (fun l t => l = [] /\ t = t0) _
              (fun processed_ids l t =>
                 exists written,
                   t = executed insert_building written t0 /\
                   (written = [] \/ written = W) /\
                   (ff = true ->
                    written = W /\ processed_ids = map (fun v => str (bv_objectid v)) W))
              (fun _ _ => False))
    | by intros | by intros ? ? ? [? ?] | by intros ? ? [? ?] ].
  eapply triple_bind with
    (R := fun _ l t =>
            exists written,
              t = executed insert_building written t0 /\
              (written = [] \/ written = W) /\
              (ff = true -> written = W /\ l = map (fun v => str (bv_objectid v)) W));
    [|intros ?; by apply triple_get_local_wp].
  eapply triple_try with (E' := fun _ t => t = t0).
  2: { intros e Hff. apply triple_print_wp.
       intros l t ->. exists []. split; [done|]. split; [by left|].
       intros ?; congruence. }
  eapply triple_bind; [by apply triple_source_query_sp; intros ? ? [_ ->]|].
  intros result. apply triple_pure. intros Hres%fetchall_cases.
  set (records := fun rows : list house_record => omap (building_record street_ids) rows).
  eapply triple_bind.
  { apply (triple_fold_each_wp ff S0
             (fun done acc l t => acc = records done /\
                                  l = map (fun v => str (bv_objectid v)) (records done) /\
                                  t = t0)
             _ _ _ _
             (fun acc l t => acc = records (fetchall result) /\
                             l = map (fun v => str (bv_objectid v)) (records (fetchall result)) /\
                             t = t0)).
    - by intros l t [-> ->].
    - intros done x todo acc Heq.
      assert (records (done ++ [x])
              = records done ++ match building_record street_ids x with
                                | Some record => [record]
                                | None => []
                                end) as Hr.
      { unfold records. rewrite omap_app. simpl.
        by destruct (building_record street_ids x). }
      rewrite Hr.
      destruct (building_record street_ids x) as [record|] eqn:Hrec.
      + eapply triple_bind; [apply triple_get_local|]. intros processed_ids.
        eapply triple_bind.
        { apply triple_set_local with
            (Q := fun _ l t => acc = records done /\
                               l = map (fun v => str (bv_objectid v)) (records done ++ [record]) /\
                               t = t0).
          intros l t (-> & -> & -> & ->). split; [done|]. split; [|done].
          rewrite map_app. simpl. do 3 f_equal.
          unfold building_record in Hrec.
          destruct (street_ids !! str (hr_OBJECTID x)); [|done].
          by injection Hrec as <-. }
        intros ?. apply triple_ret. by intros l t (-> & -> & ->).
      + apply triple_ret. intros l t (-> & -> & ->). by rewrite app_nil_r.
    - done. }
  intros building_records. apply triple_pure. intros ->.
  destruct (records (fetchall result)) as [|record more] eqn:Hrecords.
  - apply triple_ret. intros l t [-> ->].
    exists []. split; [done|]. split; [by left|].
    intros Hff. destruct Hres as [Hres|[? _]]; [|congruence].
    unfold W, building_batch_writes. rewrite <- Hres. fold (records (fetchall result)).
    by rewrite Hrecords.
  - rewrite <- Hrecords.
    apply triple_begin; [|by intros l t [_ ->]].
    intros t1.
    apply triple_pre with
      (P' := fun l t => t1 = t0 /\
                        (l = map (fun v => str (bv_objectid v)) (records (fetchall result)) /\
                         t = t0));
      [|by intros l t [[-> ->] ->]].
    apply triple_pure. intros ->.
    eapply triple_bind; [by apply triple_connection_execute_sp|]. intros ?.
    eapply triple_bind.
    { apply (triple_for_each_wp ff S0
               (fun done l t =>
                  l = map (fun v => str (bv_objectid v)) (records (fetchall result)) /\
                  t = executed insert_building (concat done) t0)
               _ _ _
               (fun _ l t =>
                  l = map (fun v => str (bv_objectid v)) (records (fetchall result)) /\
                  t = executed insert_building (records (fetchall result)) t0)).
      - intros l t (t' & [-> ->] & ->). done.
      - intros done x todo Heq.
        apply triple_connection_execute_wp; [|done].
        intros l t [-> ->]. split; [done|].
        rewrite concat_app. simpl. rewrite app_nil_r.
        by rewrite executed_app, insert_buildings_executed.
      - intros l t [-> ->]. split; [done|].
        by rewrite chunks_concat by lia. }
    intros ?. apply triple_connection_execute_wp; [|done].
    intros l t [-> ->]. split; [|done].
    exists (records (fetchall result)). split; [done|].
    unfold W, building_batch_writes. split.
    + destruct Hres as [->|[_ Hres]]; [by right|]. rewrite Hres. by left.
    + intros Hff. destruct Hres as [->|[? _]]; [|congruence]. done.
Qed.

End Workers.


(* ================================================================== *)
(** * Specifications of the pool and of the stages *)
(* ================================================================== *)

Section Pool.

Context (ff : bool) (S0 : Source).

Lemma triple_future_of {L A} (P : L -> Target -> Prop) (m : ST L A) Q E :
  triple ff S0 P m Q E ->
  triple ff S0 P (future_of m)
    (fun r l t => match r with
                  | Return a => Q a l t
                  | Raise _ => ff = false /\ E l t
                  end)
    (fun _ _ => False).
Proof.
  intros H l w Hs Hf Hp. unfold future_of. specialize (H l w Hs Hf Hp).
  destruct (m (l, w)) as [[a|e] s']; simpl.
  - done.
  - destruct H as (? & Hff & ?). split; [done|]. split; [|done].
    intros ?; congruence.
Qed.

Lemma triple_gather (P : unit -> Target -> Prop) what completed acc E :
  triple ff S0 P (gather what completed acc)
    (fun r l t => r = acc ++ concat (successes completed) /\ P l t) E.
Proof.
  revert acc. induction completed as [|[r|e] rest IH]; intros acc; simpl.
  - apply triple_ret. intros l t Hp. by rewrite app_nil_r.
  - eapply triple_post; [apply IH|]. intros a l t [-> Hp]. by rewrite <- app_assoc.
  - eapply triple_bind; [apply triple_print|]. intros ?. apply IH.
Qed.

Lemma triple_submit_all {V} (statement : V -> Target -> Target) (key : V -> Z)
    (worker : list string -> nat -> M (list string)) (W : list string -> list V) :
  (forall batch idx t0,
     triple ff S0 (fun _ t => t = t0) (worker batch idx)
       (worker_post ff statement key (W batch) t0) (fun _ _ => False)) ->
  forall batches idx t0,
    triple ff S0 (fun _ t => t = t0) (submit_all worker idx batches)
      (fun futures _ t =>
         exists written,
           t = executed statement written t0 /\
           written ⊆ concat (map W batches) /\
           (ff = true ->
            written = concat (map W batches) /\
            futures = map (fun batch => Return (map (fun v => str (key v)) (W batch))) batches))
      (fun _ _ => False).
Proof.
  intros Hworker. induction batches as [|batch rest IH]; intros idx t0; simpl.
  - apply triple_ret. intros l t ->. exists []. done.
  - eapply triple_bind; [apply triple_future_of, Hworker|].
    intros [processed_ids|e]; [|apply triple_pre with (P' := fun _ _ => False);
                                 [apply triple_false|by intros ? ? [? ?]]].
    unfold worker_post.
    apply triple_exists. intros written.
    apply triple_pre with
      (P' := fun (l : unit) t =>
               ((written = [] \/ written = W batch) /\
                (ff = true -> written = W batch /\
                              processed_ids = map (fun v => str (key v)) (W batch))) /\
               t = executed statement written t0);
      [|by intros l t (-> & H1 & H2)].
    apply triple_pure. intros [Hw Hff].
    eapply triple_bind; [apply IH|].
    intros futures. apply triple_ret.
    intros l t (written' & -> & Hsub & Hff').
    exists (written ++ written'). split; [by rewrite executed_app|]. split.
    + apply list_subseteq_app_iff_l. split.
      * destruct Hw as [-> | ->]; [apply list_subseteq_nil|].
        by apply list_subseteq_app_l.
      * by apply list_subseteq_app_r.
    + intros H. destruct (Hff H) as [-> ->]. destruct (Hff' H) as [-> ->]. done.
Qed.

End Pool.

Section Stages.

Context (ff : bool) (S0 : Source) (rt : Runtime) (self : GarConverter).

Lemma reconcile_record_spec {P : unit -> Target -> Prop} (mh_record : Z * string) :
  triple ff S0 P (reconcile_record rt mh_record)
    (fun found l t => P l t /\ (ff = true -> found = reconciled rt S0 mh_record)) P.
Proof.
  unfold reconcile_record, reconciled.
  eapply triple_bind; [by apply triple_source_query_sp|].
  intros ao_result. apply triple_pure. intros Hao%fetchall_cases.
  destruct (fetchall ao_result) as [|ao_record ao_records] eqn:Hfetch.
  - eapply triple_bind; [by apply triple_source_query_sp|].
    intros parent_result. apply triple_pure. intros Hparent.
    eapply triple_bind; [by apply triple_source_query_sp|].
    intros name_result. apply triple_pure. intros Hname.
    eapply triple_bind; [by apply triple_source_query_sp|].
    intros guid_result. apply triple_pure. intros Hguid.
    apply triple_ret. intros l t Hp. split; [done|]. intros Hff.
    destruct Hao as [Hao|[? _]]; [|congruence].
    destruct Hparent as [->|[? _]]; [|congruence].
    destruct Hname as [->|[? _]]; [|congruence].
    destruct Hguid as [->|[? _]]; [|congruence].
    rewrite <- Hao. simpl. done.
  - apply triple_ret. intros l t Hp. split; [done|]. intros Hff.
    destruct Hao as [Hao|[? _]]; [|congruence].
    rewrite <- Hao. done.
Qed.

Lemma map_snd_imap {A B} (f : A -> B) (l : list A) :
  map (fun ib => f (snd ib)) (imap pair l) = map f l.
Proof.
  assert (forall g : nat -> nat,
            map (fun ib => f (snd ib)) (imap (fun i x => (g i, x)) l) = map f l) as H.
  { induction l as [|x l IH]; intros g; [done|]. simpl. f_equal. apply (IH (g ∘ S)). }
  apply (H (fun i => i)).
Qed.

Lemma missing_localities_spec (missing_ids : list string) (t0 : Target) :
  triple ff S0 (fun _ t => t = t0) (_process_missing_localities rt self missing_ids)
    (fun n _ t =>
       exists written,
         t = executed insert_locality written t0 /\
         (ff = true ->
          written = reconciliation_writes rt self S0 missing_ids /\ n = length written))
    (fun _ _ => False).
Proof.
  unfold _process_missing_localities, reconciliation_writes.
  set (batchW := fun batch : list string =>
         concat (map (reconciled rt S0) (mh_by_ids_query rt batch S0))).
  set (batches := chunks (locality_batch_size self) missing_ids).
  apply (triple_fold_each_wp ff S0
           (fun done total (l : unit) t =>
              exists written,
                t = executed insert_locality written t0 /\
                (ff = true ->
                 written = concat (map (fun ib : nat * list string => batchW (snd ib)) done) /\
                 total = length written))).
  - intros l t ->. exists []. done.
  - intros done [batch_idx batch] todo total Heq. simpl.
    apply triple_exists. intros written.
    apply triple_pre with
      (P' := fun (l : unit) t =>
               (ff = true ->
                written = concat (map (fun ib : nat * list string => batchW (snd ib)) done) /\
                total = length written) /\
               t = executed insert_locality written t0);
      [|by intros l t [-> H]].
    apply triple_pure. intros Hinv.
    set (t1 := executed insert_locality written t0).
    eapply triple_try with (E' := fun _ t => t = t1).
    2: { intros e Hff. eapply triple_bind; [apply triple_print|]. intros ?.
         apply triple_ret. intros l t ->. exists written. split; [done|].
         intros ?; congruence. }
    eapply triple_bind; [by apply triple_source_query_sp|].
    intros mh_result. apply triple_pure. intros Hmh%fetchall_cases.
    eapply triple_bind.
    { apply (triple_fold_each_wp ff S0
               (fun done' acc (l : unit) t =>
                  t = t1 /\ (ff = true -> acc = concat (map (reconciled rt S0) done')))
               _ _ _ _
               (fun acc (l : unit) t =>
                  t = t1 /\ (ff = true -> acc = batchW batch))).
      - done.
      - intros done' mh_record todo' acc Heq'.
        apply triple_pure_r. intros Hacc.
        eapply triple_bind; [apply (reconcile_record_spec (P := fun _ t => t = t1))|].
        intros found. apply triple_ret. intros l t [-> Hfound]. split; [done|].
        intros Hff. rewrite map_app, concat_app. simpl. rewrite app_nil_r.
        by rewrite (Hacc Hff), (Hfound Hff).
      - intros acc l t [-> Hacc]. split; [done|]. intros Hff.
        destruct Hmh as [Hmh|[? _]]; [|congruence].
        unfold batchW. rewrite <- Hmh. auto. }
    intros localities_to_insert. apply triple_pure_r. intros Hto.
    assert (forall written',
              ff = true -> written' = written ++ localities_to_insert ->
              written' = concat (map (fun ib : nat * list string => batchW (snd ib))
                                   (done ++ [(batch_idx, batch)])) /\
              (total + length localities_to_insert)%nat = length written') as Hstep.
    { intros written' Hff ->. destruct (Hinv Hff) as [Hw Ht].
      rewrite map_app, concat_app. simpl. rewrite app_nil_r.
      rewrite <- Hw, (Hto Hff), length_app, <- Ht. done. }
    destruct localities_to_insert as [|locality more] eqn:Hlist.
    + apply triple_ret. intros l t ->. exists written. split; [done|].
      intros Hff. destruct (Hstep written Hff) as [H1 H2]; [by rewrite app_nil_r|].
      split; [done|]. simpl in H2. lia.
    + rewrite <- Hlist in *. clear Hlist.
      eapply triple_bind.
      { apply triple_begin with
          (Q := fun _ (l : unit) t =>
                  t = executed insert_locality localities_to_insert t1);
          [|done].
        intros t2.
        apply triple_pre with (P' := fun (l : unit) t => t2 = t1 /\ t = t1);
          [|by intros l t [-> ->]].
        apply triple_pure. intros ->.
        apply (triple_for_each_wp ff S0
                 (fun done' (l : unit) t => t = executed insert_locality done' t1)).
        - done.
        - intros done' locality' todo' Heq'.
          apply triple_connection_execute_wp; [|done].
          intros l t ->. by rewrite executed_snoc.
        - done. }
      intros ?. apply triple_ret. intros l t ->.
      exists (written ++ localities_to_insert). split; [by rewrite executed_app|].
      intros Hff. destruct (Hstep _ Hff eq_refl) as [H1 H2]. done.
  - intros n l t (written & -> & Hff). exists written. split; [done|].
    intros H. destruct (Hff H) as [-> ->]. split; [|done].
    by rewrite map_snd_imap.
Qed.

Lemma py_in_Permutation (x : string) (p p' : list string) :
  p ≡ₚ p' -> py_in x p = py_in x p'.
Proof.
  intros Hp. apply eq_true_iff_eq. rewrite !py_in_elem_of. by rewrite Hp.
Qed.

Lemma missing_of_Permutation (ids p p' : list string) :
  p ≡ₚ p' -> missing_of ids p = missing_of ids p'.
Proof.
  intros Hp. unfold missing_of. apply filter_ext. intros x.
  by rewrite (py_in_Permutation x p p').
Qed.

Lemma concat_map_map {A B C} (f : B -> C) (g : A -> list B) (l : list A) :
  concat (map (fun x => map f (g x)) l) = map f (concat (map g l)).
Proof.
  induction l as [|x l IH]; [done|]. simpl. by rewrite IH, map_app.
Qed.

Lemma successes_Return {A B} (f : A -> B) (l : list A) :
  successes (map (fun x => Return (f x)) l) = map f l.
Proof. induction l as [|x l IH]; [done|]. simpl. by rewrite <- IH. Qed.

(** What the pool and the collection loop of a stage leave behind, as the
    precondition of what follows them. *)
Lemma triple_pool {V B} (statement : V -> Target -> Target) (key : V -> Z)
    (worker : list string -> nat -> M (list string)) (W : list string -> list V)
    (what : string) (batches : list (list string)) (t0 : Target)
    (k : list string -> M B) Q E :
  (ff = true -> fair rt) ->
  (forall batch idx t1,
     triple ff S0 (fun _ t => t = t1) (worker batch idx)
       (worker_post ff statement key (W batch) t1) (fun _ _ => False)) ->
  (forall processed_ids written,
     written ⊆ concat (map W batches) ->
     (ff = true ->
      written = concat (map W batches) /\
      processed_ids ≡ₚ map (fun v => str (key v)) written) ->
     triple ff S0 (fun _ t => t = executed statement written t0) (k processed_ids) Q E) ->
  triple ff S0 (fun _ t => t = t0)
    (futures <- submit_all worker 0 batches ;;
     processed_ids <- gather what (as_completed rt futures) [] ;;
     k processed_ids)
    Q E.
Proof.
  intros Hfair Hworker Hk.
  eapply triple_bind;
    [eapply triple_weaken_exn;
       [by apply (triple_submit_all ff S0 statement key worker W)|done]|].
  intros futures. eapply triple_bind; [apply triple_gather|].
  intros processed_ids.
  apply triple_pre with
    (P' := fun (l : unit) t =>
             exists written,
               (processed_ids = [] ++ concat (successes (as_completed rt futures)) /\
                written ⊆ concat (map W batches) /\
                (ff = true ->
                 written = concat (map W batches) /\
                 futures = map (fun batch => Return (map (fun v => str (key v)) (W batch)))
                             batches)) /\
               t = executed statement written t0);
    [|intros l t (Hp & written & -> & Hsub & Hff); by exists written].
  apply triple_exists. intros written. apply triple_pure.
  intros (-> & Hsub & Hff). apply Hk; [done|].
  intros H. destruct (Hff H) as [-> ->]. split; [done|].
  destruct (Hfair H) as [_ Hcompleted]. simpl.
  rewrite (successes_Permutation _ _ (Hcompleted _)).
  rewrite (successes_Return (fun batch => map (fun v => str (key v)) (W batch))).
  by rewrite concat_map_map.
Qed.

Lemma localities_stage_spec (t0 : Target) :
  (ff = true -> fair rt) ->
  triple ff S0 (fun _ t => t = t0) (process_localities_parallel rt self)
    (fun n _ t =>
       exists written,
         t = executed insert_locality written t0 /\
         (ff = true -> written = locality_stage_writes rt self S0 /\ n = length written))
    (fun _ t => t = t0).
Proof.
  intros Hfair. unfold process_localities_parallel.
  eapply triple_bind; [by apply triple_source_query_sp|].
  intros result. apply triple_pure. intros Hres.
  destruct result as [locality_ids|].
  2: { eapply triple_bind; [apply triple_print|]. intros ?.
       apply triple_ret. intros l t ->. exists []. split; [done|].
       intros Hff. destruct Hres as [?|[? _]]; congruence. }
  assert (ff = true -> locality_ids = locality_ids_query (base_path self) S0) as Hids.
  { intros Hff. destruct Hres as [Hres|[? _]]; congruence. }
  apply (triple_pool insert_locality lv_objectid _
           (fun batch => locality_batch_writes rt batch S0));
    [done|intros; apply locality_batch_spec|].
  intros processed_ids first_pass _ Hpool.
  assert (ff = true ->
          first_pass = locality_first_pass rt self S0 /\
          processed_ids ≡ₚ map (fun v => str (lv_objectid v)) first_pass) as Hfirst.
  { intros H. destruct (Hpool H) as [-> Hp]. split; [|done].
    unfold locality_first_pass. by rewrite <- (Hids H). }
  clear Hpool.
  destruct (missing_of locality_ids processed_ids) as [|missing_id more] eqn:Hmissing.
  - apply triple_ret. intros l t ->. exists first_pass. split; [done|].
    intros Hff. destruct (Hfirst Hff) as [Hfp Hperm].
    unfold locality_stage_writes. rewrite <- Hfp, <- (Hids Hff).
    rewrite <- (missing_of_Permutation _ _ _ Hperm), Hmissing.
    unfold reconciliation_writes. simpl. rewrite app_nil_r. split; [done|].
    by rewrite Hperm, length_map.
  - rewrite <- Hmissing. clear Hmissing.
    eapply triple_bind;
      [eapply triple_weaken_exn; [apply missing_localities_spec|done]|].
    intros additional_processed. apply triple_ret.
    intros l t (written & -> & Hff). exists (first_pass ++ written).
    split; [by rewrite executed_app|].
    intros H. destruct (Hfirst H) as [Hfp Hperm]. destruct (Hff H) as [-> ->].
    unfold locality_stage_writes. rewrite <- Hfp, <- (Hids H).
    rewrite (missing_of_Permutation _ _ _ Hperm). split; [done|].
    by rewrite length_app, Hperm, length_map.
Qed.

Lemma flatten_groups_empty (groups : list (string * list string)) :
  flatten_groups rt ∅ groups = ([], ∅).
Proof.
  unfold flatten_groups.
  induction groups as [|group groups IH] using rev_ind; [done|].
  rewrite foldl_app. simpl. rewrite IH. by rewrite lookup_empty.
Qed.

Lemma chunks_nil {A} (batch_size : nat) : chunks batch_size ([] : list A) = [].
Proof. done. Qed.

Lemma streets_stage_spec (t0 : Target) :
  (ff = true -> fair rt) ->
  triple ff S0 (fun _ t => t = t0) (process_streets_parallel rt self)
    (fun n _ t =>
       exists written,
         t = executed insert_street written t0 /\
         written ⊆ street_stage_writes rt self S0 t0 /\
         (ff = true -> written = street_stage_writes rt self S0 t0 /\ n = length written))
    (fun _ t => t = t0).
Proof.
  intros Hfair. unfold process_streets_parallel, street_stage_writes.
  eapply triple_bind; [by apply triple_target_query_sp|].
  intros result.
  apply triple_pre with
    (P' := fun (l : unit) t =>
             (result = Some (rows (localities t0)) \/ (ff = false /\ result = None)) /\ t = t0);
    [|by intros l t [H ->]].
  apply triple_pure. intros Hres.
  destruct result as [found|].
  2: { eapply triple_bind; [apply triple_print|]. intros ?.
       apply triple_ret. intros l t ->. exists []. split; [done|].
       split; [apply list_subseteq_nil|].
       intros Hff. destruct Hres as [?|[? _]]; congruence. }
  assert (found = rows (localities t0)) as -> by (destruct Hres as [?|[_ ?]]; congruence).
  clear Hres.
  set (localities_map := id_map l_objectid l_id (rows (localities t0))).
  destruct (decide (localities_map = ∅)) as [Hempty|Hnonempty].
  { eapply triple_bind; [apply triple_print|]. intros ?.
    apply triple_ret. intros l t ->. exists []. split; [done|].
    rewrite Hempty, flatten_groups_empty. simpl. done. }
  eapply triple_bind; [by apply triple_source_query_sp|].
  intros result. apply triple_pure. intros Hres.
  destruct result as [pairs|].
  2: { eapply triple_bind; [apply triple_print|]. intros ?.
       apply triple_ret. intros l t ->. exists []. split; [done|].
       split; [apply list_subseteq_nil|].
       intros Hff. destruct Hres as [?|[? _]]; congruence. }
  assert (pairs = street_pairs_query (base_path self) S0) as ->
      by (destruct Hres as [?|[_ ?]]; congruence).
  clear Hres.
  apply (triple_pool insert_street sv_objectid _
           (fun batch =>
              street_batch_writes rt
                (snd (flatten_groups rt localities_map
                        (group_streets (street_pairs_query (base_path self) S0))))
                batch S0));
    [done|intros; apply street_batch_spec|].
  intros processed_ids written Hsub Hpool.
  eapply triple_bind with (R := fun _ (l : unit) t => t = executed insert_street written t0).
  { destruct (missing_of _ processed_ids); [by apply triple_ret|by apply triple_print_wp]. }
  intros ?. apply triple_ret. intros l t ->.
  exists written. split; [done|]. split; [done|].
  intros H. destruct (Hpool H) as [-> Hperm]. split; [done|].
  by rewrite Hperm, length_map.
Qed.

Lemma ensure_index_spec (P : unit -> Target -> Prop) (name : string) :
  triple ff S0 P (ensure_index name) (fun _ => P) P.
Proof.
  unfold ensure_index.
  eapply triple_bind;
    [apply (triple_execute_with_retry ff S0 P (index_count_query name) (fun _ _ _ => True));
     by intros w|].
  intros result.
  apply triple_pre with (P' := P); [|by intros l t [H _]].
  destruct result as [[|n]|]; try by apply triple_ret.
  eapply triple_bind;
    [apply (triple_execute_with_retry ff S0 P (create_index name) (fun _ _ _ => True));
     by intros w|].
  intros ?. apply triple_print_wp. by intros l t [H _].
Qed.

Lemma buildings_stage_spec (t0 : Target) :
  (ff = true -> fair rt) ->
  triple ff S0 (fun _ t => t = t0) (process_buildings_parallel rt self)
    (fun n _ t =>
       exists written,
         t = executed insert_building written t0 /\
         written ⊆ building_stage_writes rt self S0 t0 /\
         (ff = true -> written = building_stage_writes rt self S0 t0 /\ n = length written))
    (fun _ t => t = t0).
Proof.
  intros Hfair. unfold process_buildings_parallel, building_stage_writes.
  eapply triple_bind; [by apply triple_target_query_sp|].
  intros result.
  apply triple_pre with
    (P' := fun (l : unit) t =>
             (result = Some (rows (streets t0)) \/ (ff = false /\ result = None)) /\ t = t0);
    [|by intros l t [H ->]].
  apply triple_pure. intros Hres.
  destruct result as [found|].
  2: { destruct Hres as [?|[Hff _]]; [done|]. by apply triple_raise. }
  assert (found = rows (streets t0)) as -> by (destruct Hres as [?|[_ ?]]; congruence).
  clear Hres.
  set (streets_map := id_map s_objectid s_id (rows (streets t0))).
  destruct (decide (streets_map = ∅)) as [Hempty|Hnonempty].
  { eapply triple_bind; [apply triple_print|]. intros ?.
    apply triple_ret. intros l t ->. exists []. split; [done|].
    rewrite Hempty, flatten_groups_empty. simpl. done. }
  eapply triple_bind with (R := fun _ (l : unit) t => t = t0).
  { eapply triple_try with (E' := fun _ t => t = t0).
    - eapply triple_bind; [apply ensure_index_spec|]. intros ?.
      eapply triple_bind; [apply ensure_index_spec|]. intros ?.
      by apply triple_print_wp.
    - intros e Hff. by apply triple_print_wp. }
  intros ?.
  eapply triple_bind; [by apply triple_source_query_sp|].
  intros result. apply triple_pure. intros Hres.
  destruct result as [scan|].
  2: { eapply triple_bind; [apply triple_print|]. intros ?.
       apply triple_ret. intros l t ->. exists []. split; [done|].
       split; [apply list_subseteq_nil|].
       intros Hff. destruct Hres as [?|[? _]]; congruence. }
  assert (scan = building_paths_query (base_path self) S0) as ->
      by (destruct Hres as [?|[_ ?]]; congruence).
  clear Hres.
  set (flat := flatten_groups rt streets_map
                 (group_buildings streets_map (building_paths_query (base_path self) S0))).
  destruct (fst flat) as [|building_id more] eqn:Hall.
  { eapply triple_bind; [apply triple_print|]. intros ?.
    apply triple_ret. intros l t ->. exists []. done. }
  rewrite <- Hall. clear Hall.
  apply (triple_pool insert_building bv_objectid _
           (fun batch => building_batch_writes rt (snd flat) batch S0));
    [done|intros; apply building_batch_spec|].
  intros processed_ids written Hsub Hpool.
  eapply triple_bind with (R := fun _ (l : unit) t => t = executed insert_building written t0).
  { destruct (missing_of _ processed_ids); [by apply triple_ret|by apply triple_print_wp]. }
  intros ?. apply triple_ret. intros l t ->.
  exists written. split; [done|]. split; [done|].
  intros H. destruct (Hpool H) as [-> Hperm]. split; [done|].
  by rewrite Hperm, length_map.
Qed.

Lemma region_and_district_spec (P : unit -> Target -> Prop) :
  triple ff S0 P (region_and_district self) (fun _ => P) P.
Proof.
  unfold region_and_district.
  eapply triple_bind; [by apply triple_source_query_sp|]. intros region_result.
  eapply triple_bind; [apply triple_source_query_sp; by intros l t [_ H]|].
  intros district_result. apply triple_ret. by intros l t [_ [_ H]].
Qed.

(** The orchestrator never raises; what it leaves in the target is what the
    stages it ran have written, and in a run without faults that is
    [conversion_writes]. *)
Lemma run_conversion_spec (t0 : Target) :
  (ff = true -> fair rt) ->
  triple ff S0 (fun _ t => t = t0) (run_conversion rt self)
    (fun ok _ t =>
       exists wl ws wb,
         t = executed insert_building wb
               (executed insert_street ws (executed insert_locality wl t0)) /\
         (ff = true -> (wl, ws, wb) = conversion_writes rt self S0 t0))
    (fun _ _ => False).
Proof.
  intros Hfair. unfold run_conversion, conversion_writes.
  eapply triple_try with
    (E' := fun _ t =>
             exists wl ws wb,
               t = executed insert_building wb
                     (executed insert_street ws (executed insert_locality wl t0))).
  2: { intros e Hff. eapply triple_bind; [apply triple_print|]. intros ?.
       apply triple_ret. intros l t (wl & ws & wb & ->).
       exists wl, ws, wb. split; [done|]. intros ?; congruence. }
  eapply triple_bind;
    [apply triple_source_query_sp; intros l t ->; by exists [], [], []|].
  intros result. apply triple_pure. intros Hres.
  destruct result as [objects|].
  2: { eapply triple_bind; [apply triple_print|]. intros ?.
       apply triple_ret. intros l t ->. exists [], [], []. split; [done|].
       intros Hff. destruct Hres as [?|[? _]]; congruence. }
  assert (objects = objects_query (base_path self) S0) as Hobjects
      by (destruct Hres as [?|[_ ?]]; congruence).
  rewrite <- Hobjects. clear Hres Hobjects.
  destruct objects as [|object objects].
  { eapply triple_bind; [apply triple_print|]. intros ?.
    apply triple_ret. intros l t ->. by exists [], [], []. }
  eapply triple_bind;
    [eapply triple_weaken_exn; [apply region_and_district_spec|];
     intros l t ->; by exists [], [], []|].
  intros ?.
  eapply triple_bind;
    [eapply triple_weaken_exn; [by apply localities_stage_spec|];
     intros l t ->; by exists [], [], []|].
  intros localities_count. apply triple_exists. intros wl.
  apply triple_pre with
    (P' := fun (l : unit) t =>
             (ff = true -> wl = locality_stage_writes rt self S0 /\
                           localities_count = length wl) /\
             t = executed insert_locality wl t0);
    [|by intros l t [-> H]].
  apply triple_pure. intros Hwl.
  destruct localities_count as [|localities_count'].
  { eapply triple_bind; [apply triple_print|]. intros ?.
    apply triple_ret. intros l t ->. exists wl, [], []. split; [done|].
    intros Hff. destruct (Hwl Hff) as [<- Hlen].
    destruct wl; [done|]. simpl in Hlen. lia. }
  set (t1 := executed insert_locality wl t0).
  eapply triple_bind;
    [eapply triple_weaken_exn; [by apply localities_stage_spec || by apply streets_stage_spec|];
     intros l t ->; by exists wl, [], []|].
  intros streets_count. apply triple_exists. intros ws.
  apply triple_pre with
    (P' := fun (l : unit) t =>
             (ff = true -> ws = street_stage_writes rt self S0 t1 /\
                           streets_count = length ws) /\
             t = executed insert_street ws t1);
    [|by intros l t (-> & _ & H)].
  apply triple_pure. intros Hws.
  assert (ff = true ->
          exists v wl', locality_stage_writes rt self S0 = v :: wl' /\ wl = v :: wl') as Hwl'.
  { intros Hff. destruct (Hwl Hff) as [<- Hlen].
    destruct wl as [|v wl']; [simpl in Hlen; lia|]. by exists v, wl'. }
  destruct streets_count as [|streets_count'].
  { eapply triple_bind; [apply triple_print|]. intros ?.
    apply triple_ret. intros l t ->. exists wl, ws, []. split; [done|].
    intros Hff. destruct (Hwl' Hff) as (v & wl' & -> & Hwleq).
    destruct (Hws Hff) as [Hwseq Hlen].
    rewrite <- Hwleq. fold t1. rewrite <- Hwseq.
    destruct ws; [done|]. simpl in Hlen. lia. }
  set (t2 := executed insert_street ws t1).
  eapply triple_bind;
    [eapply triple_weaken_exn; [by apply buildings_stage_spec|];
     intros l t ->; by exists wl, ws, []|].
  intros buildings_count. apply triple_exists. intros wb.
  eapply triple_bind; [apply triple_print|]. intros ?.
  apply triple_ret. intros l t (-> & _ & Hwb).
  exists wl, ws, wb. split; [done|].
  intros Hff. destruct (Hwl' Hff) as (v & wl' & -> & Hwleq).
  destruct (Hws Hff) as [Hwseq Hlen]. destruct (Hwb Hff) as [Hwbeq _].
  rewrite <- Hwleq. fold t1. rewrite <- Hwseq.
  destruct ws as [|sv ws']; [simpl in Hlen; lia|]. fold t2. by rewrite <- Hwbeq.
Qed.

End Stages.


(* ================================================================== *)
(** * The dictionaries built by the street and building stages *)
(* ================================================================== *)

Lemma id_map_snoc {R} (objectid id : R -> Z) (table_rows : list R) (r : R) :
  id_map objectid id (table_rows ++ [r])
  = <[str (objectid r) := id r]> (id_map objectid id table_rows).
Proof. unfold id_map. by rewrite foldl_app. Qed.

Lemma id_map_lookup {R} (objectid id : R -> Z) (table_rows : list R) (s : string) (i : Z) :
  id_map objectid id table_rows !! s = Some i ->
  exists r, r ∈ table_rows /\ str (objectid r) = s /\ id r = i.
Proof.
  induction table_rows as [|r table_rows IH] using rev_ind.
  - unfold id_map. simpl. by rewrite lookup_empty.
  - rewrite id_map_snoc. destruct (decide (str (objectid r) = s)) as [<-|Hne].
    + rewrite lookup_insert_eq. intros [= <-]. exists r. split; [|done].
      apply elem_of_app. right. by apply list_elem_of_singleton.
    + rewrite lookup_insert_ne by done. intros H.
      destruct (IH H) as (r' & Hin & Heq). exists r'. split; [|done].
      apply elem_of_app. by left.
Qed.

Lemma id_map_dom {R} (objectid id : R -> Z) (table_rows : list R) (s : string) :
  is_Some (id_map objectid id table_rows !! s) <-> s ∈ map (fun r => str (objectid r)) table_rows.
Proof.
  induction table_rows as [|r table_rows IH] using rev_ind.
  - unfold id_map. simpl. rewrite lookup_empty. split; [by intros [? ?]|by intros ?%elem_of_nil].
  - rewrite id_map_snoc, map_app, elem_of_app. simpl. rewrite list_elem_of_singleton.
    destruct (decide (str (objectid r) = s)) as [<-|Hne].
    + rewrite lookup_insert_eq. split; [by right|by eexists].
    + rewrite lookup_insert_ne by done. rewrite IH. split; [by left|].
      intros [?|?]; [done|congruence].
Qed.

Lemma id_map_dom_keys {R} (objectid id : R -> Z) (table_rows : list R) (s : string) :
  is_Some (id_map objectid id table_rows !! s) <-> s ∈ map str (map objectid table_rows).
Proof. by rewrite id_map_dom, map_map. Qed.

(** ** Grouping *)

Lemma in_group_nil l s : ~ in_group l s [].
Proof. by intros (g & ?%elem_of_nil & _). Qed.

Lemma in_group_cons l s g d :
  in_group l s (g :: d) <-> (fst g = l /\ s ∈ snd g) \/ in_group l s d.
Proof.
  unfold in_group. split.
  - intros (g' & [->|Hin]%elem_of_cons & H); [by left|]. right. by exists g'.
  - intros [H|(g' & Hin & H)]; [exists g|exists g']; (split; [|done]); by constructor.
Qed.

Lemma add_to_group_in (k v : string) (d : list (string * list string)) (l s : string) :
  in_group l s (add_to_group k v d) <-> in_group l s d \/ (l = k /\ s = v).
Proof.
  induction d as [|[k' vs] d IH]; simpl.
  - rewrite in_group_cons. simpl. rewrite list_elem_of_singleton.
    split; [intros [[<- ->]|H]; [by right|by destruct (in_group_nil _ _ H)]|].
    intros [H|[-> ->]]; [by destruct (in_group_nil _ _ H)|by left].
  - destruct (String.eqb_spec k' k) as [->|Hne].
    + rewrite !in_group_cons. simpl.
      destruct (py_in v vs) eqn:Hv.
      * apply py_in_elem_of in Hv. split; [tauto|].
        intros [H|[-> ->]]; [tauto|by left].
      * rewrite elem_of_app, list_elem_of_singleton. split.
        -- intros [[<- [?| ->]]|?]; tauto.
        -- intros [[[<- ?]|?]|[-> ->]]; tauto.
    + rewrite !in_group_cons, IH. simpl. tauto.
Qed.

Lemma group_streets_in (pairs : list (string * string)) (l s : string) :
  in_group l s (group_streets pairs) <-> (l, s) ∈ pairs.
Proof.
  unfold group_streets. induction pairs as [|[l' s'] pairs IH] using rev_ind.
  - simpl. split; [by intros ?%in_group_nil|by intros ?%elem_of_nil].
  - rewrite foldl_app. simpl. rewrite add_to_group_in, IH, elem_of_app, list_elem_of_singleton.
    split; (intros [?|H]; [by left|right]); [by destruct H as [-> ->]|by injection H].
Qed.

Lemma group_buildings_in (streets_map : gmap string Z) (scan : list building_path_row)
    (l s : string) :
  in_group l s (group_buildings streets_map scan) <->
  exists row, row ∈ scan /\ bp_street_id row = l /\ bp_building_id row = s /\
              is_Some (streets_map !! l).
Proof.
  unfold group_buildings. induction scan as [|row scan IH] using rev_ind.
  - simpl. split; [by intros ?%in_group_nil|by intros (? & ?%elem_of_nil & _)].
  - rewrite foldl_app. simpl.
    destruct (streets_map !! bp_street_id row) as [i|] eqn:Hlookup.
    + rewrite add_to_group_in, IH. split.
      * intros [(row' & Hin & H)|[-> ->]].
        -- exists row'. split; [apply elem_of_app; by left|done].
        -- exists row. split; [apply elem_of_app; right; by apply list_elem_of_singleton|].
           by rewrite Hlookup.
      * intros (row' & [Hin| ->%list_elem_of_singleton]%elem_of_app & H1 & H2 & H3).
        -- left. by exists row'.
        -- by right.
    + rewrite IH. split.
      * intros (row' & Hin & H). exists row'. split; [apply elem_of_app; by left|done].
      * intros (row' & [Hin| ->%list_elem_of_singleton]%elem_of_app & H1 & H2 & H3).
        -- by exists row'.
        -- rewrite <- H1, Hlookup in H3. by destruct H3.
Qed.

(** ** Flattening *)

Section Flatten.

Context (rt : Runtime) (parents : gmap string Z).
Hypothesis set_iter_fair : forall l, set_iter rt l ≡ₚ l.

Lemma add_children_fst tid acc children :
  fst (add_children tid acc children) = fst acc ++ children.
Proof.
  unfold add_children. revert acc. induction children as [|c children IH]; intros acc; simpl.
  - by rewrite app_nil_r.
  - rewrite IH. simpl. by rewrite <- app_assoc.
Qed.

Lemma add_children_lookup tid acc children s i :
  snd (add_children tid acc children) !! s = Some i ->
  snd acc !! s = Some i \/ (s ∈ children /\ i = tid).
Proof.
  unfold add_children. revert acc. induction children as [|c children IH]; intros acc; simpl.
  - by left.
  - intros H. destruct (IH _ H) as [H'|[Hin ->]].
    + simpl in H'. destruct (decide (c = s)) as [->|Hne].
      * rewrite lookup_insert_eq in H'. injection H' as <-. right. split; [by left|done].
      * rewrite lookup_insert_ne in H' by done. by left.
    + right. split; [by right|done].
Qed.

Lemma add_children_dom tid acc children s :
  is_Some (snd (add_children tid acc children) !! s) <->
  is_Some (snd acc !! s) \/ s ∈ children.
Proof.
  unfold add_children. revert acc. induction children as [|c children IH]; intros acc; simpl.
  - split; [by left|]. intros [?|?%elem_of_nil]; done.
  - rewrite IH. simpl. rewrite elem_of_cons.
    destruct (decide (c = s)) as [->|Hne].
    + rewrite lookup_insert_eq. split; [intros _; right; by left|by intros _; left].
    + rewrite lookup_insert_ne by done. split; [tauto|].
      intros [?|[?|?]]; [tauto|congruence|tauto].
Qed.

Lemma flatten_groups_snoc groups group :
  flatten_groups rt parents (groups ++ [group])
  = match parents !! fst group with
    | None => flatten_groups rt parents groups
    | Some tid => add_children tid (flatten_groups rt parents groups) (set_iter rt (snd group))
    end.
Proof. unfold flatten_groups. by rewrite foldl_app. Qed.

Lemma flatten_groups_in groups s :
  s ∈ fst (flatten_groups rt parents groups) <->
  exists l, in_group l s groups /\ is_Some (parents !! l).
Proof.
  induction groups as [|group groups IH] using rev_ind.
  - simpl. split; [by intros ?%elem_of_nil|]. by intros (l & ?%in_group_nil & _).
  - rewrite flatten_groups_snoc.
    assert (forall l, in_group l s (groups ++ [group]) <->
                      in_group l s groups \/ (fst group = l /\ s ∈ snd group)) as Hsnoc.
    { intros l. unfold in_group. split.
      - intros (g & [Hin| ->%list_elem_of_singleton]%elem_of_app & H); [|by right].
        left. by exists g.
      - intros [(g & Hin & H)|H].
        + exists g. split; [apply elem_of_app; by left|done].
        + exists group. split; [apply elem_of_app; right; by apply list_elem_of_singleton|done]. }
    destruct (parents !! fst group) as [tid|] eqn:Hp.
    + rewrite add_children_fst, elem_of_app, IH, set_iter_fair. split.
      * intros [(l & Hin & Hl)|Hin].
        -- exists l. split; [|done]. apply Hsnoc. by left.
        -- exists (fst group). split; [apply Hsnoc; by right|by rewrite Hp].
      * intros (l & [Hin|[<- Hin]]%Hsnoc & Hl); [|by right]. left. by exists l.
    + rewrite IH. split.
      * intros (l & Hin & Hl). exists l. split; [|done]. apply Hsnoc. by left.
      * intros (l & [Hin|[<- Hin]]%Hsnoc & Hl); [by exists l|].
        rewrite Hp in Hl. by destruct Hl.
Qed.

Lemma flatten_groups_dom groups s :
  is_Some (snd (flatten_groups rt parents groups) !! s) <->
  s ∈ fst (flatten_groups rt parents groups).
Proof.
  induction groups as [|group groups IH] using rev_ind.
  - simpl. rewrite lookup_empty. split; [by intros [? ?]|by intros ?%elem_of_nil].
  - rewrite flatten_groups_snoc. destruct (parents !! fst group) as [tid|]; [|done].
    rewrite add_children_dom, add_children_fst, elem_of_app, IH, set_iter_fair. done.
Qed.

Lemma flatten_groups_lookup groups s i :
  snd (flatten_groups rt parents groups) !! s = Some i ->
  exists l, in_group l s groups /\ parents !! l = Some i.
Proof.
  induction groups as [|group groups IH] using rev_ind.
  - simpl. by rewrite lookup_empty.
  - rewrite flatten_groups_snoc.
    assert (forall l, in_group l s groups -> in_group l s (groups ++ [group])) as Hmono.
    { intros l (g & Hin & H). exists g. split; [apply elem_of_app; by left|done]. }
    destruct (parents !! fst group) as [tid|] eqn:Hp.
    + intros [H|[Hin ->]]%add_children_lookup.
      * destruct (IH H) as (l & Hl & Hpl). exists l. auto.
      * exists (fst group). split; [|done]. exists group.
        split; [apply elem_of_app; right; by apply list_elem_of_singleton|].
        split; [done|]. by rewrite <- (set_iter_fair (snd group)).
    + intros H. destruct (IH H) as (l & Hl & Hpl). exists l. auto.
Qed.

End Flatten.


(* ================================================================== *)
(** * What the street and building stages write *)
(* ================================================================== *)

Lemma elem_of_List_filter {A} (f : A -> bool) (l : list A) (x : A) :
  x ∈ List.filter f l <-> x ∈ l /\ f x = true.
Proof. by rewrite !list_elem_of_In, filter_In. Qed.

Lemma existsb_elem_of {A} (f : A -> bool) (l : list A) :
  existsb f l = true <-> exists x, x ∈ l /\ f x = true.
Proof.
  rewrite existsb_exists. split; intros (x & Hin & Hf); exists x; split; try done;
    by apply list_elem_of_In.
Qed.

Lemma existsb_singleton {A} (f : A -> bool) (x : A) : existsb f [x] = f x.
Proof. simpl. by rewrite orb_false_r. Qed.

Lemma elem_of_chunks {A} (batch_size : nat) (l : list A) (x : A) :
  (0 < batch_size)%nat ->
  (exists batch, batch ∈ chunks batch_size l /\ x ∈ batch) <-> x ∈ l.
Proof.
  intros Hpos. rewrite <- elem_of_concat. by rewrite chunks_concat.
Qed.

Lemma addr_obj_batch_query_in (rt : Runtime) (batch : list string) (src : Source) (r : named_row) :
  r ∈ addr_obj_batch_query rt batch src <->
  exists id, id ∈ batch /\ r ∈ addr_obj_batch_query rt [id] src.
Proof.
  unfold addr_obj_batch_query. setoid_rewrite list_elem_of_fmap.
  setoid_rewrite elem_of_List_filter. setoid_rewrite existsb_singleton. split.
  - intros (p & -> & Hin & [[(id & Hid & Heq)%existsb_elem_of H1]%andb_true_iff H2]%andb_true_iff).
    exists id. split; [done|]. exists p. split; [done|]. split; [done|].
    by rewrite Heq, H1, H2.
  - intros (id & Hid & p & -> & Hin & [[Heq H1]%andb_true_iff H2]%andb_true_iff).
    exists p. split; [done|]. split; [done|]. rewrite H1, H2, !andb_true_r.
    apply existsb_elem_of. by exists id.
Qed.

Lemma houses_batch_query_in (rt : Runtime) (batch : list string) (src : Source) (r : house_record) :
  r ∈ houses_batch_query rt batch src <->
  exists id, id ∈ batch /\ r ∈ houses_batch_query rt [id] src.
Proof.
  unfold houses_batch_query. setoid_rewrite list_elem_of_fmap.
  setoid_rewrite elem_of_List_filter. setoid_rewrite existsb_singleton. split.
  - intros (p & -> & Hin & [[(id & Hid & Heq)%existsb_elem_of H1]%andb_true_iff H2]%andb_true_iff).
    exists id. split; [done|]. exists p. split; [done|]. split; [done|].
    by rewrite Heq, H1, H2.
  - intros (id & Hid & p & -> & Hin & [[Heq H1]%andb_true_iff H2]%andb_true_iff).
    exists p. split; [done|]. split; [done|]. rewrite H1, H2, !andb_true_r.
    apply existsb_elem_of. by exists id.
Qed.

Lemma street_batch_writes_in rt locality_ids batch src (v : street_values) :
  v ∈ street_batch_writes rt locality_ids batch src <->
  exists r, r ∈ addr_obj_batch_query rt batch src /\
            locality_ids !! str (OBJECTID r) = Some (sv_locality_id v) /\
            v = street_params r (sv_locality_id v).
Proof.
  unfold street_batch_writes. rewrite list_elem_of_omap. split.
  - intros (r & Hin & Hv). exists r. split; [done|].
    destruct (locality_ids !! str (OBJECTID r)) as [i|]; [|done].
    injection Hv as <-. done.
  - intros (r & Hin & Hl & Hv). exists r. split; [done|]. rewrite Hl. simpl. by rewrite <- Hv.
Qed.

Lemma building_batch_writes_in rt street_ids batch src (v : building_values) :
  v ∈ building_batch_writes rt street_ids batch src <->
  exists r, r ∈ houses_batch_query rt batch src /\ building_record street_ids r = Some v.
Proof. unfold building_batch_writes. by rewrite list_elem_of_omap. Qed.

Section Keys.

Context (rt : Runtime) (self : GarConverter) (src : Source).
Hypothesis rt_fair : fair rt.
Hypothesis batches_positive : positive_batches self.

Lemma all_streets_in_scope (t : Target) (s : string) :
  s ∈ fst (flatten_groups rt (id_map l_objectid l_id (rows (localities t)))
             (group_streets (street_pairs_query (base_path self) src))) <->
  street_in_scope self src (locality_keys t) s.
Proof.
  destruct rt_fair as [Hset _].
  rewrite flatten_groups_in by done. unfold street_in_scope, locality_keys.
  setoid_rewrite group_streets_in. by setoid_rewrite id_map_dom_keys.
Qed.

Lemma street_stage_writes_in (t : Target) (v : street_values) :
  v ∈ street_stage_writes rt self src t <->
  exists id r,
    street_in_scope self src (locality_keys t) id /\
    r ∈ addr_obj_batch_query rt [id] src /\
    snd (flatten_groups rt (id_map l_objectid l_id (rows (localities t)))
           (group_streets (street_pairs_query (base_path self) src)))
      !! str (OBJECTID r) = Some (sv_locality_id v) /\
    v = street_params r (sv_locality_id v).
Proof.
  destruct batches_positive as (_ & Hpos & _).
  unfold street_stage_writes. rewrite elem_of_concat. split.
  - intros (W & (batch & -> & Hbatch)%list_elem_of_fmap & Hv).
    apply street_batch_writes_in in Hv as (r & Hr & Hl & Hv).
    apply addr_obj_batch_query_in in Hr as (id & Hid & Hr).
    exists id, r. split; [|done]. apply all_streets_in_scope.
    apply (elem_of_chunks (street_batch_size self)); [done|]. by exists batch.
  - intros (id & r & Hid%all_streets_in_scope & Hr & Hl & Hv).
    apply (elem_of_chunks (street_batch_size self)) in Hid as (batch & Hbatch & Hid); [|done].
    eexists. split; [apply list_elem_of_fmap; by exists batch|].
    apply street_batch_writes_in. exists r. split; [|done].
    apply addr_obj_batch_query_in. by exists id.
Qed.

Lemma street_stage_keys (t : Target) (k : Z) :
  k ∈ map sv_objectid (street_stage_writes rt self src t) <->
  street_key_written rt self src (locality_keys t) k.
Proof.
  destruct rt_fair as [Hset _].
  rewrite list_elem_of_fmap. unfold street_key_written. split.
  - intros (v & -> & (id & r & Hid & Hr & Hl & ->)%street_stage_writes_in). simpl.
    split; [by exists id, r|].
    apply all_streets_in_scope, flatten_groups_dom; [done|]. by rewrite Hl.
  - intros [(id & r & Hid & Hr & <-) Hk].
    apply all_streets_in_scope, flatten_groups_dom in Hk as [i Hi]; [|done].
    exists (street_params r i). split; [done|].
    apply street_stage_writes_in. by exists id, r.
Qed.

Lemma all_buildings_in_scope (t : Target) (s : string) :
  s ∈ fst (flatten_groups rt (id_map s_objectid s_id (rows (streets t)))
             (group_buildings (id_map s_objectid s_id (rows (streets t)))
                (building_paths_query (base_path self) src))) <->
  building_in_scope self src (street_keys t) s.
Proof.
  destruct rt_fair as [Hset _].
  rewrite flatten_groups_in by done. unfold building_in_scope, street_keys.
  setoid_rewrite group_buildings_in. setoid_rewrite id_map_dom_keys. split.
  - intros (l & (row & Hrow & <- & <- & Hl) & _). by exists row.
  - intros (row & Hrow & <- & Hl). exists (bp_street_id row). split; [|done]. by exists row.
Qed.

Lemma building_stage_writes_in (t : Target) (v : building_values) :
  v ∈ building_stage_writes rt self src t <->
  exists id r,
    building_in_scope self src (street_keys t) id /\
    r ∈ houses_batch_query rt [id] src /\
    building_record
      (snd (flatten_groups rt (id_map s_objectid s_id (rows (streets t)))
              (group_buildings (id_map s_objectid s_id (rows (streets t)))
                 (building_paths_query (base_path self) src)))) r = Some v.
Proof.
  destruct batches_positive as (_ & _ & Hpos).
  unfold building_stage_writes. rewrite elem_of_concat. split.
  - intros (W & (batch & -> & Hbatch)%list_elem_of_fmap & Hv).
    apply building_batch_writes_in in Hv as (r & Hr & Hv).
    apply houses_batch_query_in in Hr as (id & Hid & Hr).
    exists id, r. split; [|done]. apply all_buildings_in_scope.
    apply (elem_of_chunks (building_batch_size self)); [done|]. by exists batch.
  - intros (id & r & Hid%all_buildings_in_scope & Hr & Hv).
    apply (elem_of_chunks (building_batch_size self)) in Hid as (batch & Hbatch & Hid); [|done].
    eexists. split; [apply list_elem_of_fmap; by exists batch|].
    apply building_batch_writes_in. exists r. split; [|done].
    apply houses_batch_query_in. by exists id.
Qed.

Lemma building_record_Some street_ids (r : house_record) (v : building_values) :
  building_record street_ids r = Some v <->
  street_ids !! str (hr_OBJECTID r) = Some (bv_street_id v) /\
  v = {| bv_objectid := hr_OBJECTID r; bv_objectguid := hr_OBJECTGUID r;
         bv_house_num := or_empty (hr_HOUSENUM r); bv_add_num1 := or_empty (hr_ADDNUM1 r);
         bv_add_num2 := or_empty (hr_ADDNUM2 r); bv_housetype := hr_HOUSETYPE r;
         bv_path_octets := hr_PATH r; bv_street_id := bv_street_id v |}.
Proof.
  unfold building_record. destruct (street_ids !! str (hr_OBJECTID r)) as [i|]; split.
  - intros [= <-]. done.
  - intros [[= <-] ->]. done.
  - done.
  - by intros [? _].
Qed.

Lemma building_stage_keys (t : Target) (k : Z) :
  k ∈ map bv_objectid (building_stage_writes rt self src t) <->
  building_key_written rt self src (street_keys t) k.
Proof.
  destruct rt_fair as [Hset _].
  rewrite list_elem_of_fmap. unfold building_key_written. split.
  - intros (v & -> & (id & r & Hid & Hr & [Hl ->]%building_record_Some)%building_stage_writes_in).
    simpl. split; [by exists id, r|].
    apply all_buildings_in_scope, flatten_groups_dom; [done|]. by rewrite Hl.
  - intros [(id & r & Hid & Hr & <-) Hk].
    apply all_buildings_in_scope, flatten_groups_dom in Hk as [i Hi]; [|done].
    destruct (building_record
                (snd (flatten_groups rt (id_map s_objectid s_id (rows (streets t)))
                        (group_buildings (id_map s_objectid s_id (rows (streets t)))
                           (building_paths_query (base_path self) src)))) r) as [v|] eqn:Hv.
    + exists v. split.
      * apply building_record_Some in Hv as [_ ->]. done.
      * apply building_stage_writes_in. by exists id, r.
    + unfold building_record in Hv. by rewrite Hi in Hv.
Qed.

End Keys.


(* ================================================================== *)
(** * Idempotence of the conversion *)
(* ================================================================== *)

(** ** The key columns under the three statements *)

Lemma localities_written_keys wl t :
  (forall k, k ∈ locality_keys (executed insert_locality wl t) <->
             k ∈ locality_keys t \/ k ∈ map lv_objectid wl) /\
  (NoDup (locality_keys t) -> NoDup (locality_keys (executed insert_locality wl t))) /\
  (Forall (fun v => lv_objectid v ∈ locality_keys t) wl ->
   locality_keys (executed insert_locality wl t) = locality_keys t) /\
  street_keys (executed insert_locality wl t) = street_keys t /\
  building_keys (executed insert_locality wl t) = building_keys t.
Proof.
  pose proof (fun v t => proj1 (insert_locality_keys v t)) as Hcol.
  split; [intros k; by apply (executed_col insert_locality locality_keys lv_objectid)|].
  split; [by apply (executed_NoDup insert_locality locality_keys lv_objectid)|].
  split; [by apply (executed_col_known insert_locality locality_keys lv_objectid)|].
  split; apply (executed_other insert_locality); intros v t'; apply insert_locality_keys.
Qed.

Lemma streets_written_keys ws t :
  (forall k, k ∈ street_keys (executed insert_street ws t) <->
             k ∈ street_keys t \/ k ∈ map sv_objectid ws) /\
  (NoDup (street_keys t) -> NoDup (street_keys (executed insert_street ws t))) /\
  (Forall (fun v => sv_objectid v ∈ street_keys t) ws ->
   street_keys (executed insert_street ws t) = street_keys t) /\
  locality_keys (executed insert_street ws t) = locality_keys t /\
  building_keys (executed insert_street ws t) = building_keys t.
Proof.
  pose proof (fun v t => proj1 (insert_street_keys v t)) as Hcol.
  split; [intros k; by apply (executed_col insert_street street_keys sv_objectid)|].
  split; [by apply (executed_NoDup insert_street street_keys sv_objectid)|].
  split; [by apply (executed_col_known insert_street street_keys sv_objectid)|].
  split; apply (executed_other insert_street); intros v t'; apply insert_street_keys.
Qed.

Lemma buildings_written_keys wb t :
  (forall k, k ∈ building_keys (executed insert_building wb t) <->
             k ∈ building_keys t \/ k ∈ map bv_objectid wb) /\
  (NoDup (building_keys t) -> NoDup (building_keys (executed insert_building wb t))) /\
  (Forall (fun v => bv_objectid v ∈ building_keys t) wb ->
   building_keys (executed insert_building wb t) = building_keys t) /\
  locality_keys (executed insert_building wb t) = locality_keys t /\
  street_keys (executed insert_building wb t) = street_keys t.
Proof.
  pose proof (fun v t => proj1 (insert_building_keys v t)) as Hcol.
  split; [intros k; by apply (executed_col insert_building building_keys bv_objectid)|].
  split; [by apply (executed_NoDup insert_building building_keys bv_objectid)|].
  split; [by apply (executed_col_known insert_building building_keys bv_objectid)|].
  split; apply (executed_other insert_building); intros v t'; apply insert_building_keys.
Qed.

Lemma converted_unique wl ws wb t :
  unique_objectids t -> unique_objectids (converted wl ws wb t).
Proof.
  intros (Hl & Hs & Hb). unfold converted, unique_objectids.
  destruct (localities_written_keys wl t) as (_ & Hl1 & _ & Hs1 & Hb1).
  destruct (streets_written_keys ws (executed insert_locality wl t)) as (_ & Hs2 & _ & Hl2 & Hb2).
  destruct (buildings_written_keys wb (executed insert_street ws (executed insert_locality wl t)))
    as (_ & Hb3 & _ & Hl3 & Hs3).
  rewrite Hl3, Hl2, Hs3. split; [auto|]. split.
  - apply Hs2. by rewrite Hs1.
  - apply Hb3. rewrite Hb2, Hb1. done.
Qed.

Lemma converted_keys wl ws wb t :
  locality_keys (converted wl ws wb t) = locality_keys (executed insert_locality wl t) /\
  street_keys (converted wl ws wb t)
  = street_keys (executed insert_street ws (executed insert_locality wl t)) /\
  (forall k, k ∈ map lv_objectid wl -> k ∈ locality_keys (converted wl ws wb t)) /\
  (forall k, k ∈ map sv_objectid ws -> k ∈ street_keys (converted wl ws wb t)) /\
  (forall k, k ∈ map bv_objectid wb -> k ∈ building_keys (converted wl ws wb t)).
Proof.
  unfold converted.
  destruct (localities_written_keys wl t) as (Hl0 & _ & _ & Hs1 & Hb1).
  destruct (streets_written_keys ws (executed insert_locality wl t)) as (Hs0 & _ & _ & Hl2 & Hb2).
  destruct (buildings_written_keys wb (executed insert_street ws (executed insert_locality wl t)))
    as (Hb0 & _ & _ & Hl3 & Hs3).
  rewrite Hl3, Hl2, Hs3. split; [done|]. split; [done|].
  split; [intros k Hk; apply Hl0; by right|].
  split; [intros k Hk; apply Hs0; by right|].
  intros k Hk. apply Hb0. by right.
Qed.

(** Writes whose keys are all present leave the key columns as they are. *)
Lemma converted_known wl ws wb t :
  Forall (fun v => lv_objectid v ∈ locality_keys t) wl ->
  Forall (fun v => sv_objectid v ∈ street_keys t) ws ->
  Forall (fun v => bv_objectid v ∈ building_keys t) wb ->
  locality_keys (converted wl ws wb t) = locality_keys t /\
  street_keys (converted wl ws wb t) = street_keys t /\
  building_keys (converted wl ws wb t) = building_keys t.
Proof.
  intros Hwl Hws Hwb. unfold converted.
  destruct (localities_written_keys wl t) as (_ & _ & Hl1 & Hs1 & Hb1).
  destruct (streets_written_keys ws (executed insert_locality wl t)) as (_ & _ & Hs2 & Hl2 & Hb2).
  destruct (buildings_written_keys wb (executed insert_street ws (executed insert_locality wl t)))
    as (_ & _ & Hb3 & Hl3 & Hs3).
  rewrite Hl3, Hl2, Hl1 by done. rewrite Hs3, Hs2, Hs1 by (by rewrite Hs1).
  rewrite Hb3, Hb2, Hb1 by (by rewrite Hb2, Hb1). done.
Qed.

Lemma keys_length {R} (key : R -> Z) (l l' : list R) :
  map key l = map key l' -> length l = length l'.
Proof. intros H. by rewrite <- (length_map key l), H, length_map. Qed.

(** ** Two runtimes that differ in the orders they choose *)

Lemma locality_stage_writes_agree rt1 rt2 self src :
  sql_eq_num rt2 = sql_eq_num rt1 -> str_lower rt2 = str_lower rt1 ->
  locality_stage_writes rt2 self src = locality_stage_writes rt1 self src.
Proof. destruct rt1, rt2. simpl. intros -> ->. reflexivity. Qed.

Lemma street_key_written_agree rt1 rt2 self src keys k :
  sql_eq_num rt2 = sql_eq_num rt1 ->
  street_key_written rt2 self src keys k <-> street_key_written rt1 self src keys k.
Proof. destruct rt1, rt2. simpl. intros ->. reflexivity. Qed.

Lemma building_key_written_agree rt1 rt2 self src keys k :
  sql_eq_num rt2 = sql_eq_num rt1 ->
  building_key_written rt2 self src keys k <-> building_key_written rt1 self src keys k.
Proof. destruct rt1, rt2. simpl. intros ->. reflexivity. Qed.

Lemma nil_iff_no_key {V} (key : V -> Z) (l : list V) :
  l = [] <-> forall k, k ∉ map key l.
Proof.
  split; [intros -> k; apply not_elem_of_nil|].
  intros H. destruct l as [|v l]; [done|]. destruct (H (key v)). by left.
Qed.

Section Rerun.

Context (rt1 rt2 : Runtime) (self : GarConverter) (src : Source).
Hypothesis fair1 : fair rt1.
Hypothesis fair2 : fair rt2.
Hypothesis same_sql : sql_eq_num rt2 = sql_eq_num rt1.
Hypothesis same_lower : str_lower rt2 = str_lower rt1.
Hypothesis batches_positive : positive_batches self.

(** What the second of two runs without faults binds is already there. *)
Lemma rerun_writes_known (t0 : Target) wl1 ws1 wb1 wl2 ws2 wb2 :
  (wl1, ws1, wb1) = conversion_writes rt1 self src t0 ->
  (wl2, ws2, wb2) = conversion_writes rt2 self src (converted wl1 ws1 wb1 t0) ->
  Forall (fun v => lv_objectid v ∈ locality_keys (converted wl1 ws1 wb1 t0)) wl2 /\
  Forall (fun v => sv_objectid v ∈ street_keys (converted wl1 ws1 wb1 t0)) ws2 /\
  Forall (fun v => bv_objectid v ∈ building_keys (converted wl1 ws1 wb1 t0)) wb2.
Proof.
  unfold conversion_writes.
  rewrite (locality_stage_writes_agree rt1 rt2) by done.
  destruct (objects_query (base_path self) src) as [|object objects].
  { intros _ [= -> -> ->]. done. }
  destruct (locality_stage_writes rt1 self src) as [|lv wl'] eqn:HL.
  { intros _ [= -> -> ->]. done. }
  set (L := lv :: wl').
  set (tA := executed insert_locality L t0).
  intros H1.
  assert (wl1 = L) as Hwl1 by (destruct (street_stage_writes rt1 self src tA); by injection H1).
  set (t1 := converted wl1 ws1 wb1 t0).
  destruct (converted_keys wl1 ws1 wb1 t0) as (HkL & HkS & HinL & HinS & HinB).
  fold t1 in HkL, HkS, HinL, HinS, HinB.
  assert (Forall (fun v => lv_objectid v ∈ locality_keys t1) L) as HLknown.
  { apply Forall_forall. intros v Hv. apply HinL. rewrite Hwl1. by apply list_elem_of_fmap_2. }
  set (tB := executed insert_locality L t1).
  destruct (localities_written_keys L t1) as (_ & _ & HlB & HsB & HbB).
  assert (locality_keys tB = locality_keys tA) as HlAB.
  { unfold tB. rewrite HlB by done. rewrite HkL, Hwl1. done. }
  assert (forall k, k ∈ map sv_objectid (street_stage_writes rt2 self src tB) <->
                    k ∈ map sv_objectid (street_stage_writes rt1 self src tA)) as HSkeys.
  { intros k. rewrite !street_stage_keys by done. rewrite HlAB.
    by apply street_key_written_agree. }
  destruct (street_stage_writes rt2 self src tB) as [|sv2 ws2'] eqn:HSB.
  { intros [= -> -> ->]. done. }
  destruct (street_stage_writes rt1 self src tA) as [|sv1 ws1'] eqn:HSA.
  { assert (sv_objectid sv2 ∈ map sv_objectid ([] : list street_values)) as Hin
      by (apply HSkeys; by left).
    by apply elem_of_nil in Hin. }
  set (SA := sv1 :: ws1') in *. set (SB := sv2 :: ws2') in *.
  injection H1 as _ Hws1 Hwb1.
  intros [= -> -> ->].
  assert (Forall (fun v => sv_objectid v ∈ street_keys t1) SB) as HSknown.
  { apply Forall_forall. intros v Hv. apply HinS. rewrite Hws1.
    apply HSkeys. by apply list_elem_of_fmap_2. }
  split; [done|]. split; [done|].
  set (tA2 := executed insert_street SA tA) in *.
  destruct (streets_written_keys SB tB) as (_ & _ & Hs2 & _ & _).
  assert (street_keys (executed insert_street SB tB) = street_keys tA2) as HsAB.
  { subst tB. rewrite Hs2 by (by rewrite HsB). rewrite HsB, HkS, Hws1, Hwl1. done. }
  apply Forall_forall. intros v Hv. apply HinB. rewrite Hwb1.
  apply building_stage_keys; [done|done|].
  cut (building_key_written rt1 self src (street_keys tA2) (bv_objectid v));
    [intros H; exact H|].
  rewrite <- HsAB. apply (building_key_written_agree rt1 rt2); [done|].
  apply building_stage_keys; [done|done|]. by apply list_elem_of_fmap_2.
Qed.

End Rerun.

Lemma triple_run (ff : bool) (S0 : Source) {A} (P : unit -> Target -> Prop) (m : M A) Q E
    (w : World) :
  triple ff S0 P m Q E ->
  source w = S0 -> (ff = true -> faults w = []) -> P tt (target w) ->
  match run m w with
  | (Return a, w') =>
      source w' = S0 /\ (ff = true -> faults w' = []) /\ Q a tt (target w')
  | (Raise e, w') => source w' = S0 /\ ff = false /\ E tt (target w')
  end.
Proof.
  intros H Hs Hf Hp. unfold run. specialize (H tt w Hs Hf Hp).
  destruct (m (tt, w)) as [[a|e] [[] w']]; done.
Qed.

(** Whatever the faults, a run leaves in the target what its stages wrote,
    each write an upsert. *)
Lemma run_conversion_converted (rt : Runtime) (self : GarConverter) (w : World) :
  exists ok w' wl ws wb,
    run (run_conversion rt self) w = (Return ok, w') /\
    source w' = source w /\
    target w' = converted wl ws wb (target w).
Proof.
  pose proof (triple_run false (source w) _ _ _ _ w
                (run_conversion_spec false (source w) rt self (target w)
                   (fun H => False_ind _ (Bool.diff_false_true H)))
                eq_refl (fun H => False_ind _ (Bool.diff_false_true H)) eq_refl) as H.
  destruct (run (run_conversion rt self) w) as [[ok|e] w']; [|by destruct H as (_ & _ & [])].
  destruct H as (Hs & _ & wl & ws & wb & Ht & _).
  by exists ok, w', wl, ws, wb.
Qed.

(** Without faults, what the stages wrote is [conversion_writes]. *)
Lemma run_conversion_fault_free (rt : Runtime) (self : GarConverter) (w : World) :
  fair rt -> faults w = [] ->
  exists ok w' wl ws wb,
    run (run_conversion rt self) w = (Return ok, w') /\
    source w' = source w /\ faults w' = [] /\
    target w' = converted wl ws wb (target w) /\
    (wl, ws, wb) = conversion_writes rt self (source w) (target w).
Proof.
  intros Hfair Hfaults.
  pose proof (triple_run true (source w) _ _ _ _ w
                (run_conversion_spec true (source w) rt self (target w) (fun _ => Hfair))
                eq_refl (fun _ => Hfaults) eq_refl) as H.
  destruct (run (run_conversion rt self) w) as [[ok|e] w']; [|by destruct H as (_ & ? & _)].
  destruct H as (Hs & Hf & wl & ws & wb & Ht & Hw).
  exists ok, w', wl, ws, wb. split; [done|]. split; [done|].
  split; [by apply Hf|]. split; [done|]. by apply Hw.
Qed.

(** C1. Every write of the pipeline is an upsert keyed on [objectid]:
    whatever the database faults, a run keeps [objectid] unique in the three
    tables; and when the pipeline is run a second time over the same source,
    both runs without faults, the second run leaves the [objectid] columns
    and the row counts of localities, streets and buildings as the first
    run left them. *)
Theorem idempotent_rerun :
  (forall (rt : Runtime) (self : GarConverter) (w : World),
     unique_objectids (target w) ->
     unique_objectids (target (snd (run (run_conversion rt self) w)))) /\
  (forall (rt1 rt2 : Runtime) (self : GarConverter) (w w' : World),
     fair rt1 -> fair rt2 ->
     sql_eq_num rt2 = sql_eq_num rt1 -> str_lower rt2 = str_lower rt1 ->
     positive_batches self ->
     faults w = [] ->
     source w' = source w ->
     target w' = target (snd (run (run_conversion rt1 self) w)) ->
     faults w' = [] ->
     let first := target (snd (run (run_conversion rt1 self) w)) in
     let second := target (snd (run (run_conversion rt2 self) w')) in
     (locality_keys second = locality_keys first /\
      street_keys second = street_keys first /\
      building_keys second = building_keys first) /\
     (length (rows (localities second)) = length (rows (localities first)) /\
      length (rows (streets second)) = length (rows (streets first)) /\
      length (rows (buildings second)) = length (rows (buildings first)))).
Proof.
  split.
  - intros rt self w Hunique.
    destruct (run_conversion_converted rt self w) as (ok & w' & wl & ws & wb & -> & _ & Ht).
    simpl. rewrite Ht. by apply converted_unique.
  - intros rt1 rt2 self w w' Hfair1 Hfair2 Hsql Hlower Hpos Hf Hsrc Htgt Hf' first second.
    subst first second.
    destruct (run_conversion_fault_free rt1 self w Hfair1 Hf)
      as (ok1 & w1 & wl1 & ws1 & wb1 & Hrun1 & Hs1 & Hf1 & Ht1 & Hw1).
    destruct (run_conversion_fault_free rt2 self w' Hfair2 Hf')
      as (ok2 & w2 & wl2 & ws2 & wb2 & Hrun2 & Hs2 & Hf2 & Ht2 & Hw2).
    rewrite Hrun1 in Htgt |- *. rewrite Hrun2. simpl in *.
    rewrite Hsrc, Htgt, Ht1 in Hw2. rewrite Ht2, Htgt, Ht1.
    destruct (rerun_writes_known rt1 rt2 self (source w) Hfair1 Hfair2 Hsql Hlower Hpos
                (target w) wl1 ws1 wb1 wl2 ws2 wb2 Hw1 Hw2) as (Hl & Hs & Hb).
    destruct (converted_known wl2 ws2 wb2 _ Hl Hs Hb) as (Hkl & Hks & Hkb).
    split; [done|].
    split; [by apply (keys_length l_objectid)|].
    split; [by apply (keys_length s_objectid)|by apply (keys_length b_objectid)].
Qed.

Lemma idempotent_rerun_witness :
  let w := Sample.world Sample.gar [] in
  let first := snd (run (run_conversion reference_runtime Sample.converter) w) in
  let second := snd (run (run_conversion reference_runtime Sample.converter) first) in
  unique_objectids (target first) /\
  length (rows (buildings (target second))) = 3%nat.
Proof.
  intros w first second. split.
  - apply (proj1 idempotent_rerun reference_runtime Sample.converter w).
    repeat split; apply NoDup_nil_2.
  - destruct (proj2 idempotent_rerun reference_runtime reference_runtime Sample.converter
                w first reference_runtime_fair reference_runtime_fair eq_refl eq_refl
                (init_positive_batches _ _) eq_refl eq_refl eq_refl eq_refl)
      as (_ & _ & _ & Hb).
    exact Hb.
Defined.


(* ================================================================== *)
(** * Failures inside a batch and inside a query *)
(* ================================================================== *)

(** C2 (the code departs from the claim). A locality batch of two rows
    whose second [INSERT] raises: the worker catches and prints the
    exception and the transaction is rolled back, so nothing of the batch
    is in the target, but the worker still returns the id appended before
    the failure.  The stage counts that id as processed and reconciles only
    the other one: locality 10 is reported and is in no table. *)
Theorem failing_batch_ids_stay_processed :
  let batch_world :=
    Sample.world Sample.gar [Succeeds; Succeeds; Succeeds; Fails (OtherError "connection lost")] in
  let batch_run :=
    run (_process_locality_batch reference_runtime ["10"; "11"] 0 1) batch_world in
  let stage_world :=
    Sample.world Sample.gar
      [Succeeds; Succeeds; Succeeds; Succeeds; Fails (OtherError "connection lost")] in
  let stage_run :=
    run (process_localities_parallel reference_runtime Sample.converter) stage_world in
  (fst batch_run = Return ["10"] /\
   target (snd batch_run) = Sample.empty_target /\
   log (snd batch_run)
   = [Print "Ошибка при обработке группы населенных пунктов 1: connection lost"]) /\
  (fst stage_run = Return 2%nat /\
   locality_keys (target (snd stage_run)) = [11%Z]).
Proof. vm_compute. done. Qed.

(** C10 (the code departs from the claim). A query that fails with a
    [SQLAlchemyError] makes [execute_with_retry] return [None] at the first
    attempt, with the error printed and no pause; the street stage reads
    that [None] as a failed stage and returns 0; the building stage calls
    [fetchall] on it and raises [AttributeError]. *)
Theorem none_result_raises_in_building_stage :
  let w := Sample.world Sample.gar [Fails (SQLAlchemyError "server has gone away")] in
  let attempt := run (execute_with_retry (target_query (fun t => rows (streets t)))) w in
  (fst attempt = Return None /\
   log (snd attempt) = [Print "Ошибка выполнения запроса: server has gone away"] /\
   faults (snd attempt) = []) /\
  fst (run (process_streets_parallel reference_runtime Sample.converter) w) = Return 0%nat /\
  fst (run (process_buildings_parallel reference_runtime Sample.converter) w)
  = Raise (AttributeError "'NoneType' object has no attribute 'fetchall'").
Proof. vm_compute. done. Qed.

(* ================================================================== *)
(** * The orchestrator *)
(* ================================================================== *)

Lemma run_bind {A B} (m : M A) (k : A -> M B) (w w1 : World) (a : A) :
  m (tt, w) = (Return a, (tt, w1)) ->
  bind m k (tt, w) = k a (tt, w1).
Proof. intros H. unfold bind. by rewrite H. Qed.

(** C5. Once the objects to convert have been found, [run_conversion]
    returns failure when the locality stage returns zero and when the
    street stage returns zero; when both return a positive count it returns
    success whatever count the building stage returns, zero included, and
    that count is in the report it prints. *)
Theorem zero_count_abort (rt : Runtime) (self : GarConverter) (w w1 w2 : World)
    (object : Z * string) (objects : list (Z * string)) (names : string * string) :
  execute_with_retry (source_query (objects_query (base_path self))) (tt, w)
  = (Return (Some (object :: objects)), (tt, w1)) ->
  region_and_district self (tt, w1) = (Return names, (tt, w2)) ->
  (forall w3,
     process_localities_parallel rt self (tt, w2) = (Return 0%nat, (tt, w3)) ->
     exists w', run (run_conversion rt self) w = (Return false, w')) /\
  (forall n w3 w4,
     process_localities_parallel rt self (tt, w2) = (Return (S n), (tt, w3)) ->
     process_streets_parallel rt self (tt, w3) = (Return 0%nat, (tt, w4)) ->
     exists w', run (run_conversion rt self) w = (Return false, w')) /\
  (forall n m k w3 w4 w5,
     process_localities_parallel rt self (tt, w2) = (Return (S n), (tt, w3)) ->
     process_streets_parallel rt self (tt, w3) = (Return (S m), (tt, w4)) ->
     process_buildings_parallel rt self (tt, w4) = (Return k, (tt, w5)) ->
     run (run_conversion rt self) w
     = (Return true, add_log (Print (completion_report (S n) (S m) k)) w5)).
Proof.
  intros Hobjects Hnames. unfold run, run_conversion, try_except.
  rewrite (run_bind _ _ _ _ _ Hobjects). rewrite (run_bind _ _ _ _ _ Hnames).
  split; [|split].
  - intros w3 Hl. rewrite (run_bind _ _ _ _ _ Hl). simpl. eauto.
  - intros n w3 w4 Hl Hs. rewrite (run_bind _ _ _ _ _ Hl), (run_bind _ _ _ _ _ Hs).
    simpl. eauto.
  - intros n m k w3 w4 w5 Hl Hs Hb.
    rewrite (run_bind _ _ _ _ _ Hl), (run_bind _ _ _ _ _ Hs), (run_bind _ _ _ _ _ Hb).
    reflexivity.
Qed.

Lemma zero_count_abort_witness :
  exists w',
    run (run_conversion reference_runtime Sample.converter)
      (Sample.world Sample.gar_without_houses [])
    = (Return true, w') /\
    head (log w') = Some (Print (completion_report 2 2 0)).
Proof.
  edestruct (zero_count_abort reference_runtime Sample.converter
               (Sample.world Sample.gar_without_houses [])) as (_ & _ & Hsuccess).
  - vm_compute. reflexivity.
  - vm_compute. reflexivity.
  - eexists. split.
    + eapply (Hsuccess 1%nat 1%nat 0%nat).
      * vm_compute. reflexivity.
      * vm_compute. reflexivity.
      * vm_compute. reflexivity.
    + reflexivity.
Defined.


(* ================================================================== *)
(** * The rows written by the street and building stages *)
(* ================================================================== *)

Lemma executed_building_rows (written : list building_values) (t : Target) (row : building_row) :
  row ∈ rows (buildings (executed insert_building written t)) ->
  row ∈ rows (buildings t) \/ exists v, v ∈ written /\ building_row_of v row.
Proof.
  induction written as [|v written IH] using rev_ind; [by left|].
  rewrite executed_snoc. unfold insert_building at 1. simpl. unfold upsert_building.
  intros [Hold|[->|(r0 & Hr0 & Hkey & ->)]]%upsert_rows.
  - destruct (IH Hold) as [?|(v' & Hv' & Hrow)]; [by left|].
    right. exists v'. split; [|done]. apply elem_of_app. by left.
  - right. exists v. split; [|done]. apply elem_of_app. right. by apply list_elem_of_singleton.
  - right. exists v. split; [apply elem_of_app; right; by apply list_elem_of_singleton|].
    unfold building_row_of. simpl. done.
Qed.

Lemma executed_street_rows (written : list street_values) (t : Target) (row : street_row) :
  row ∈ rows (streets (executed insert_street written t)) ->
  row ∈ rows (streets t) \/ exists v, v ∈ written /\ street_row_of v row.
Proof.
  induction written as [|v written IH] using rev_ind; [by left|].
  rewrite executed_snoc. unfold insert_street at 1. simpl. unfold upsert_street.
  intros [Hold|[->|(r0 & Hr0 & Hkey & ->)]]%upsert_rows.
  - destruct (IH Hold) as [?|(v' & Hv' & Hrow)]; [by left|].
    right. exists v'. split; [|done]. apply elem_of_app. by left.
  - right. exists v. split; [|done]. apply elem_of_app. right. by apply list_elem_of_singleton.
  - right. exists v. split; [apply elem_of_app; right; by apply list_elem_of_singleton|].
    unfold street_row_of. simpl. done.
Qed.

Lemma elem_of_flat_map {A B} (f : A -> list B) (l : list A) (y : B) :
  y ∈ flat_map f l <-> exists x, x ∈ l /\ y ∈ f x.
Proof.
  rewrite list_elem_of_In, in_flat_map. split; intros (x & H1 & H2); exists x;
    by rewrite ?list_elem_of_In in *.
Qed.

Lemma houses_batch_query_source rt batch src (r : house_record) :
  r ∈ houses_batch_query rt batch src ->
  exists h, h ∈ houses src /\
            hr_OBJECTID r = h_OBJECTID h /\ hr_HOUSENUM r = h_HOUSENUM h /\
            hr_HOUSETYPE r = h_HOUSETYPE h /\ hr_ADDNUM1 r = h_ADDNUM1 h /\
            hr_ADDNUM2 r = h_ADDNUM2 h.
Proof.
  unfold houses_batch_query.
  intros (p & -> & [Hp _]%elem_of_List_filter)%list_elem_of_fmap.
  unfold houses_join_mh in Hp. apply elem_of_flat_map in Hp as (h & Hh & Hp).
  apply list_elem_of_fmap in Hp as (mh & -> & _). by exists h.
Qed.

Lemma or_empty_default (x : option string) : or_empty x = default "" x.
Proof. by destruct x as [[|c s]|]. Qed.


Lemma not_fault_free : false = true -> forall P : Prop, P.
Proof. intros H. discriminate. Qed.

(** Whatever the faults, the building stage leaves behind the target it
    found, with some of the writes of a run without faults executed. *)
Lemma buildings_stage_run (rt : Runtime) (self : GarConverter) (w : World) :
  exists written,
    target (snd (run (process_buildings_parallel rt self) w))
    = executed insert_building written (target w) /\
    written ⊆ building_stage_writes rt self (source w) (target w).
Proof.
  pose proof (triple_run false (source w) _ _ _ _ w
                (buildings_stage_spec false (source w) rt self (target w)
                   (fun H => not_fault_free H _))
                eq_refl (fun H => not_fault_free H _) eq_refl) as H.
  destruct (run (process_buildings_parallel rt self) w) as [[n|e] w']; simpl.
  - destruct H as (_ & _ & written & Ht & Hsub & _). by exists written.
  - destruct H as (_ & _ & Ht). exists []. split; [done|apply list_subseteq_nil].
Qed.

Lemma streets_stage_run (rt : Runtime) (self : GarConverter) (w : World) :
  exists written,
    target (snd (run (process_streets_parallel rt self) w))
    = executed insert_street written (target w) /\
    written ⊆ street_stage_writes rt self (source w) (target w).
Proof.
  pose proof (triple_run false (source w) _ _ _ _ w
                (streets_stage_spec false (source w) rt self (target w)
                   (fun H => not_fault_free H _))
                eq_refl (fun H => not_fault_free H _) eq_refl) as H.
  destruct (run (process_streets_parallel rt self) w) as [[n|e] w']; simpl.
  - destruct H as (_ & _ & written & Ht & Hsub & _). by exists written.
  - destruct H as (_ & _ & Ht). exists []. split; [done|apply list_subseteq_nil].
Qed.

(** C8. Whatever the faults, a row that the building stage leaves in
    [buildings] and did not find there carries the values of a house of the
    source: [house_num], [add_num1] and [add_num2] are the source values
    with null replaced by the empty string, [housetype] is the source value
    as it is, null included, and [street_id] is the generated [id] of a
    street row of the target whose [objectid] is the street octet of a
    scanned hierarchy path that has the house's [objectid] as its building
    octet. *)
Theorem building_field_mapping (rt : Runtime) (self : GarConverter) (w : World)
    (row : building_row) :
  fair rt -> positive_batches self ->
  row ∈ rows (buildings (target (snd (run (process_buildings_parallel rt self) w)))) ->
  row ∈ rows (buildings (target w)) \/
  exists (h : house_row) (street : street_row) (scanned : building_path_row),
    h ∈ houses (source w) /\
    street ∈ rows (streets (target w)) /\
    scanned ∈ building_paths_query (base_path self) (source w) /\
    b_objectid row = h_OBJECTID h /\
    b_house_num row = Some (default "" (h_HOUSENUM h)) /\
    b_add_num1 row = Some (default "" (h_ADDNUM1 h)) /\
    b_add_num2 row = Some (default "" (h_ADDNUM2 h)) /\
    b_housetype row = h_HOUSETYPE h /\
    bp_building_id scanned = str (h_OBJECTID h) /\
    bp_street_id scanned = str (s_objectid street) /\
    b_street_id row = s_id street.
Proof.
  intros Hfair Hpos Hrow.
  destruct (buildings_stage_run rt self w) as (written & Ht & Hsub).
  rewrite Ht in Hrow.
  apply executed_building_rows in Hrow as [Hold|(v & Hv & Hfields)]; [by left|].
  right. apply Hsub in Hv.
  apply building_stage_writes_in in Hv as (id & r & _ & Hr & Hrecord); [|done|done].
  apply building_record_Some in Hrecord as [Hlookup Hveq].
  destruct Hfair as [Hset _].
  apply flatten_groups_lookup in Hlookup as (street_id & Hgroup & Hstreet); [|done].
  apply group_buildings_in in Hgroup as (scanned & Hscanned & Hsid & Hbid & _).
  apply id_map_lookup in Hstreet as (street & Hstreet_row & Hstreet_key & Hstreet_id).
  apply houses_batch_query_source in Hr as (h & Hh & Ho & Hn & Ht' & Ha1 & Ha2).
  destruct Hfields as (F1 & _ & F3 & F4 & F5 & F6 & _ & F8).
  rewrite Hveq in F1, F3, F4, F5, F6. simpl in F1, F3, F4, F5, F6.
  rewrite !or_empty_default in *.
  exists h, street, scanned.
  split; [done|]. split; [done|]. split; [done|].
  split; [congruence|]. split; [congruence|]. split; [congruence|]. split; [congruence|].
  split; [congruence|]. split; [congruence|]. split; [congruence|]. congruence.
Qed.

Lemma building_field_mapping_witness :
  let w := snd (run (process_streets_parallel reference_runtime Sample.converter)
             (snd (run (process_localities_parallel reference_runtime Sample.converter)
                     (Sample.world Sample.gar [])))) in
  let row := {| b_id := 2; b_street_id := 1; b_objectid := 31; b_objectguid := "guid-31";
                b_house_num := Some ""; b_add_num1 := Some ""; b_add_num2 := Some "2";
                b_housetype := None; b_addtype1 := None; b_addtype2 := None;
                b_path_octets := "1.2.10.20.31" |} in
  exists (h : house_row) (street : street_row),
    h ∈ houses (source w) /\ street ∈ rows (streets (target w)) /\
    h_HOUSENUM h = None /\ b_house_num row = Some "" /\
    b_street_id row = s_id street /\ s_objectid street = 20%Z.
Proof.
  intros w row.
  destruct (building_field_mapping reference_runtime Sample.converter w row
              reference_runtime_fair (init_positive_batches _ _))
    as [Hold|(h & street & scanned & Hh & Hstreet & Hscanned & Ho & Hn & _ & _ & _ & Hb & Hs & Hid)].
  - vm_compute. right. left.
  - vm_compute in Hold. by apply elem_of_nil in Hold.
  - exists h, street. split; [done|]. split; [done|].
    assert (h = Sample.house 31 None) as ->.
    { vm_compute in Hh. simpl in Ho.
      apply elem_of_cons in Hh as [->|Hh]; [discriminate|].
      apply elem_of_cons in Hh as [->|Hh]; [reflexivity|].
      apply elem_of_cons in Hh as [->|Hh]; [discriminate|].
      by apply elem_of_nil in Hh. }
    split; [reflexivity|]. split; [reflexivity|]. split; [done|].
    vm_compute in Hstreet. simpl in Hid.
    apply elem_of_cons in Hstreet as [->|Hstreet]; [reflexivity|].
    apply elem_of_cons in Hstreet as [->|Hstreet]; [discriminate|].
    by apply elem_of_nil in Hstreet.
Defined.


(* ================================================================== *)
(** * The input of the street stage *)
(* ================================================================== *)





(* ================================================================== *)
(** * Reconciliation *)
(* ================================================================== *)

Lemma format_012d_nonneg (n : Z) :
  (0 <= n)%Z -> format_012d n = zeros (12 - String.length (str n)) +:+ str n.
Proof.
  intros Hn. unfold format_012d.
  destruct (Z.ltb_spec n 0) as [?|_]; [lia|]. by rewrite Z.abs_eq.
Qed.

Lemma split_parent_path_of (path : string) :
  (2 <= length (split "." path))%nat ->
  split "." (parent_path_of path) = but_last (split "." path).
Proof.
  intros Hlen. unfold parent_path_of. apply split_join.
  - unfold but_last. destruct (split "." path) as [|x [|y l]]; simpl in *; [lia|lia|done].
  - unfold but_last. apply Forall_take, split_no_delim.
Qed.

Lemma reconcile_record_run (rt : Runtime) (w : World) (mh_record : Z * string) :
  faults w = [] ->
  fst (run (reconcile_record rt mh_record) w) = Return (reconciled rt (source w) mh_record) /\
  target (snd (run (reconcile_record rt mh_record) w)) = target w.
Proof.
  intros Hfaults.
  pose proof (triple_run true (source w) (fun _ t => t = target w) _ _ _ w
                (reconcile_record_spec true (source w) rt mh_record)
                eq_refl (fun _ => Hfaults) eq_refl) as H.
  destruct (run (reconcile_record rt mh_record) w) as [[found|e] w']; simpl.
  - destruct H as (_ & _ & Ht & Hfound). by rewrite Hfound.
  - by destruct H as (_ & ? & _).
Qed.

(** C7 (as amended). In a run without faults, reconciliation binds, for a
    hierarchy record whose [OBJECTID] has no address object, one row and
    changes nothing in the target. The row carries the id and the path of
    the record, the name [Объект <id>] and the placeholder GUID, which is
    the zero prefix followed by the id padded with zeros to twelve digits.
    Its type name depends on the first address object at the parent path
    (the octets of the path but the last) only: when there is none it is
    [неизвестно], and otherwise the parent's type name is put to lower
    case and gives [микрорайон] when it contains [город], else [поселок]
    when it contains [район], else [населенный пункт]. *)
Theorem reconciliation_determinism (rt : Runtime) (w : World) (objectid : Z) (path : string) :
  faults w = [] ->
  ao_by_objectid_query objectid (source w) = [] ->
  exists v,
    fst (run (reconcile_record rt (objectid, path)) w) = Return [v] /\
    target (snd (run (reconcile_record rt (objectid, path)) w)) = target w /\
    lv_objectid v = objectid /\
    lv_path_octets v = path /\
    lv_name v = "Объект " +:+ str objectid /\
    lv_objectguid v = "00000000-0000-0000-0000-" +:+ format_012d objectid /\
    ((0 <= objectid)%Z ->
     format_012d objectid = zeros (12 - String.length (str objectid)) +:+ str objectid) /\
    ((2 <= length (split "." path))%nat ->
     split "." (parent_path_of path) = but_last (split "." path)) /\
    lv_typename v =
      match head (parent_query (parent_path_of path) (source w)) with
      | None => "неизвестно"
      | Some parent =>
          if contains "город" (str_lower rt (snd parent)) then "микрорайон"
          else if contains "район" (str_lower rt (snd parent)) then "поселок"
          else "населенный пункт"
      end.
Proof.
  intros Hfaults Hao.
  destruct (reconcile_record_run rt w (objectid, path) Hfaults) as [Hrun Htarget].
  unfold reconciled in Hrun. simpl in Hrun. rewrite Hao in Hrun.
  eexists. split; [exact Hrun|]. split; [exact Htarget|]. simpl.
  split; [done|]. split; [done|]. split; [done|]. split; [done|].
  split; [apply format_012d_nonneg|]. split; [apply split_parent_path_of|]. done.
Qed.

Lemma reconciliation_determinism_witness :
  exists v,
    fst (run (reconcile_record reference_runtime (40, "1.2.40")%Z)
           (Sample.world Sample.gar_orphan_city [])) = Return [v] /\
    lv_typename v = "микрорайон" /\
    lv_objectguid v = "00000000-0000-0000-0000-000000000040".
Proof.
  destruct (reconciliation_determinism reference_runtime
              (Sample.world Sample.gar_orphan_city []) 40 "1.2.40" eq_refl eq_refl)
    as (v & Hrun & _ & _ & _ & _ & Hguid & _ & _ & Htypename).
  exists v. split; [exact Hrun|]. split.
  - rewrite Htypename. vm_compute. reflexivity.
  - rewrite Hguid. vm_compute. reflexivity.
Defined.

(** The record 50 has no address object and neither has its parent path:
    the type name of the synthesised row is none of the three of the
    table. *)
Lemma orphan_of_unknown_parent :
  ao_by_objectid_query 50 Sample.gar_orphan = [] /\
  exists v w',
    run (reconcile_record reference_runtime (50, "1.2.50")%Z)
      (Sample.world Sample.gar_orphan []) = (Return [v], w') /\
    lv_typename v = "неизвестно" /\
    lv_typename v <> "микрорайон" /\
    lv_typename v <> "поселок" /\
    lv_typename v <> "населенный пункт".
Proof.
  split; [reflexivity|]. eexists. eexists. split; [vm_compute; reflexivity|].
  simpl. repeat split; discriminate.
Qed.


(* ================================================================== *)
(** * The orchestrator, stage by stage *)
(* ================================================================== *)

Section Orchestrator.

Context (ff : bool) (S0 : Source) (rt : Runtime) (self : GarConverter).

(** What [run_conversion] leaves behind, whatever the faults: the writes
    of the three stages, those of the street and building stages taken
    from what these stages write without faults on the target each of them
    started from. *)
Lemma run_conversion_stages (t0 : Target) :
  (ff = true -> fair rt) ->
  triple ff S0 (fun _ t => t = t0) (run_conversion rt self)
    (fun ok _ t =>
       exists wl ws wb,
         t = converted wl ws wb t0 /\
         ws ⊆ street_stage_writes rt self S0 (executed insert_locality wl t0) /\
         wb ⊆ building_stage_writes rt self S0
                (executed insert_street ws (executed insert_locality wl t0)) /\
         (ff = true -> (wl, ws, wb) = conversion_writes rt self S0 t0 /\
                       (ok = true <-> ws <> [])))
    (fun _ _ => False).
Proof.
  intros Hfair. unfold run_conversion, conversion_writes, converted.
  eapply triple_try with
    (E' := fun _ t =>
             exists wl ws wb,
               t = executed insert_building wb
                     (executed insert_street ws (executed insert_locality wl t0)) /\
               ws ⊆ street_stage_writes rt self S0 (executed insert_locality wl t0) /\
               wb ⊆ building_stage_writes rt self S0
                      (executed insert_street ws (executed insert_locality wl t0))).
  2: { intros e Hff. eapply triple_bind; [apply triple_print|]. intros ?.
       apply triple_ret. intros l t (wl & ws & wb & -> & Hws & Hwb).
       exists wl, ws, wb. split; [done|]. split; [done|]. split; [done|].
       intros ?; congruence. }
  assert (forall wl, ([] : list street_values)
                     ⊆ street_stage_writes rt self S0 (executed insert_locality wl t0))
    as Hnil_s by (intros; apply list_subseteq_nil).
  assert (forall t, ([] : list building_values) ⊆ building_stage_writes rt self S0 t)
    as Hnil_b by (intros; apply list_subseteq_nil).
  eapply triple_bind;
    [apply triple_source_query_sp; intros l t ->; exists [], [], []; by auto|].
  intros result. apply triple_pure. intros Hres.
  destruct result as [objects|].
  2: { eapply triple_bind; [apply triple_print|]. intros ?.
       apply triple_ret. intros l t ->. exists [], [], [].
       split; [done|]. split; [by auto|]. split; [by auto|].
       intros Hff. destruct Hres as [?|[? _]]; congruence. }
  assert (objects = objects_query (base_path self) S0) as Hobjects
      by (destruct Hres as [?|[_ ?]]; congruence).
  rewrite <- Hobjects. clear Hres Hobjects.
  destruct objects as [|object objects].
  { eapply triple_bind; [apply triple_print|]. intros ?.
    apply triple_ret. intros l t ->. exists [], [], [].
    split; [done|]. split; [by auto|]. split; [by auto|].
    intros _. split; [done|]. split; [done|]. by intros []. }
  eapply triple_bind;
    [eapply triple_weaken_exn; [apply region_and_district_spec|];
     intros l t ->; exists [], [], []; by auto|].
  intros ?.
  eapply triple_bind;
    [eapply triple_weaken_exn; [by apply localities_stage_spec|];
     intros l t ->; exists [], [], []; by auto|].
  intros localities_count. apply triple_exists. intros wl.
  apply triple_pre with
    (P' := fun (l : unit) t =>
             (ff = true -> wl = locality_stage_writes rt self S0 /\
                           localities_count = length wl) /\
             t = executed insert_locality wl t0);
    [|by intros l t [-> H]].
  apply triple_pure. intros Hwl.
  destruct localities_count as [|localities_count'].
  { eapply triple_bind; [apply triple_print|]. intros ?.
    apply triple_ret. intros l t ->. exists wl, [], [].
    split; [done|]. split; [by auto|]. split; [by auto|].
    intros Hff. destruct (Hwl Hff) as [<- Hlen].
    destruct wl; [|simpl in Hlen; lia]. split; [done|]. split; [done|]. by intros []. }
  set (t1 := executed insert_locality wl t0).
  eapply triple_bind;
    [eapply triple_weaken_exn; [by apply streets_stage_spec|];
     intros l t ->; exists wl, [], []; by auto|].
  intros streets_count. apply triple_exists. intros ws.
  apply triple_pre with
    (P' := fun (l : unit) t =>
             (ws ⊆ street_stage_writes rt self S0 t1 /\
              (ff = true -> ws = street_stage_writes rt self S0 t1 /\
                            streets_count = length ws)) /\
             t = executed insert_street ws t1);
    [|by intros l t (-> & H1 & H2)].
  apply triple_pure. intros [Hsub_s Hws].
  assert (ff = true ->
          exists v wl', locality_stage_writes rt self S0 = v :: wl' /\ wl = v :: wl') as Hwl'.
  { intros Hff. destruct (Hwl Hff) as [<- Hlen].
    destruct wl as [|v wl']; [simpl in Hlen; lia|]. by exists v, wl'. }
  destruct streets_count as [|streets_count'].
  { eapply triple_bind; [apply triple_print|]. intros ?.
    apply triple_ret. intros l t ->. exists wl, ws, [].
    split; [done|]. split; [done|]. split; [by auto|].
    intros Hff. destruct (Hwl' Hff) as (v & wl' & -> & Hwleq).
    destruct (Hws Hff) as [Hwseq Hlen].
    rewrite <- Hwleq. fold t1. rewrite <- Hwseq.
    destruct ws; [|simpl in Hlen; lia]. split; [done|]. split; [done|]. by intros []. }
  set (t2 := executed insert_street ws t1).
  eapply triple_bind;
    [eapply triple_weaken_exn; [by apply buildings_stage_spec|];
     intros l t ->; exists wl, ws, []; by auto|].
  intros buildings_count. apply triple_exists. intros wb.
  eapply triple_bind; [apply triple_print|]. intros ?.
  apply triple_ret. intros l t (-> & Hsub_b & Hwb).
  exists wl, ws, wb. split; [done|]. split; [done|]. split; [done|].
  intros Hff. destruct (Hwl' Hff) as (v & wl' & -> & Hwleq).
  destruct (Hws Hff) as [Hwseq Hlen]. destruct (Hwb Hff) as [Hwbeq _].
  rewrite <- Hwleq. fold t1. rewrite <- Hwseq.
  destruct ws as [|sv ws']; [simpl in Hlen; lia|]. fold t2. rewrite <- Hwbeq.
  split; [done|]. split; [done|]. by intros _.
Qed.

End Orchestrator.


(* ================================================================== *)
(** * Rows are kept: generated ids, keys and references *)
(* ================================================================== *)

Section UpsertIdentity.

Context {R X : Type} (key : R -> Z) (k : Z) (fresh : Z -> R) (update : R -> R)
        (proj : R -> X).
Hypothesis proj_update : forall r, proj (update r) = proj r.

Lemma upsert_proj (t : table R) :
  map proj (rows t) `prefix_of` map proj (rows (upsert key k fresh update t)).
Proof.
  unfold upsert. destruct (existsb _ (rows t)); simpl.
  - exists []. rewrite app_nil_r, map_map. apply map_ext. intros r.
    by destruct (key r =? k)%Z.
  - exists [proj (fresh (next_id t))]. by rewrite map_app.
Qed.

End UpsertIdentity.

Section ExecutedFrame.

Context {V X : Type} (statement : V -> Target -> Target).

Lemma executed_frame (f : Target -> X) vs t :
  (forall v t', f (statement v t') = f t') -> f (executed statement vs t) = f t.
Proof.
  intros Hf. revert t. induction vs as [|v vs IH]; intros t; [done|]. simpl.
  by rewrite IH, Hf.
Qed.

Lemma executed_prefix (f : Target -> list X) vs t :
  (forall v t', f t' `prefix_of` f (statement v t')) ->
  f t `prefix_of` f (executed statement vs t).
Proof.
  intros Hf. revert t. induction vs as [|v vs IH]; intros t; [done|]. simpl.
  etransitivity; [apply Hf|apply IH].
Qed.

End ExecutedFrame.

Lemma localities_kept wl t :
  map locality_identity (rows (localities t))
    `prefix_of` map locality_identity (rows (localities (executed insert_locality wl t))) /\
  streets (executed insert_locality wl t) = streets t /\
  buildings (executed insert_locality wl t) = buildings t.
Proof.
  split; [|split].
  - apply (executed_prefix insert_locality
             (fun t => map locality_identity (rows (localities t)))).
    intros v t'. simpl. unfold upsert_locality. by apply upsert_proj.
  - by apply (executed_frame insert_locality streets).
  - by apply (executed_frame insert_locality buildings).
Qed.

Lemma streets_kept ws t :
  map street_identity (rows (streets t))
    `prefix_of` map street_identity (rows (streets (executed insert_street ws t))) /\
  localities (executed insert_street ws t) = localities t /\
  buildings (executed insert_street ws t) = buildings t.
Proof.
  split; [|split].
  - apply (executed_prefix insert_street
             (fun t => map street_identity (rows (streets t)))).
    intros v t'. simpl. unfold upsert_street. by apply upsert_proj.
  - by apply (executed_frame insert_street localities).
  - by apply (executed_frame insert_street buildings).
Qed.

Lemma buildings_kept wb t :
  map building_identity (rows (buildings t))
    `prefix_of` map building_identity (rows (buildings (executed insert_building wb t))) /\
  localities (executed insert_building wb t) = localities t /\
  streets (executed insert_building wb t) = streets t.
Proof.
  split; [|split].
  - apply (executed_prefix insert_building
             (fun t => map building_identity (rows (buildings t)))).
    intros v t'. simpl. unfold upsert_building. by apply upsert_proj.
  - by apply (executed_frame insert_building localities).
  - by apply (executed_frame insert_building streets).
Qed.

Lemma converted_kept wl ws wb t :
  map locality_identity (rows (localities t))
    `prefix_of` map locality_identity (rows (localities (converted wl ws wb t))) /\
  map street_identity (rows (streets t))
    `prefix_of` map street_identity (rows (streets (converted wl ws wb t))) /\
  map building_identity (rows (buildings t))
    `prefix_of` map building_identity (rows (buildings (converted wl ws wb t))).
Proof.
  unfold converted.
  destruct (localities_kept wl t) as (Hl1 & Hl2 & Hl3).
  destruct (streets_kept ws (executed insert_locality wl t)) as (Hs1 & Hs2 & Hs3).
  destruct (buildings_kept wb (executed insert_street ws (executed insert_locality wl t)))
    as (Hb1 & Hb2 & Hb3).
  split; [|split].
  - by rewrite Hb2, Hs2.
  - by rewrite Hb3, <- Hl2.
  - by rewrite <- Hl3, <- Hs3.
Qed.

(** X1. Whatever the faults, [run_conversion] returns a boolean: no
    exception leaves it.  It leaves the source as it is, and in each table
    of the target the rows it found are still there, in their places, under
    the same generated [id] and the same [objectid]: rows are appended and
    their other columns updated, never deleted or renumbered. *)
Theorem conversion_keeps_rows (rt : Runtime) (self : GarConverter) (w : World) :
  let w' := snd (run (run_conversion rt self) w) in
  (exists ok, fst (run (run_conversion rt self) w) = Return ok) /\
  source w' = source w /\
  map locality_identity (rows (localities (target w)))
    `prefix_of` map locality_identity (rows (localities (target w'))) /\
  map street_identity (rows (streets (target w)))
    `prefix_of` map street_identity (rows (streets (target w'))) /\
  map building_identity (rows (buildings (target w)))
    `prefix_of` map building_identity (rows (buildings (target w'))).
Proof.
  destruct (run_conversion_converted rt self w) as (ok & w' & wl & ws & wb & Hrun & Hs & Ht).
  rewrite Hrun. simpl. split; [by exists ok|]. split; [done|].
  rewrite Ht. apply converted_kept.
Qed.

(** ** The foreign keys *)

Lemma prefix_of_elem_of {A} (l1 l2 : list A) (x : A) :
  l1 `prefix_of` l2 -> x ∈ l1 -> x ∈ l2.
Proof. intros [k ->] Hx. apply elem_of_app. by left. Qed.

Lemma identity_ids {R} (id objectid : R -> Z) (l1 l2 : list R) (i : Z) :
  map (fun r => (id r, objectid r)) l1 `prefix_of` map (fun r => (id r, objectid r)) l2 ->
  i ∈ map id l1 -> i ∈ map id l2.
Proof.
  intros Hpre (r & -> & Hr)%list_elem_of_fmap.
  assert ((id r, objectid r) ∈ map (fun r => (id r, objectid r)) l2) as Hin.
  { eapply prefix_of_elem_of; [done|]. apply list_elem_of_fmap. by exists r. }
  apply list_elem_of_fmap in Hin as (r' & [= -> _] & Hr').
  apply list_elem_of_fmap. by exists r'.
Qed.

Lemma executed_locality_rows (written : list locality_values) (t : Target) (row : locality_row) :
  row ∈ rows (localities (executed insert_locality written t)) ->
  row ∈ rows (localities t) \/ exists v, v ∈ written /\ locality_row_of v row.
Proof.
  induction written as [|v written IH] using rev_ind; [by left|].
  rewrite executed_snoc. unfold insert_locality at 1. simpl. unfold upsert_locality.
  intros [Hold|[->|(r0 & Hr0 & Hkey & ->)]]%upsert_rows.
  - destruct (IH Hold) as [?|(v' & Hv' & Hrow)]; [by left|].
    right. exists v'. split; [|done]. apply elem_of_app. by left.
  - right. exists v. split; [|done]. apply elem_of_app. right. by apply list_elem_of_singleton.
  - right. exists v. split; [apply elem_of_app; right; by apply list_elem_of_singleton|].
    unfold locality_row_of. simpl. done.
Qed.

Section References.

Context (rt : Runtime) (self : GarConverter) (src : Source).
Hypothesis rt_fair : fair rt.
Hypothesis batches_positive : positive_batches self.

Lemma street_writes_refer (t : Target) (v : street_values) :
  v ∈ street_stage_writes rt self src t ->
  sv_locality_id v ∈ map l_id (rows (localities t)).
Proof.
  intros (id & r & _ & _ & Hlookup & _)%street_stage_writes_in; [|done|done].
  destruct rt_fair as [Hset _].
  apply flatten_groups_lookup in Hlookup as (l & _ & Hl); [|done].
  apply id_map_lookup in Hl as (row & Hrow & _ & <-).
  apply list_elem_of_fmap. by exists row.
Qed.

Lemma building_writes_refer (t : Target) (v : building_values) :
  v ∈ building_stage_writes rt self src t ->
  bv_street_id v ∈ map s_id (rows (streets t)).
Proof.
  intros (id & r & _ & _ & Hrecord)%building_stage_writes_in; [|done|done].
  apply building_record_Some in Hrecord as [Hlookup _].
  destruct rt_fair as [Hset _].
  apply flatten_groups_lookup in Hlookup as (l & _ & Hl); [|done].
  apply id_map_lookup in Hl as (row & Hrow & _ & <-).
  apply list_elem_of_fmap. by exists row.
Qed.

Lemma references_after_stages (t : Target) wl ws wb :
  references_valid t ->
  ws ⊆ street_stage_writes rt self src (executed insert_locality wl t) ->
  wb ⊆ building_stage_writes rt self src
         (executed insert_street ws (executed insert_locality wl t)) ->
  references_valid (converted wl ws wb t).
Proof.
  intros [Hstreets Hbuildings] Hws Hwb. unfold converted.
  set (t1 := executed insert_locality wl t) in *.
  set (t2 := executed insert_street ws t1) in *.
  destruct (localities_kept wl t) as (Hl1 & Hl2 & Hl3). fold t1 in Hl1, Hl2, Hl3.
  destruct (streets_kept ws t1) as (Hs1 & Hs2 & Hs3). fold t2 in Hs1, Hs2, Hs3.
  destruct (buildings_kept wb t2) as (Hb1 & Hb2 & Hb3).
  split.
  - intros street. rewrite Hb3, Hb2, Hs2.
    intros [Hold|(v & Hv & Hrow)]%executed_street_rows.
    + rewrite Hl2 in Hold. eapply (identity_ids l_id l_objectid); [exact Hl1|by apply Hstreets].
    + destruct Hrow as (_ & _ & _ & _ & _ & ->). by apply street_writes_refer, Hws.
  - intros building. rewrite Hb3.
    intros [Hold|(v & Hv & Hrow)]%executed_building_rows.
    + rewrite Hs3, Hl3 in Hold.
      eapply (identity_ids s_id s_objectid); [exact Hs1|]. rewrite Hl2. by apply Hbuildings.
    + destruct Hrow as (_ & _ & _ & _ & _ & _ & _ & ->). by apply building_writes_refer, Hwb.
Qed.

End References.

(** X2. Whatever the faults, [run_conversion] keeps the two foreign keys of
    the target: when every street refers to the [id] of a locality row and
    every building to the [id] of a street row before the run, the same
    holds after it, although the building worker switches the check of the
    database off. *)
Theorem references_stay_valid (rt : Runtime) (self : GarConverter) (w : World) :
  fair rt -> positive_batches self ->
  references_valid (target w) ->
  references_valid (target (snd (run (run_conversion rt self) w))).
Proof.
  intros Hfair Hpos Hvalid.
  pose proof (triple_run false (source w) _ _ _ _ w
                (run_conversion_stages false (source w) rt self (target w)
                   (fun H => not_fault_free H _))
                eq_refl (fun H => not_fault_free H _) eq_refl) as H.
  destruct (run (run_conversion rt self) w) as [[ok|e] w']; simpl;
    [|by destruct H as (_ & _ & [])].
  destruct H as (_ & _ & wl & ws & wb & -> & Hws & Hwb & _).
  by apply (references_after_stages rt self (source w)).
Qed.

Lemma references_stay_valid_witness :
  let after := target (snd (run (run_conversion reference_runtime Sample.converter)
                              (Sample.world Sample.gar []))) in
  length (rows (buildings after)) = 3%nat /\ references_valid after.
Proof.
  split; [by vm_compute|].
  apply (references_stay_valid reference_runtime Sample.converter (Sample.world Sample.gar [])
           reference_runtime_fair (init_positive_batches _ _)).
  split; intros row Hrow; vm_compute in Hrow; by apply elem_of_nil in Hrow.
Defined.


(* ================================================================== *)
(** * Database errors, workers and the runner *)
(* ================================================================== *)

Lemma only_sql_errors_next fs : only_sql_errors fs -> next_attempt_returns fs.
Proof.
  intros Hall e fs' -> Hprop. apply Forall_cons in Hall as [[m ->] _].
  by apply (Hprop m).
Qed.

(** X3. A database error is not retried.  When the round trip of a call of
    [execute_with_retry] fails with a [SQLAlchemyError], the call returns
    [None] at once: the statement has no effect, the error is printed, there
    is no pause and no second attempt.  Under a schedule whose failures are
    all of that kind the call is a single [execute_query] and returns. *)
Theorem sql_error_is_not_retried {L A} (q : query A) (l : L) (w : World) :
  (forall m rest,
     faults w = Fails (SQLAlchemyError m) :: rest ->
     exists w',
       execute_with_retry q (l, w) = (Return None, (l, w')) /\
       log w' = Print ("Ошибка выполнения запроса: " +:+ m) :: log w /\
       faults w' = rest /\ source w' = source w /\ target w' = target w /\
       source_indexes w' = source_indexes w) /\
  (only_sql_errors (faults w) ->
   execute_with_retry q (l, w) = execute_query q (l, w) /\
   exists r w', execute_query q (l, w) = (Return r, (l, w'))).
Proof.
  split.
  - intros m rest Hf. eexists. split; [by apply execute_with_retry_sql_error|]. done.
  - intros Hall%only_sql_errors_next.
    destruct (execute_query_returns (L:=L) q l w Hall) as (r & w' & Hq).
    split; [|by exists r, w'].
    unfold execute_with_retry, execute_with_retry_n. simpl. unfold try_except.
    by rewrite Hq.
Qed.

Lemma sql_error_is_not_retried_witness :
  let w := Sample.world Sample.gar [Fails (SQLAlchemyError "gone"); Fails (OtherError "x")] in
  exists w',
    execute_with_retry (source_query (objects_query "1.2")) (tt, w) = (Return None, (tt, w')) /\
    faults w' = [Fails (OtherError "x")] /\ sleeps (log w') = [].
Proof.
  intros w.
  destruct (proj1 (sql_error_is_not_retried (source_query (objects_query "1.2")) tt w)
              "gone" [Fails (OtherError "x")] eq_refl)
    as (w' & Hrun & Hlog & Hfaults & _).
  exists w'. split; [exact Hrun|]. split; [exact Hfaults|]. rewrite Hlog. reflexivity.
Defined.

(** ** Workers *)

Lemma worker_atomic {V} (statement : V -> Target -> Target) (key : V -> Z) (W : list V)
    (worker : M (list string)) (w : World) :
  (forall ff, triple ff (source w) (fun _ t => t = target w) worker
                (worker_post ff statement key W (target w)) (fun _ _ => False)) ->
  atomic_batch statement key W w (run worker w).
Proof.
  intros Hspec.
  pose proof (triple_run false (source w) _ _ _ _ w (Hspec false)
                eq_refl (fun H => not_fault_free H _) eq_refl) as H.
  pose proof (fun Hf : faults w = [] =>
                triple_run true (source w) _ _ _ _ w (Hspec true)
                  eq_refl (fun _ => Hf) eq_refl) as H'.
  destruct (run worker w) as [[ids|e] w']; simpl in *; [|by destruct H as (_ & _ & [])].
  destruct H as (Hs & _ & written & Ht & Hw & _).
  split; [by exists ids|]. split; [done|]. split.
  - destruct Hw as [-> | ->]; [by left|by right].
  - intros Hf. destruct (H' Hf) as (_ & _ & written' & Ht' & _ & Hall).
    destruct (Hall eq_refl) as [-> ->]. done.
Qed.

(** X4. Each of the three batch workers returns a list whatever the faults:
    an exception never leaves it.  Its batch is written in one transaction:
    the target ends with the [INSERT] executed for every row that the
    batch selects, or as the worker found it; without faults every row is
    written and the ids returned are those of the rows written. *)
Theorem workers_are_atomic (rt : Runtime) (w : World) (batch : list string)
    (locality_ids street_ids : gmap string Z) (batch_idx total_batches : nat) :
  atomic_batch insert_locality lv_objectid (locality_batch_writes rt batch (source w)) w
    (run (_process_locality_batch rt batch batch_idx total_batches) w) /\
  atomic_batch insert_street sv_objectid
    (street_batch_writes rt locality_ids batch (source w)) w
    (run (_process_street_batch rt batch locality_ids batch_idx total_batches) w) /\
  atomic_batch insert_building bv_objectid
    (building_batch_writes rt street_ids batch (source w)) w
    (run (_process_building_batch rt batch street_ids batch_idx total_batches) w).
Proof.
  split; [|split]; apply worker_atomic; intros ff.
  - apply locality_batch_spec.
  - apply street_batch_spec.
  - apply building_batch_spec.
Qed.

Lemma workers_are_atomic_witness :
  let w := Sample.world Sample.gar [] in
  let r := run (_process_locality_batch reference_runtime ["10"; "11"] 0 1) w in
  fst r = Return ["10"; "11"] /\ locality_keys (target (snd r)) = [10%Z; 11%Z].
Proof.
  intros w r.
  destruct (workers_are_atomic reference_runtime w ["10"; "11"] ∅ ∅ 0 1)
    as ((_ & _ & _ & Hall) & _ & _).
  destruct (Hall eq_refl) as [Ht Hr]. fold r in Ht, Hr.
  split; [rewrite Hr; by vm_compute|]. rewrite Ht. by vm_compute.
Defined.

(** ** The cost of a call *)

(** X5. Whatever the schedule of faults, a call of [execute_with_retry] makes
    one, two or three round trips to the database and pauses one second
    between two of them: at most two seconds per call.  (The statement is
    one that leaves the schedule and the log alone, as every statement of
    the converter does.) *)
Theorem retry_is_bounded {L A} (q : query A) (l : L) (w : World) :
  (forall w0, faults (snd (q w0)) = faults w0 /\ log (snd (q w0)) = log w0) ->
  exists attempts : nat,
    (1 <= attempts <= 3)%nat /\
    faults (snd (snd (execute_with_retry q (l, w)))) = drop attempts (faults w) /\
    sleeps (log (snd (snd (execute_with_retry q (l, w)))))
    = replicate (attempts - 1) 1%Z ++ sleeps (log w).
Proof.
  intros Hq.
  assert (forall w0 : World,
            faults (snd (q w0)) = faults w0 /\ sleeps (log (snd (q w0))) = sleeps (log w0))
    as Hq' by (intros w0; destruct (Hq w0) as [H1 H2]; by rewrite H1, H2).
  clear Hq.
  destruct w as [src idx t fs lg].
  unfold execute_with_retry, execute_with_retry_n, retry_loop, execute_query, try_except,
    bind, db_call, print, emit, ret, raise, get_world, put_world.
  cbn [fst snd faults log set_faults add_log Nat.ltb Nat.leb].
  destruct fs as [|[|[m1|m1|m1]] fs];
    cbn [fst snd faults log set_faults add_log Nat.ltb Nat.leb];
    try (exists 1%nat; split; [lia|]; rewrite ?(proj1 (Hq' _)), ?(proj2 (Hq' _)); done).
  all: destruct fs as [|[|[m2|m2|m2]] fs];
    cbn [fst snd faults log set_faults add_log Nat.ltb Nat.leb];
    try (exists 2%nat; split; [lia|]; rewrite ?(proj1 (Hq' _)), ?(proj2 (Hq' _)); done).
  all: destruct fs as [|[|[m3|m3|m3]] fs];
    cbn [fst snd faults log set_faults add_log Nat.ltb Nat.leb];
    exists 3%nat; split; try lia; rewrite ?(proj1 (Hq' _)), ?(proj2 (Hq' _)); done.
Qed.

Lemma retry_is_bounded_witness :
  let w := Sample.world Sample.gar [Fails (OtherError "a"); Succeeds; Fails (OtherError "b")] in
  let after := snd (snd (execute_with_retry (source_query (objects_query "1.2")) (tt, w))) in
  (exists attempts : nat,
     (1 <= attempts <= 3)%nat /\ faults after = drop attempts (faults w) /\
     sleeps (log after) = replicate (attempts - 1) 1%Z ++ sleeps (log w)) /\
  faults after = [Fails (OtherError "b")] /\ sleeps (log after) = [1%Z].
Proof.
  intros w after. split; [|split; reflexivity].
  by apply (retry_is_bounded (source_query (objects_query "1.2")) tt w).
Defined.


(* ================================================================== *)
(** * Schema, clean-up and [main] *)
(* ================================================================== *)

Ltac next_fault :=
  try match goal with
      | fs : list fault |- _ => destruct fs as [|[|[?m|?m|?m]] fs]; simpl; try done
      end.

Lemma create_target_schema_result (w : World) :
  fst (run create_target_schema w) = Return (negb (raises_within 3 (faults w))) /\
  source (snd (run create_target_schema w)) = source w /\
  target (snd (run create_target_schema w)) = target w.
Proof.
  destruct w as [src idx t fs lg].
  unfold run, create_target_schema, execute_query, try_except, bind, db_call, print, emit,
    ret, raise, get_world, put_world. simpl.
  next_fault; next_fault; next_fault.
Qed.

Lemma clear_target_db_result (w : World) :
  let r := run clear_target_db w in
  fst r = Return (negb (raises_within 5 (faults w))) /\
  source (snd r) = source w /\
  (localities (target (snd r)) = localities (target w) \/
   localities (target (snd r)) = truncated) /\
  (streets (target (snd r)) = streets (target w) \/ streets (target (snd r)) = truncated) /\
  (buildings (target (snd r)) = buildings (target w) \/
   buildings (target (snd r)) = truncated) /\
  (faults w = [] -> target (snd r) = cleared_target).
Proof.
  destruct w as [src idx t fs lg].
  unfold run, clear_target_db, execute_query, try_except, bind, db_call, print, emit,
    ret, raise, get_world, put_world. simpl.
  next_fault; next_fault; next_fault; next_fault; next_fault;
    repeat split; auto; done.
Qed.

Lemma only_sql_errors_raises_within n fs :
  only_sql_errors fs -> raises_within n fs = false.
Proof.
  revert fs. induction n as [|n IH]; intros fs Hall; [done|].
  destruct fs as [|[|e] fs]; [done| |].
  - apply Forall_cons in Hall as [_ Hall]. simpl. by apply IH.
  - apply Forall_cons in Hall as [[m ->] Hall]. simpl. by apply IH.
Qed.

(** X6. [create_target_schema] never raises.  It returns [False] exactly when
    one of its three statements raises something other than a
    [SQLAlchemyError]; a statement that fails with a [SQLAlchemyError] is
    only reported by [execute_query], so that the method returns [True] and
    prints its message of success even when no table could be created. *)
Theorem schema_creation_hides_database_errors (w : World) :
  fst (run create_target_schema w) = Return (negb (raises_within 3 (faults w))) /\
  (only_sql_errors (faults w) -> fst (run create_target_schema w) = Return true) /\
  source (snd (run create_target_schema w)) = source w /\
  target (snd (run create_target_schema w)) = target w.
Proof.
  destruct (create_target_schema_result w) as (Hr & Hs & Ht).
  split; [done|]. split; [|done].
  intros Hall. by rewrite Hr, only_sql_errors_raises_within.
Qed.

Lemma schema_creation_hides_database_errors_witness :
  let w := Sample.world Sample.gar
             [Fails (SQLAlchemyError "denied"); Fails (SQLAlchemyError "denied");
              Fails (SQLAlchemyError "denied")] in
  fst (run create_target_schema w) = Return true /\
  head (log (snd (run create_target_schema w)))
  = Some (Print "Схема успешно создана в целевой БД").
Proof.
  intros w. split; [|by vm_compute].
  apply (proj1 (proj2 (schema_creation_hides_database_errors w))).
  repeat constructor; by eexists.
Defined.

(** X7. [clear_target_db] never raises and touches nothing but the three
    tables of the target, each of which it leaves empty or as it was.
    Without faults the three tables end empty, their counters of generated
    ids reset.  It returns [False] exactly when one of its five statements
    raises something other than a [SQLAlchemyError]: a [TRUNCATE] that
    fails with a [SQLAlchemyError] leaves its table filled and the method
    still returns [True]. *)
Theorem clearing_hides_database_errors (w : World) :
  let r := run clear_target_db w in
  fst r = Return (negb (raises_within 5 (faults w))) /\
  (only_sql_errors (faults w) -> fst r = Return true) /\
  (faults w = [] -> target (snd r) = cleared_target) /\
  source (snd r) = source w /\
  (localities (target (snd r)) = localities (target w) \/
   localities (target (snd r)) = truncated) /\
  (streets (target (snd r)) = streets (target w) \/ streets (target (snd r)) = truncated) /\
  (buildings (target (snd r)) = buildings (target w) \/
   buildings (target (snd r)) = truncated).
Proof.
  destruct (clear_target_db_result w) as (Hr & Hs & Hl & Hst & Hb & Hclear).
  split; [done|]. split; [|done].
  intros Hall. rewrite Hr. by rewrite only_sql_errors_raises_within.
Qed.

Lemma clearing_hides_database_errors_witness :
  let filled := snd (run (run_conversion reference_runtime Sample.converter)
                       (Sample.world Sample.gar [])) in
  let w := set_faults [Succeeds; Succeeds; Fails (SQLAlchemyError "locked")] filled in
  let r := run clear_target_db w in
  fst r = Return true /\
  length (rows (buildings (target (snd r)))) = 0%nat /\
  length (rows (streets (target (snd r)))) = 2%nat /\
  target (snd (run clear_target_db filled)) = cleared_target.
Proof.
  intros filled w r.
  destruct (clearing_hides_database_errors w) as (_ & Htrue & _).
  destruct (clearing_hides_database_errors filled) as (_ & _ & Hclear & _).
  split; [apply Htrue; repeat constructor; by eexists|].
  split; [by vm_compute|]. split; [by vm_compute|].
  apply Hclear. by vm_compute.
Defined.

Section Runner.

Context (ff : bool) (S0 : Source) (rt : Runtime).








End Runner.





From Stdlib Require DecimalPos DecimalZ.

(* ================================================================== *)
(** * Batches, patterns and dictionaries *)
(* ================================================================== *)

(** ** The layout of the batches *)

Lemma seq_shift_map {A} (f : nat -> A) (n : nat) :
  map f (seq 1 n) = map (fun j => f (S j)) (seq 0 n).
Proof. rewrite <- seq_shift, map_map. done. Qed.

Lemma ceil_step (d step : nat) :
  (0 < step)%nat -> (0 < d)%nat ->
  ((d + step - 1) / step = S ((d - step + step - 1) / step))%nat.
Proof.
  intros Hstep Hd.
  destruct (Nat.le_gt_cases d step) as [Hle|Hgt].
  - replace (d - step)%nat with 0%nat by lia. simpl.
    rewrite (Nat.div_small (step - 1) step) by lia.
    assert (d + step - 1 = 1 * step + (d - 1))%nat as -> by lia.
    rewrite Nat.div_add_l by lia. rewrite Nat.div_small by lia. done.
  - assert (d + step - 1 = 1 * step + (d - step + step - 1))%nat as -> by lia.
    rewrite Nat.div_add_l by lia. lia.
Qed.

Lemma range_from_closed (fuel start stop step : nat) :
  (0 < step)%nat -> (stop - start <= fuel)%nat ->
  range_from fuel start stop step
  = map (fun j => (start + j * step)%nat) (seq 0 ((stop - start + step - 1) / step)).
Proof.
  intros Hstep. revert start.
  induction fuel as [|fuel IH]; intros start Hfuel; simpl.
  - replace (stop - start)%nat with 0%nat by lia. simpl.
    by rewrite Nat.div_small by lia.
  - destruct (Nat.ltb_spec start stop) as [Hlt|Hge].
    + rewrite IH by lia.
      rewrite (ceil_step (stop - start) step) by lia.
      replace (stop - (start + step))%nat with (stop - start - step)%nat by lia.
      simpl. f_equal; [lia|].
      rewrite seq_shift_map. apply map_ext. intros j. lia.
    + replace (stop - start)%nat with 0%nat by lia. simpl.
      by rewrite Nat.div_small by lia.
Qed.

Lemma chunks_closed {A} (batch_size : nat) (l : list A) :
  (0 < batch_size)%nat ->
  chunks batch_size l
  = map (fun j => take batch_size (drop (j * batch_size) l))
      (seq 0 ((length l + batch_size - 1) / batch_size)).
Proof.
  intros Hpos. unfold chunks, range. rewrite range_from_closed by lia.
  rewrite Nat.sub_0_r, map_map. apply map_ext. intros j. unfold slice. simpl.
  f_equal. lia.
Qed.

(** X9. For a positive batch size the stages cut a list of [n] identifiers
    into the batches of the list comprehension
    [[ids[i:i+batch_size] for i in range(0, len(ids), batch_size)]]: there
    are [n / batch_size] of them, rounded up (none for an empty list), the
    batch of index [j] holds the identifiers from position
    [j * batch_size] on, and every batch but the last is full. *)
Theorem batch_layout {A} (batch_size : nat) (ids : list A) :
  (0 < batch_size)%nat ->
  length (chunks batch_size ids) = ((length ids + batch_size - 1) / batch_size)%nat /\
  (ids = [] -> chunks batch_size ids = []) /\
  (forall j batch,
     chunks batch_size ids !! j = Some batch ->
     batch = take batch_size (drop (j * batch_size) ids) /\
     ((S j < length (chunks batch_size ids))%nat -> length batch = batch_size)).
Proof.
  intros Hpos. rewrite chunks_closed by done.
  rewrite length_map, length_seq. split; [done|]. split.
  - intros ->. simpl. by rewrite Nat.div_small by lia.
  - intros j batch Hj. apply list_lookup_fmap_Some in Hj as (i & -> & Hi).
    apply lookup_seq in Hi as [-> Hi]. simpl. split; [done|].
    intros Hlast. rewrite length_take, length_drop.
    pose proof (Nat.Div0.mul_div_le (length ids + batch_size - 1) batch_size) as Hdiv.
    nia.
Qed.

Lemma batch_layout_witness :
  length (chunks 2 ["10"; "11"; "12"; "13"; "14"]) = 3%nat /\
  chunks 2 ["10"; "11"; "12"; "13"; "14"] !! 2%nat = Some ["14"].
Proof.
  destruct (batch_layout 2 ["10"; "11"; "12"; "13"; "14"] (Nat.lt_0_succ 1)) as (Hlen & _ & _).
  split; [exact Hlen|reflexivity].
Defined.

(** ** The pattern of the street and building scans *)

Lemma LIKE_chars_any_run (pattern : list ascii) (s : string) :
  LIKE_chars ("%"%char :: pattern) s
  = LIKE_chars pattern s ||
    match s with
    | EmptyString => false
    | String _ s' => LIKE_chars ("%"%char :: pattern) s'
    end.
Proof. by destruct s. Qed.

Lemma LIKE_chars_dot (pattern : list ascii) (s : string) :
  LIKE_chars ("."%char :: pattern) s = true <->
  exists s', s = String "." s' /\ LIKE_chars pattern s' = true.
Proof.
  destruct s as [|c s].
  - simpl. split; [done|]. by intros (s' & ? & _).
  - rewrite LIKE_chars_literal by done.
    change (Ascii.eqb "." "_") with false. rewrite orb_false_l, andb_true_iff, Ascii.eqb_eq.
    split.
    + intros [<- H]. by exists s.
    + intros (s' & [= <- <-] & H). done.
Qed.

(** [%.] followed by a pattern that matches whatever has enough dots. *)
Lemma LIKE_chars_any_dot (pattern : list ascii) (k : nat) :
  (forall s, LIKE_chars pattern s = true <-> (k <= count_delim "." s)%nat) ->
  forall s, LIKE_chars ("%"%char :: "."%char :: pattern) s = true
            <-> (S k <= count_delim "." s)%nat.
Proof.
  intros Hp s. induction s as [|c s IH].
  - rewrite LIKE_chars_any_run, orb_false_r, LIKE_chars_dot. simpl.
    split; [by intros (s' & ? & _)|lia].
  - rewrite LIKE_chars_any_run, orb_true_iff, IH, LIKE_chars_dot. simpl.
    destruct (Ascii.eqb_spec c ".") as [->|Hne].
    + split.
      * intros [(s' & [= <-] & H%Hp)|H]; lia.
      * intros H. destruct (decide (k <= count_delim "." s)%nat) as [Hk|Hk].
        -- left. exists s. split; [done|]. by apply Hp.
        -- lia.
    + split.
      * intros [(s' & [= ? _] & _)|H]; [done|lia].
      * intros H. by right.
Qed.

Lemma LIKE_chars_scan (rest : string) :
  LIKE_chars ["%"; "."; "%"; "."; "%"]%char rest = true <-> (2 <= count_delim "." rest)%nat.
Proof.
  apply (LIKE_chars_any_dot ["%"; "."; "%"]%char 1).
  apply (LIKE_chars_any_dot ["%"]%char 0).
  intros s. rewrite LIKE_any. split; [lia|done].
Qed.

Lemma list_ascii_of_string_app (s1 s2 : string) :
  list_ascii_of_string (s1 +:+ s2) = list_ascii_of_string s1 ++ list_ascii_of_string s2.
Proof. induction s1 as [|c s1 IH]; simpl; [done|]. by rewrite IH. Qed.

(** X10. The filter [PATH LIKE '{base_path}.%.%.%'] of the street and building
    stages, for a base path without wildcards: it selects the paths that
    consist of the base path, a dot and at least three further octets, and
    no others.  A path that ends at the street octet below a base path of
    two octets is not among them. *)
Theorem scan_selects_three_octets_below (base path : string) :
  wildcard_free base ->
  (LIKE path (base +:+ ".%.%.%") = true <->
   exists rest, path = base +:+ "." +:+ rest /\ (3 <= length (split "." rest))%nat) /\
  (LIKE path (base +:+ ".%.%.%") = true ->
   (length (split "." base) + 3 <= length (split "." path))%nat).
Proof.
  intros Hwf.
  assert (LIKE path (base +:+ ".%.%.%") = true <->
          exists rest, path = base +:+ "." +:+ rest /\ (3 <= length (split "." rest))%nat)
    as Hiff.
  { unfold LIKE. rewrite list_ascii_of_string_app. simpl.
    rewrite LIKE_prefix by done. split.
    - intros (rest' & -> & (rest & -> & H%LIKE_chars_scan)%LIKE_chars_dot).
      exists rest. split; [done|]. rewrite split_length_count. lia.
    - intros (rest & -> & Hlen). exists ("." +:+ rest). split; [done|].
      apply LIKE_chars_dot. exists rest. split; [done|]. apply LIKE_chars_scan.
      rewrite split_length_count in Hlen. lia. }
  split; [done|].
  intros (rest & -> & Hlen)%Hiff.
  change ("." +:+ rest) with (String "." rest).
  rewrite split_app, length_app. lia.
Qed.

Lemma scan_selects_three_octets_below_witness :
  LIKE "1.2.10.20.30" ("1.2" +:+ ".%.%.%") = true /\
  LIKE "1.2.10.20" ("1.2" +:+ ".%.%.%") = false.
Proof.
  assert (wildcard_free "1.2") as Hwf by (repeat constructor; discriminate).
  destruct (scan_selects_three_octets_below "1.2" "1.2.10.20.30" Hwf) as [Hiff _].
  split.
  - apply Hiff. exists "10.20.30". split; [reflexivity|]. simpl. lia.
  - reflexivity.
Defined.

(** ** The parent of a path *)

Lemma but_last_snoc {A} (l : list A) (x : A) : but_last (l ++ [x]) = l.
Proof.
  unfold but_last. rewrite length_app. simpl.
  replace (length l + 1 - 1)%nat with (length l) by lia.
  by rewrite take_app_length.
Qed.

(** X11. The parent path that reconciliation looks up,
    ['.'.join(PATH.split('.')[:-1])]: appending an octet to a path and
    taking the parent gives the path back, the parent has one octet less,
    and a path of a single octet has the empty string as its parent. *)
Theorem parent_path_round_trip (path octet : string) :
  count_delim "." octet = 0%nat ->
  parent_path_of (path +:+ "." +:+ octet) = path /\
  length (split "." (path +:+ "." +:+ octet)) = S (length (split "." path)) /\
  parent_path_of octet = "".
Proof.
  intros Hoctet. unfold parent_path_of.
  change ("." +:+ octet) with (String "." octet).
  rewrite split_app, (split_no_delim_id "." octet) by done.
  rewrite but_last_snoc, length_app. simpl.
  split; [apply (join_split "." path)|]. split; [lia|done].
Qed.

Lemma parent_path_round_trip_witness :
  parent_path_of "1.2.50" = "1.2" /\ parent_path_of "50" = "".
Proof.
  destruct (parent_path_round_trip "1.2" "50" eq_refl) as (Hparent & _ & Hroot).
  split; [exact Hparent|exact Hroot].
Defined.

(** ** The dictionaries from [objectid] to generated [id] *)

Lemma to_int_not_nil (n : Z) :
  Z.to_int n <> Decimal.Pos Decimal.Nil /\ Z.to_int n <> Decimal.Neg Decimal.Nil.
Proof.
  destruct n; simpl; split; try discriminate.
  - intros [= H]. revert H. apply DecimalPos.Unsigned.to_uint_nonnil.
  - intros [= H]. revert H. apply DecimalPos.Unsigned.to_uint_nonnil.
Qed.

Lemma str_inj (n m : Z) : str n = str m -> n = m.
Proof.
  unfold str. intros H. apply DecimalZ.to_int_inj.
  apply (f_equal NilZero.int_of_string) in H.
  rewrite !NilZero.isi in H by apply to_int_not_nil. congruence.
Qed.

(** X12. The dictionary [{str(row.objectid): row.id for row in rows}] that the
    street and building stages load from the target: every value stored is
    the [id] of a row under the text of its [objectid]; when [objectid] is
    unique among the rows, looking up the text of a row's [objectid] gives
    that row's [id], and a text that is not the decimal form of an
    [objectid] of the table finds nothing. *)
Theorem id_map_round_trip {R} (objectid id : R -> Z) (table_rows : list R) :
  (forall s i, id_map objectid id table_rows !! s = Some i ->
     exists r, r ∈ table_rows /\ s = str (objectid r) /\ id r = i) /\
  (NoDup (map objectid table_rows) ->
   forall r, r ∈ table_rows -> id_map objectid id table_rows !! str (objectid r) = Some (id r)) /\
  (forall s, (forall r, r ∈ table_rows -> s <> str (objectid r)) ->
     id_map objectid id table_rows !! s = None).
Proof.
  split; [|split].
  - intros s i (r & Hr & <- & <-)%id_map_lookup. by exists r.
  - induction table_rows as [|r0 table_rows IH] using rev_ind.
    + by intros _ r ?%elem_of_nil.
    + rewrite map_app. simpl. intros [Hnd [Hnew _]]%NoDup_app r.
      rewrite id_map_snoc.
      intros [Hr| ->%list_elem_of_singleton]%elem_of_app; [|by rewrite lookup_insert_eq].
      rewrite lookup_insert_ne; [by apply IH|].
      intros Heq%str_inj. apply (Hnew (objectid r)).
      * apply list_elem_of_fmap. by exists r.
      * rewrite Heq. by apply list_elem_of_singleton.
  - intros s Hs. destruct (id_map objectid id table_rows !! s) as [i|] eqn:E; [|done].
    apply id_map_lookup in E as (r & Hr & <- & _). by destruct (Hs r Hr).
Qed.

Lemma id_map_round_trip_witness :
  id_map l_objectid l_id (rows (localities Sample.target_with_locality)) !! "10" = Some 1%Z /\
  id_map l_objectid l_id (rows (localities Sample.target_with_locality)) !! "010" = None.
Proof.
  destruct (id_map_round_trip l_objectid l_id (rows (localities Sample.target_with_locality)))
    as (_ & Hfound & Hnone).
  split.
  - apply (Hfound (NoDup_singleton _)
             {| l_id := 1; l_objectid := 10; l_objectguid := "guid-10"; l_name := "Артем";
                l_typename := "г"; l_path_octets := "1.2.10" |}).
    by apply list_elem_of_singleton.
  - apply Hnone. intros r ->%list_elem_of_singleton. discriminate.
Defined.

(** ** The progress line *)





(* ================================================================== *)
(** * What the stages write *)
(* ================================================================== *)

(** ** The joins *)

Lemma ao_join_mh_in (src : Source) (ao : ao_row) (mh : mh_row) :
  (ao, mh) ∈ ao_join_mh src <->
  ao ∈ addr_obj src /\ mh ∈ mun_hierarchy src /\ ao_OBJECTID ao = mh_OBJECTID mh.
Proof.
  unfold ao_join_mh. rewrite elem_of_flat_map. split.
  - intros (ao' & Hao & (mh' & [= -> ->] & [Hmh Heq%Z.eqb_eq]%elem_of_List_filter)%list_elem_of_fmap).
    done.
  - intros (Hao & Hmh & Heq). exists ao. split; [done|].
    apply list_elem_of_fmap. exists mh. split; [done|].
    apply elem_of_List_filter. split; [done|]. by apply Z.eqb_eq.
Qed.


Lemma addr_obj_batch_query_source rt batch src (r : named_row) :
  r ∈ addr_obj_batch_query rt batch src <->
  exists ao mh,
    ao ∈ addr_obj src /\ mh ∈ mun_hierarchy src /\ ao_OBJECTID ao = mh_OBJECTID mh /\
    existsb (sql_eq_num rt (ao_OBJECTID ao)) batch = true /\
    ao_ISACTUAL ao = 1%Z /\ ao_ISACTIVE ao = 1%Z /\
    r = {| OBJECTID := ao_OBJECTID ao; OBJECTGUID := ao_OBJECTGUID ao; NAME := ao_NAME ao;
           TYPENAME := ao_TYPENAME ao; PATH := mh_PATH mh |}.
Proof.
  unfold addr_obj_batch_query. rewrite list_elem_of_fmap. split.
  - intros ([ao mh] & -> & [Hin [[Hb H1%Z.eqb_eq]%andb_true_iff H2%Z.eqb_eq]%andb_true_iff]
                             %elem_of_List_filter).
    apply ao_join_mh_in in Hin as (Hao & Hmh & Heq). by exists ao, mh.
  - intros (ao & mh & Hao & Hmh & Heq & Hb & H1 & H2 & ->).
    exists (ao, mh). split; [done|]. apply elem_of_List_filter.
    split; [by apply ao_join_mh_in|]. simpl.
    rewrite Hb. apply andb_true_iff. split; by apply Z.eqb_eq.
Qed.



(** ** Runs without faults *)

Section FaultFree.

Context (rt : Runtime) (self : GarConverter) (w : World).
Hypothesis rt_fair : fair rt.
Hypothesis no_faults : faults w = [].




End FaultFree.

(** ** Completeness of the building and street stages *)





(** ** The columns of a street *)

(** X16. Whatever the faults, a row that the street stage leaves in [streets]
    and did not find there carries the [OBJECTID], [OBJECTGUID], [NAME] and
    [TYPENAME] of an address object that is actual and active, the [PATH]
    of a hierarchy row with that [OBJECTID] (the statement does not ask
    that row to be active, nor to lie below the base path), and as
    [locality_id] the generated [id] of a locality row of the target. *)
Theorem street_field_mapping (rt : Runtime) (self : GarConverter) (w : World)
    (row : street_row) :
  fair rt -> positive_batches self ->
  row ∈ rows (streets (target (snd (run (process_streets_parallel rt self) w)))) ->
  row ∈ rows (streets (target w)) \/
  exists (ao : ao_row) (mh : mh_row) (locality : locality_row),
    ao ∈ addr_obj (source w) /\ ao_ISACTUAL ao = 1%Z /\ ao_ISACTIVE ao = 1%Z /\
    mh ∈ mun_hierarchy (source w) /\ mh_OBJECTID mh = ao_OBJECTID ao /\
    locality ∈ rows (localities (target w)) /\
    s_objectid row = ao_OBJECTID ao /\ s_objectguid row = ao_OBJECTGUID ao /\
    s_name row = ao_NAME ao /\ s_typename row = ao_TYPENAME ao /\
    s_path_octets row = mh_PATH mh /\ s_locality_id row = l_id locality.
Proof.
  intros Hfair Hpos Hrow.
  destruct (streets_stage_run rt self w) as (written & Ht & Hsub).
  rewrite Ht in Hrow.
  apply executed_street_rows in Hrow as [Hold|(v & Hv & Hfields)]; [by left|].
  right. apply Hsub in Hv.
  apply street_stage_writes_in in Hv as (id & r & _ & Hr & Hlookup & Hveq); [|done|done].
  destruct Hfair as [Hset _].
  apply flatten_groups_lookup in Hlookup as (l & _ & Hl); [|done].
  apply id_map_lookup in Hl as (locality & Hloc & _ & Hlid).
  apply addr_obj_batch_query_source in Hr as (ao & mh & Hao & Hmh & Heq & _ & H1 & H2 & ->).
  destruct Hfields as (F1 & F2 & F3 & F4 & F5 & F6).
  rewrite Hveq in F1, F2, F3, F4, F5. simpl in *.
  exists ao, mh, locality. repeat (split; [done|]). congruence.
Qed.

Lemma street_field_mapping_witness :
  let w := snd (run (process_localities_parallel reference_runtime Sample.converter)
                  (Sample.world Sample.gar [])) in
  let row := {| s_id := 1; s_locality_id := 1; s_objectid := 20; s_objectguid := "guid-20";
                s_name := "Кирова"; s_typename := "ул"; s_path_octets := "1.2.10.20" |} in
  exists (ao : ao_row) (locality : locality_row),
    ao ∈ addr_obj (source w) /\ locality ∈ rows (localities (target w)) /\
    s_name row = ao_NAME ao /\ s_locality_id row = l_id locality.
Proof.
  intros w row.
  destruct (street_field_mapping reference_runtime Sample.converter w row
              reference_runtime_fair (init_positive_batches _ _))
    as [Hold|(ao & mh & locality & Hao & _ & _ & _ & _ & Hloc & _ & _ & Hname & _ & _ & Hid)].
  - vm_compute. left.
  - vm_compute in Hold. by apply elem_of_nil in Hold.
  - by exists ao, locality.
Defined.

(** ** Completeness of the locality stage *)





(** ** Reconciliation from the address objects *)

(** X18. In a run without faults, reconciliation of a hierarchy record whose
    [OBJECTID] has address objects binds one row for each of them, in
    table order, with the object's [OBJECTGUID], [NAME] and [TYPENAME] and
    the path of the hierarchy record, and synthesises nothing.  Unlike the
    first pass it does not ask the address object to be actual or active. *)
Theorem reconciliation_takes_any_address_object (rt : Runtime) (w : World)
    (objectid : Z) (path : string) (ao : ao_row) :
  faults w = [] ->
  ao ∈ addr_obj (source w) -> ao_OBJECTID ao = objectid ->
  fst (run (reconcile_record rt (objectid, path)) w)
  = Return (map (fun ao_record =>
                   {| lv_objectid := objectid;
                      lv_objectguid := ao_OBJECTGUID ao_record;
                      lv_name := ao_NAME ao_record;
                      lv_typename := ao_TYPENAME ao_record;
                      lv_path_octets := path |})
              (List.filter (fun ao_record => (ao_OBJECTID ao_record =? objectid)%Z)
                 (addr_obj (source w)))) /\
  (exists v, v ∈ reconciled rt (source w) (objectid, path) /\
             lv_name v = ao_NAME ao /\ lv_objectguid v = ao_OBJECTGUID ao /\
             lv_typename v = ao_TYPENAME ao) /\
  target (snd (run (reconcile_record rt (objectid, path)) w)) = target w.
Proof.
  intros Hf Hao Hid.
  destruct (reconcile_record_run rt w (objectid, path) Hf) as [Hrun Ht].
  assert (ao ∈ ao_by_objectid_query objectid (source w)) as Hin.
  { apply elem_of_List_filter. split; [done|]. by apply Z.eqb_eq. }
  assert (reconciled rt (source w) (objectid, path)
          = map (fun ao_record =>
                   {| lv_objectid := objectid;
                      lv_objectguid := ao_OBJECTGUID ao_record;
                      lv_name := ao_NAME ao_record;
                      lv_typename := ao_TYPENAME ao_record;
                      lv_path_octets := path |})
              (ao_by_objectid_query objectid (source w))) as Hrec.
  { assert (forall r, r ∈ ao_by_objectid_query objectid (source w) ->
                      ao_OBJECTID r = objectid) as Hall.
    { intros r Hr. by apply elem_of_List_filter in Hr as [_ Heq%Z.eqb_eq]. }
    unfold reconciled. cbn [fst snd].
    revert Hin Hall. generalize (ao_by_objectid_query objectid (source w)).
    intros l Hin Hall. destruct l as [|r rs]; [by apply elem_of_nil in Hin|].
    cbv beta iota. apply map_ext_in. intros r' Hr'.
    apply list_elem_of_In in Hr'. by rewrite (Hall r' Hr'). }
  split; [by rewrite Hrun, Hrec|]. split; [|done].
  rewrite Hrec. eexists. split; [apply list_elem_of_fmap; by exists ao|]. done.
Qed.

Lemma reconciliation_takes_any_address_object_witness :
  let ao := {| ao_OBJECTID := 50; ao_OBJECTGUID := "guid-50"; ao_NAME := "Угловое";
               ao_TYPENAME := "п"; ao_ISACTUAL := 0; ao_ISACTIVE := 0 |} in
  let src := {| mun_hierarchy := [Sample.hierarchy_row 50 "1.2.50"];
                addr_obj := [ao]; houses := [] |} in
  exists v,
    fst (run (reconcile_record reference_runtime (50%Z, "1.2.50")) (Sample.world src []))
    = Return [v] /\ lv_name v = "Угловое".
Proof.
  intros ao src.
  destruct (reconciliation_takes_any_address_object reference_runtime (Sample.world src [])
              50 "1.2.50" ao eq_refl (list_elem_of_here _ _) eq_refl) as (Hrun & _ & _).
  eexists. split; [exact Hrun|reflexivity].
Defined.


(* ================================================================== *)
(** * Stages without input, and the indexes *)
(* ================================================================== *)

Lemma run_bind_value {A B} (m : M A) (k : A -> M B) (w w1 : World) (a : A) :
  m (tt, w) = (Return a, (tt, w1)) ->
  run (bind m k) w = run (k a) w1.
Proof. intros H. unfold run, bind. by rewrite H. Qed.

Lemma id_map_nil {R} (objectid id : R -> Z) : id_map objectid id [] = ∅.
Proof. done. Qed.

(** X19. A stage that finds its parent table empty writes nothing, whatever the
    faults: the street stage when the target has no locality, the building
    stage when it has no street.  Without faults it returns 0 after the one
    statement that read the table; the building stage does not get as far
    as its indexes. *)
Theorem stage_without_parents (rt : Runtime) (self : GarConverter) (w : World) :
  (rows (localities (target w)) = [] ->
   target (snd (run (process_streets_parallel rt self) w)) = target w /\
   (faults w = [] -> fst (run (process_streets_parallel rt self) w) = Return 0%nat)) /\
  (rows (streets (target w)) = [] ->
   target (snd (run (process_buildings_parallel rt self) w)) = target w /\
   (faults w = [] ->
    fst (run (process_buildings_parallel rt self) w) = Return 0%nat /\
    source_indexes (snd (run (process_buildings_parallel rt self) w)) = source_indexes w)).
Proof.
  split.
  - intros Hempty. split.
    + destruct (streets_stage_run rt self w) as (written & -> & Hsub).
      unfold street_stage_writes in Hsub.
      rewrite Hempty, id_map_nil, flatten_groups_empty in Hsub. simpl in Hsub.
      rewrite ?chunks_nil in Hsub. simpl in Hsub.
      destruct written as [|v written]; [done|].
      specialize (Hsub v (list_elem_of_here _ _)). by apply elem_of_nil in Hsub.
    + intros Hf. unfold process_streets_parallel.
      rewrite (run_bind_value _ _ w w (Some (rows (localities (target w)))))
        by (by apply execute_with_retry_no_fault).
      rewrite Hempty, id_map_nil. rewrite decide_True by done. done.
  - intros Hempty. split.
    + destruct (buildings_stage_run rt self w) as (written & -> & Hsub).
      unfold building_stage_writes in Hsub.
      rewrite Hempty, id_map_nil, flatten_groups_empty in Hsub. simpl in Hsub.
      rewrite ?chunks_nil in Hsub. simpl in Hsub.
      destruct written as [|v written]; [done|].
      specialize (Hsub v (list_elem_of_here _ _)). by apply elem_of_nil in Hsub.
    + intros Hf. unfold process_buildings_parallel.
      rewrite (run_bind_value _ _ w w (Some (rows (streets (target w)))))
        by (by apply execute_with_retry_no_fault).
      rewrite Hempty, id_map_nil. rewrite decide_True by done. done.
Qed.

Lemma stage_without_parents_witness :
  fst (run (process_streets_parallel reference_runtime Sample.converter)
         (Sample.world Sample.gar [])) = Return 0%nat /\
  fst (run (process_buildings_parallel reference_runtime Sample.converter)
         (Sample.world Sample.gar [])) = Return 0%nat.
Proof.
  destruct (stage_without_parents reference_runtime Sample.converter
              (Sample.world Sample.gar [])) as [Hstreets Hbuildings].
  destruct (Hstreets eq_refl) as [_ Hs]. destruct (Hbuildings eq_refl) as [_ Hb].
  split; [by apply Hs|by apply Hb].
Defined.

(** ** The indexes on the source *)

Lemma same_tables_refl w : same_tables w w.
Proof. done. Qed.

Lemma same_tables_trans w1 w2 w3 :
  same_tables w1 w2 -> same_tables w2 w3 -> same_tables w1 w3.
Proof. intros (? & ? & ?) (? & ? & ?). unfold same_tables. split_and!; congruence. Qed.

Lemma execute_query_cases {L A} (q : query A) (l : L) (w : World) :
  match execute_query q (l, w) with
  | (Return (Some a), (l', w')) =>
      l' = l /\ exists w1, same_tables w w1 /\ a = fst (q w1) /\ w' = snd (q w1)
  | (Return None, (l', w')) => l' = l /\ same_tables w w'
  | (Raise e, (l', w')) => l' = l /\ same_tables w w'
  end.
Proof.
  unfold execute_query, try_except, bind, db_call. simpl.
  destruct (faults w) as [|[|e] fs] eqn:Hfs; simpl.
  - split; [done|]. by exists w.
  - split; [done|]. by exists (set_faults fs w).
  - destruct e; simpl; done.
Qed.

Lemma retry_loop_cases {L A} (q : query A) (max_retries : nat) (l : L) :
  forall fuel retries (w : World),
  match retry_loop q max_retries retries fuel (l, w) with
  | (Return (Some a), (l', w')) =>
      l' = l /\ exists w1, same_tables w w1 /\ a = fst (q w1) /\ w' = snd (q w1)
  | (Return None, (l', w')) => l' = l /\ same_tables w w'
  | (Raise e, (l', w')) => l' = l /\ same_tables w w'
  end.
Proof.
  induction fuel as [|fuel IH]; intros retries w; simpl; [done|].
  destruct (retries <? max_retries)%nat; [|done].
  unfold try_except. pose proof (execute_query_cases q l w) as Hq.
  destruct (execute_query q (l, w)) as [[[a|]|e] [l1 w1]]; [done|done|].
  destruct Hq as [-> Hsame]. unfold bind, print, emit. simpl.
  destruct (max_retries <=? S retries)%nat; simpl; [done|].
  match goal with |- context [retry_loop q max_retries (S retries) fuel (l, ?w2)] =>
    pose proof (IH (S retries) w2) as H;
    assert (same_tables w w2) as Hsame2 by (by destruct Hsame as (? & ? & ?));
    destruct (retry_loop q max_retries (S retries) fuel (l, w2)) as [[[a|]|e'] [l2 w3]]
  end.
  - destruct H as [-> (w4 & Hw4 & Ha & Hw3)]. split; [done|]. exists w4.
    split; [by eapply same_tables_trans|done].
  - destruct H as [-> H]. split; [done|]. by eapply same_tables_trans.
  - destruct H as [-> H]. split; [done|]. by eapply same_tables_trans.
Qed.

Lemma index_count_zero (name : string) (w : World) :
  fst (index_count_query name w) = 0%nat <-> name ∉ source_indexes w.
Proof.
  unfold index_count_query. simpl. rewrite length_zero_iff_nil. split.
  - intros Hnil Hin.
    assert (name ∈ List.filter (String.eqb name) (source_indexes w)) as H.
    { apply elem_of_List_filter. split; [done|apply String.eqb_refl]. }
    rewrite Hnil in H. by apply elem_of_nil in H.
  - intros Hout. destruct (List.filter _ _) as [|x l] eqn:E; [done|].
    assert (x ∈ List.filter (String.eqb name) (source_indexes w)) as H by (rewrite E; left).
    apply elem_of_List_filter in H as [Hin ->%String.eqb_eq]. done.
Qed.

Lemma ensure_index_tables (name : string) (w : World) :
  let r := run (ensure_index name) w in
  source (snd r) = source w /\ target (snd r) = target w /\
  (source_indexes (snd r) = source_indexes w \/
   ((name ∉ source_indexes w) /\ source_indexes (snd r) = name :: source_indexes w)).
Proof.
  cbv zeta. unfold run, ensure_index, bind, execute_with_retry, execute_with_retry_n.
  pose proof (retry_loop_cases (index_count_query name) 3 tt 3 0 w) as H1.
  destruct (retry_loop (index_count_query name) 3 0 3 (tt, w)) as [[[n|]|e] [[] w1]];
    cbv beta iota zeta delta [fst snd].
  - destruct H1 as [_ (w0 & (Hs & Hi & Ht) & Hn & ->)].
    change (snd (index_count_query name w0)) with w0.
    destruct n as [|n].
    + symmetry in Hn. apply index_count_zero in Hn. rewrite Hi in Hn.
      pose proof (retry_loop_cases (create_index name) 3 tt 3 0 w0) as H2.
      destruct (retry_loop (create_index name) 3 0 3 (tt, w0)) as [[[[]|]|e] [[] w2]];
        cbv beta iota zeta delta [fst snd].
      * destruct H2 as [_ (w3 & (Hs3 & Hi3 & Ht3) & _ & ->)]. simpl.
        split; [congruence|]. split; [congruence|]. right. split; [done|congruence].
      * destruct H2 as [_ (Hs3 & Hi3 & Ht3)]. simpl.
        split; [congruence|]. split; [congruence|]. left. congruence.
      * destruct H2 as [_ (Hs3 & Hi3 & Ht3)].
        split; [congruence|]. split; [congruence|]. left. congruence.
    + simpl. split; [congruence|]. split; [congruence|]. left. congruence.
  - destruct H1 as [_ (Hs & Hi & Ht)]. split; [done|]. split; [done|]. by left.
  - destruct H1 as [_ (Hs & Hi & Ht)]. split; [done|]. split; [done|]. by left.
Qed.

(** X20. The check-and-create step that the building stage runs for each of its
    two indexes on the source.  Whatever the faults it changes no table and
    no other index, and it creates the index only when the check found
    none: an index that exists is never created again.  Without faults the
    index exists when the step ends, and a step that finds it does
    nothing at all. *)
Theorem index_is_created_once (name : string) (w : World) :
  let r := run (ensure_index name) w in
  source (snd r) = source w /\ target (snd r) = target w /\
  (source_indexes (snd r) = source_indexes w \/
   ((name ∉ source_indexes w) /\ source_indexes (snd r) = name :: source_indexes w)) /\
  (faults w = [] ->
   fst r = Return tt /\ name ∈ source_indexes (snd r) /\
   (name ∈ source_indexes w -> snd r = w)).
Proof.
  destruct (ensure_index_tables name w) as (Hs & Ht & Hi).
  split; [done|]. split; [done|]. split; [done|].
  intros Hf. unfold ensure_index.
  rewrite (run_bind_value _ _ w w (Some (fst (index_count_query name w))))
    by (by apply execute_with_retry_no_fault).
  destruct (fst (index_count_query name w)) as [|n] eqn:Hcount.
  - apply index_count_zero in Hcount.
    rewrite (run_bind_value _ _ w (add_index name w) (Some tt))
      by (by apply execute_with_retry_no_fault).
    split; [done|]. split; [left|done].
  - assert (name ∈ source_indexes w) as Hin.
    { destruct (decide (name ∈ source_indexes w)) as [?|Hout]; [done|].
      apply index_count_zero in Hout. congruence. }
    done.
Qed.

Lemma index_is_created_once_witness :
  let w := Sample.world Sample.gar [] in
  let once := snd (run (ensure_index "idx_houses_objectid") w) in
  let twice := snd (run (ensure_index "idx_houses_objectid") once) in
  source_indexes once = ["idx_houses_objectid"] /\ twice = once.
Proof.
  intros w once twice. split; [reflexivity|].
  assert (faults once = []) as Hf by reflexivity.
  destruct (index_is_created_once "idx_houses_objectid" once) as (_ & _ & _ & Hrun).
  destruct (Hrun Hf) as (_ & _ & Hsame). apply Hsame. left.
Defined.


(* ================================================================== *)
(** * The counts that the stages return *)
(* ================================================================== *)

Section Counts.

Context (ff : bool) (S0 : Source) (rt : Runtime) (self : GarConverter).

Lemma covers_nil {V} (statement : V -> Target -> Target) (t0 : Target) (n : nat) :
  covers statement t0 n t0.
Proof. exists []. split; [done|]. simpl. lia. Qed.

Lemma locality_batch_count (batch : list string) (batch_idx total_batches : nat)
    (t0 : Target) :
  triple ff S0 (fun _ t => t = t0)
    (_process_locality_batch rt batch batch_idx total_batches)
    (fun ids _ t => covers insert_locality t0 (length ids) t) (fun _ _ => False).
Proof.
  unfold _process_locality_batch.
  eapply triple_conseq;
    [apply (triple_with_local ff S0 ([] : list string)
              (fun l t => l = [] /\ t = t0) _
              (fun processed_ids l t => covers insert_locality t0 (length processed_ids) t)
              (fun _ _ => False))
    | by intros | by intros ? ? ? [? ?] | by intros ? ? [? ?] ].
  eapply triple_bind with (R := fun _ l t => covers insert_locality t0 (length l) t);
    [|intros ?; by apply triple_get_local_wp].
  eapply triple_try with (E' := fun _ t => t = t0).
  2: { intros e Hff. apply triple_print_wp. intros l t ->. apply covers_nil. }
  eapply triple_bind; [by apply triple_source_query_sp; intros ? ? [_ ->]|].
  intros result. apply triple_pure. intros _.
  apply triple_begin; [|by intros l t [_ ->]].
  intros t1.
  apply triple_pre with (P' := fun l t => t1 = t0 /\ (l = [] /\ t = t0));
    [|by intros l t [[-> ->] ->]].
  apply triple_pure. intros ->.
  apply (triple_for_each_wp ff S0
           (fun done l t => l = map (fun r => str (OBJECTID r)) done /\
                            t = executed insert_locality (map locality_params done) t0)).
  - by intros l t [-> ->].
  - intros done x todo Heq.
    eapply triple_bind; [by apply triple_connection_execute_sp|]. intros ?.
    eapply triple_bind; [apply triple_get_local|]. intros processed_ids.
    apply triple_set_local.
    intros l t (-> & t' & [-> ->] & ->). split.
    + by rewrite map_app.
    + rewrite map_app. simpl. by rewrite executed_snoc.
  - intros l t [-> ->]. split; [|done].
    exists (map locality_params (fetchall result)). split; [done|].
    by rewrite !length_map.
Qed.

Lemma street_batch_count (batch : list string) (locality_ids : gmap string Z)
    (batch_idx total_batches : nat) (t0 : Target) :
  triple ff S0 (fun _ t => t = t0)
    (_process_street_batch rt batch locality_ids batch_idx total_batches)
    (fun ids _ t => covers insert_street t0 (length ids) t) (fun _ _ => False).
Proof.
  unfold _process_street_batch.
  set (writes := fun rows : list named_row =>
         omap (fun street => street_params street <$> locality_ids !! str (OBJECTID street)) rows).
  eapply triple_conseq;
    [apply (triple_with_local ff S0 ([] : list string)
              (fun l t => l = [] /\ t = t0) _
              (fun processed_ids l t => covers insert_street t0 (length processed_ids) t)
              (fun _ _ => False))
    | by intros | by intros ? ? ? [? ?] | by intros ? ? [? ?] ].
  eapply triple_bind with (R := fun _ l t => covers insert_street t0 (length l) t);
    [|intros ?; by apply triple_get_local_wp].
  eapply triple_try with (E' := fun _ t => t = t0).
  2: { intros e Hff. apply triple_print_wp. intros l t ->. apply covers_nil. }
  eapply triple_bind; [by apply triple_source_query_sp; intros ? ? [_ ->]|].
  intros result. apply triple_pure. intros _.
  apply triple_begin; [|by intros l t [_ ->]].
  intros t1.
  apply triple_pre with (P' := fun l t => t1 = t0 /\ (l = [] /\ t = t0));
    [|by intros l t [[-> ->] ->]].
  apply triple_pure. intros ->.
  apply (triple_for_each_wp ff S0
           (fun done l t => l = map (fun v => str (sv_objectid v)) (writes done) /\
                            t = executed insert_street (writes done) t0)).
  - by intros l t [-> ->].
  - intros done x todo Heq.
    assert (writes (done ++ [x])
            = writes done ++ match locality_ids !! str (OBJECTID x) with
                             | Some locality_id => [street_params x locality_id]
                             | None => []
                             end) as Hw.
    { unfold writes. rewrite omap_app. simpl.
      by destruct (locality_ids !! str (OBJECTID x)). }
    rewrite Hw. destruct (locality_ids !! str (OBJECTID x)) as [locality_id|].
    + eapply triple_bind; [by apply triple_connection_execute_sp|]. intros ?.
      eapply triple_bind; [apply triple_get_local|]. intros processed_ids.
      apply triple_set_local.
      intros l t (-> & t' & [-> ->] & ->). split.
      * by rewrite map_app.
      * by rewrite executed_snoc.
    + apply triple_ret. intros l t [-> ->]. by rewrite app_nil_r.
  - intros l t [-> ->]. split; [|done].
    exists (writes (fetchall result)). split; [done|]. by rewrite length_map.
Qed.

Lemma building_batch_count (batch : list string) (street_ids : gmap string Z)
    (batch_idx total_batches : nat) (t0 : Target) :
  triple ff S0 (fun _ t => t = t0)
    (_process_building_batch rt batch street_ids batch_idx total_batches)
    (fun ids _ t => covers insert_building t0 (length ids) t) (fun _ _ => False).
Proof.
  unfold _process_building_batch.
  eapply triple_conseq;
    [apply (triple_with_local ff S0 ([] : list string)
              (fun l t => l = [] /\ t = t0) _
              (fun processed_ids l t => covers insert_building t0 (length processed_ids) t)
              (fun _ _ => False))
    | by intros | by intros ? ? ? [? ?] | by intros ? ? [? ?] ].
  eapply triple_bind with (R := fun _ l t => covers insert_building t0 (length l) t);
    [|intros ?; by apply triple_get_local_wp].
  eapply triple_try with (E' := fun _ t => t = t0).
  2: { intros e Hff. apply triple_print_wp. intros l t ->. apply covers_nil. }
  eapply triple_bind; [by apply triple_source_query_sp; intros ? ? [_ ->]|].
  intros result. apply triple_pure. intros _.
  set (records := fun rows : list house_record => omap (building_record street_ids) rows).
  eapply triple_bind.
  { apply (triple_fold_each_wp ff S0
             (fun done acc l t => acc = records done /\
                                  l = map (fun v => str (bv_objectid v)) (records done) /\
                                  t = t0)
             _ _ _ _
             (fun acc l t => acc = records (fetchall result) /\
                             l = map (fun v => str (bv_objectid v)) (records (fetchall result)) /\
                             t = t0)).
    - by intros l t [-> ->].
    - intros done x todo acc Heq.
      assert (records (done ++ [x])
              = records done ++ match building_record street_ids x with
                                | Some record => [record]
                                | None => []
                                end) as Hr.
      { unfold records. rewrite omap_app. simpl.
        by destruct (building_record street_ids x). }
      rewrite Hr.
      destruct (building_record street_ids x) as [record|] eqn:Hrec.
      + eapply triple_bind; [apply triple_get_local|]. intros processed_ids.
        eapply triple_bind.
        { apply triple_set_local with
            (Q := fun _ l t => acc = records done /\
                               l = map (fun v => str (bv_objectid v)) (records done ++ [record]) /\
                               t = t0).
          intros l t (-> & -> & -> & ->). split; [done|]. split; [|done].
          rewrite map_app. simpl. do 3 f_equal.
          unfold building_record in Hrec.
          destruct (street_ids !! str (hr_OBJECTID x)); [|done].
          by injection Hrec as <-. }
        intros ?. apply triple_ret. by intros l t (-> & -> & ->).
      + apply triple_ret. intros l t (-> & -> & ->). by rewrite app_nil_r.
    - done. }
  intros building_records. apply triple_pure. intros ->.
  destruct (records (fetchall result)) as [|record more] eqn:Hrecords.
  - apply triple_ret. intros l t [-> ->]. apply covers_nil.
  - rewrite <- Hrecords.
    apply triple_begin; [|by intros l t [_ ->]].
    intros t1.
    apply triple_pre with
      (P' := fun l t => t1 = t0 /\
                        (l = map (fun v => str (bv_objectid v)) (records (fetchall result)) /\
                         t = t0));
      [|by intros l t [[-> ->] ->]].
    apply triple_pure. intros ->.
    eapply triple_bind; [by apply triple_connection_execute_sp|]. intros ?.
    eapply triple_bind.
    { apply (triple_for_each_wp ff S0
               (fun done l t =>
                  l = map (fun v => str (bv_objectid v)) (records (fetchall result)) /\
                  t = executed insert_building (concat done) t0)
               _ _ _
               (fun _ l t =>
                  l = map (fun v => str (bv_objectid v)) (records (fetchall result)) /\
                  t = executed insert_building (records (fetchall result)) t0)).
      - intros l t (t' & [-> ->] & ->). done.
      - intros done x todo Heq.
        apply triple_connection_execute_wp; [|done].
        intros l t [-> ->]. split; [done|].
        rewrite concat_app. simpl. rewrite app_nil_r.
        by rewrite executed_app, insert_buildings_executed.
      - intros l t [-> ->]. split; [done|].
        by rewrite chunks_concat by lia. }
    intros ?. apply triple_connection_execute_wp; [|done].
    intros l t [-> ->]. split; [|done].
    exists (records (fetchall result)). split; [done|]. by rewrite length_map.
Qed.

Lemma triple_submit_all_count {V} (statement : V -> Target -> Target)
    (worker : list string -> nat -> M (list string)) :
  (forall batch idx t0,
     triple ff S0 (fun _ t => t = t0) (worker batch idx)
       (fun ids _ t => covers statement t0 (length ids) t) (fun _ _ => False)) ->
  forall batches idx t0,
    triple ff S0 (fun _ t => t = t0) (submit_all worker idx batches)
      (fun futures _ t => covers statement t0 (length (concat (successes futures))) t)
      (fun _ _ => False).
Proof.
  intros Hworker. induction batches as [|batch rest IH]; intros idx t0; simpl.
  - apply triple_ret. intros l t ->. apply covers_nil.
  - eapply triple_bind; [apply triple_future_of, Hworker|].
    intros [processed_ids|e]; [|apply triple_pre with (P' := fun _ _ => False);
                                 [apply triple_false|by intros ? ? [? ?]]].
    unfold covers. apply triple_exists. intros written.
    apply triple_pre with
      (P' := fun (l : unit) t =>
               (length written <= length processed_ids)%nat /\
               t = executed statement written t0);
      [|by intros l t [-> H]].
    apply triple_pure. intros Hlen.
    eapply triple_bind; [apply IH|].
    intros futures. apply triple_ret.
    intros l t (written' & -> & Hlen').
    exists (written ++ written'). split; [by rewrite executed_app|].
    simpl. rewrite !length_app. lia.
Qed.

Lemma triple_pool_count {V B} (statement : V -> Target -> Target)
    (worker : list string -> nat -> M (list string))
    (what : string) (batches : list (list string)) (t0 : Target)
    (k : list string -> M B) Q E :
  fair rt ->
  (forall batch idx t1,
     triple ff S0 (fun _ t => t = t1) (worker batch idx)
       (fun ids _ t => covers statement t1 (length ids) t) (fun _ _ => False)) ->
  (forall processed_ids written,
     (length written <= length processed_ids)%nat ->
     triple ff S0 (fun _ t => t = executed statement written t0) (k processed_ids) Q E) ->
  triple ff S0 (fun _ t => t = t0)
    (futures <- submit_all worker 0 batches ;;
     processed_ids <- gather what (as_completed rt futures) [] ;;
     k processed_ids)
    Q E.
Proof.
  intros [_ Hcompleted] Hworker Hk.
  eapply triple_bind;
    [eapply triple_weaken_exn;
       [by apply (triple_submit_all_count statement worker)|done]|].
  intros futures. eapply triple_bind; [apply triple_gather|].
  intros processed_ids.
  apply triple_pre with
    (P' := fun (l : unit) t =>
             exists written,
               (processed_ids = [] ++ concat (successes (as_completed rt futures)) /\
                (length written <= length (concat (successes futures)))%nat) /\
               t = executed statement written t0);
    [|intros l t (Hp & written & -> & Hlen); by exists written].
  apply triple_exists. intros written. apply triple_pure.
  intros (-> & Hlen). apply Hk. simpl.
  rewrite (Permutation_length
             (concat_Permutation _ _ (successes_Permutation _ _ (Hcompleted futures)))).
  done.
Qed.

Lemma missing_localities_count (missing_ids : list string) (t0 : Target) :
  triple ff S0 (fun _ t => t = t0) (_process_missing_localities rt self missing_ids)
    (fun n _ t => covers insert_locality t0 n t) (fun _ _ => False).
Proof.
  unfold _process_missing_localities.
  apply (triple_fold_each_wp ff S0
           (fun done total (l : unit) t => covers insert_locality t0 total t)).
  - intros l t ->. apply covers_nil.
  - intros done [batch_idx batch] todo total Heq. simpl.
    unfold covers at 1. apply triple_exists. intros written.
    apply triple_pre with
      (P' := fun (l : unit) t =>
               (length written <= total)%nat /\ t = executed insert_locality written t0);
      [|by intros l t [-> H]].
    apply triple_pure. intros Hinv.
    set (t1 := executed insert_locality written t0).
    eapply triple_try with (E' := fun _ t => t = t1).
    2: { intros e Hff. eapply triple_bind; [apply triple_print|]. intros ?.
         apply triple_ret. intros l t ->. by exists written. }
    eapply triple_bind; [by apply triple_source_query_sp|].
    intros mh_result. apply triple_pure. intros _.
    eapply triple_bind.
    { apply (triple_fold_each_wp ff S0
               (fun done' (acc : list locality_values) (l : unit) t => t = t1)
               _ _ _ _
               (fun (acc : list locality_values) (l : unit) t => t = t1)).
      - done.
      - intros done' mh_record todo' acc Heq'.
        eapply triple_bind; [apply (reconcile_record_spec ff S0 rt (P := fun _ t => t = t1))|].
        intros found. apply triple_ret. by intros l t [-> _].
      - done. }
    intros localities_to_insert.
    destruct localities_to_insert as [|locality more] eqn:Hlist.
    + apply triple_ret. intros l t ->. by exists written.
    + rewrite <- Hlist in *. clear Hlist.
      eapply triple_bind.
      { apply triple_begin with
          (Q := fun _ (l : unit) t =>
                  t = executed insert_locality localities_to_insert t1);
          [|done].
        intros t2.
        apply triple_pre with (P' := fun (l : unit) t => t2 = t1 /\ t = t1);
          [|by intros l t [-> ->]].
        apply triple_pure. intros ->.
        apply (triple_for_each_wp ff S0
                 (fun done' (l : unit) t => t = executed insert_locality done' t1)).
        - done.
        - intros done' locality' todo' Heq'.
          apply triple_connection_execute_wp; [|done].
          intros l t ->. by rewrite executed_snoc.
        - done. }
      intros ?. apply triple_ret. intros l t ->.
      exists (written ++ localities_to_insert). split; [by rewrite executed_app|].
      rewrite length_app. lia.
  - done.
Qed.

Lemma localities_stage_count (t0 : Target) :
  fair rt ->
  triple ff S0 (fun _ t => t = t0) (process_localities_parallel rt self)
    (fun n _ t => covers insert_locality t0 n t) (fun _ t => t = t0).
Proof.
  intros Hfair. unfold process_localities_parallel.
  eapply triple_bind; [by apply triple_source_query_sp|].
  intros result. apply triple_pure. intros _.
  destruct result as [locality_ids|].
  2: { eapply triple_bind; [apply triple_print|]. intros ?.
       apply triple_ret. intros l t ->. apply covers_nil. }
  apply (triple_pool_count insert_locality);
    [done|intros; apply locality_batch_count|].
  intros processed_ids first_pass Hlen.
  destruct (missing_of locality_ids processed_ids) as [|missing_id more] eqn:Hmissing.
  - apply triple_ret. intros l t ->. by exists first_pass.
  - rewrite <- Hmissing. clear Hmissing.
    eapply triple_bind;
      [eapply triple_weaken_exn; [apply missing_localities_count|done]|].
    intros additional_processed. apply triple_ret.
    intros l t (written & -> & Hlen'). exists (first_pass ++ written).
    split; [by rewrite executed_app|]. rewrite length_app. lia.
Qed.

Lemma streets_stage_count (t0 : Target) :
  fair rt ->
  triple ff S0 (fun _ t => t = t0) (process_streets_parallel rt self)
    (fun n _ t => covers insert_street t0 n t) (fun _ t => t = t0).
Proof.
  intros Hfair. unfold process_streets_parallel.
  eapply triple_bind; [by apply triple_target_query_sp|].
  intros result.
  apply triple_pre with (P' := fun (l : unit) t => t = t0); [|by intros l t [_ ->]].
  destruct result as [found|].
  2: { eapply triple_bind; [apply triple_print|]. intros ?.
       apply triple_ret. intros l t ->. apply covers_nil. }
  destruct (decide (id_map l_objectid l_id found = ∅)) as [Hempty|Hnonempty].
  { eapply triple_bind; [apply triple_print|]. intros ?.
    apply triple_ret. intros l t ->. apply covers_nil. }
  eapply triple_bind; [by apply triple_source_query_sp|].
  intros result. apply triple_pure. intros _.
  destruct result as [pairs|].
  2: { eapply triple_bind; [apply triple_print|]. intros ?.
       apply triple_ret. intros l t ->. apply covers_nil. }
  apply (triple_pool_count insert_street);
    [done|intros; apply street_batch_count|].
  intros processed_ids written Hlen.
  eapply triple_bind with (R := fun _ (l : unit) t => t = executed insert_street written t0).
  { destruct (missing_of _ processed_ids); [by apply triple_ret|by apply triple_print_wp]. }
  intros ?. apply triple_ret. intros l t ->. by exists written.
Qed.

Lemma buildings_stage_count (t0 : Target) :
  fair rt ->
  triple ff S0 (fun _ t => t = t0) (process_buildings_parallel rt self)
    (fun n _ t => covers insert_building t0 n t) (fun _ t => t = t0).
Proof.
  intros Hfair. unfold process_buildings_parallel.
  eapply triple_bind; [by apply triple_target_query_sp|].
  intros result.
  apply triple_pre with
    (P' := fun (l : unit) t => (is_Some result \/ ff = false) /\ t = t0).
  2: { intros l t [[->|[Hff ->]] ->]; (split; [|done]); [by left|by right]. }
  apply triple_pure. intros Hres.
  destruct result as [found|].
  2: { destruct Hres as [[? ?]|Hff]; [done|]. by apply triple_raise. }
  destruct (decide (id_map s_objectid s_id found = ∅)) as [Hempty|Hnonempty].
  { eapply triple_bind; [apply triple_print|]. intros ?.
    apply triple_ret. intros l t ->. apply covers_nil. }
  eapply triple_bind with (R := fun _ (l : unit) t => t = t0).
  { eapply triple_try with (E' := fun _ t => t = t0).
    - eapply triple_bind; [apply ensure_index_spec|]. intros ?.
      eapply triple_bind; [apply ensure_index_spec|]. intros ?.
      by apply triple_print_wp.
    - intros e Hff. by apply triple_print_wp. }
  intros ?.
  eapply triple_bind; [by apply triple_source_query_sp|].
  intros result. apply triple_pure. intros _.
  destruct result as [scan|].
  2: { eapply triple_bind; [apply triple_print|]. intros ?.
       apply triple_ret. intros l t ->. apply covers_nil. }
  set (flat := flatten_groups rt (id_map s_objectid s_id found)
                 (group_buildings (id_map s_objectid s_id found) scan)).
  destruct (fst flat) as [|building_id more] eqn:Hall.
  { eapply triple_bind; [apply triple_print|]. intros ?.
    apply triple_ret. intros l t ->. apply covers_nil. }
  rewrite <- Hall. clear Hall.
  apply (triple_pool_count insert_building);
    [done|intros; apply building_batch_count|].
  intros processed_ids written Hlen.
  eapply triple_bind with (R := fun _ (l : unit) t => t = executed insert_building written t0).
  { destruct (missing_of _ processed_ids); [by apply triple_ret|by apply triple_print_wp]. }
  intros ?. apply triple_ret. intros l t ->. by exists written.
Qed.

End Counts.

Lemma stage_covers {V} (statement : V -> Target -> Target) (stage : M nat) (w : World) :
  triple false (source w) (fun _ t => t = target w) stage
    (fun n _ t => covers statement (target w) n t) (fun _ t => t = target w) ->
  forall n, fst (run stage w) = Return n ->
            covers statement (target w) n (target (snd (run stage w))).
Proof.
  intros Hspec n Hn.
  pose proof (triple_run false (source w) _ _ _ _ w Hspec
                eq_refl (fun H => not_fault_free H _) eq_refl) as H.
  destruct (run stage w) as [[n'|e] w']; simpl in *; [|done].
  injection Hn as ->. by destruct H as (_ & _ & H).
Qed.

Lemma covers_zero {V} (statement : V -> Target -> Target) (t0 t : Target) :
  covers statement t0 0 t -> t = t0.
Proof. intros ([|v written] & -> & Hlen); [done|]. simpl in Hlen. lia. Qed.

(** X21. A stage never reports fewer rows than it wrote.  Whatever the faults,
    when a stage returns the count [n], its table is the one it found with
    the [INSERT] executed for at most [n] rows; a stage that returns 0 has
    therefore left the target as it was.  (The count can be larger than
    the number of rows written: a worker keeps the ids of a batch whose
    transaction was rolled back.) *)
Theorem counts_cover_writes (rt : Runtime) (self : GarConverter) (w : World) :
  fair rt ->
  (forall n, fst (run (process_localities_parallel rt self) w) = Return n ->
     covers insert_locality (target w) n
       (target (snd (run (process_localities_parallel rt self) w))) /\
     (n = 0%nat -> target (snd (run (process_localities_parallel rt self) w)) = target w)) /\
  (forall n, fst (run (process_streets_parallel rt self) w) = Return n ->
     covers insert_street (target w) n
       (target (snd (run (process_streets_parallel rt self) w))) /\
     (n = 0%nat -> target (snd (run (process_streets_parallel rt self) w)) = target w)) /\
  (forall n, fst (run (process_buildings_parallel rt self) w) = Return n ->
     covers insert_building (target w) n
       (target (snd (run (process_buildings_parallel rt self) w))) /\
     (n = 0%nat -> target (snd (run (process_buildings_parallel rt self) w)) = target w)).
Proof.
  intros Hfair. split; [|split]; intros n Hn.
  - pose proof (stage_covers insert_locality _ w
                  (localities_stage_count false (source w) rt self (target w) Hfair) n Hn) as H.
    split; [done|]. intros ->. by apply (covers_zero insert_locality).
  - pose proof (stage_covers insert_street _ w
                  (streets_stage_count false (source w) rt self (target w) Hfair) n Hn) as H.
    split; [done|]. intros ->. by apply (covers_zero insert_street).
  - pose proof (stage_covers insert_building _ w
                  (buildings_stage_count false (source w) rt self (target w) Hfair) n Hn) as H.
    split; [done|]. intros ->. by apply (covers_zero insert_building).
Qed.

Lemma counts_cover_writes_witness :
  let w := Sample.world Sample.gar
             [Succeeds; Succeeds; Succeeds; Succeeds; Fails (OtherError "connection lost")] in
  let after := target (snd (run (process_localities_parallel reference_runtime
                                   Sample.converter) w)) in
  covers insert_locality (target w) 2 after /\ length (rows (localities after)) = 1%nat.
Proof.
  intros w after.
  destruct (counts_cover_writes reference_runtime Sample.converter w reference_runtime_fair)
    as (Hlocalities & _ & _).
  destruct (Hlocalities 2%nat) as [Hcovers _]; [by vm_compute|].
  split; [exact Hcovers|by vm_compute].
Defined.
